(** * flask_dantic_schema.extension: the OpenAPI document assembler

    A shallow embedding of [src/flask_dantic_schema/extension.py] and the
    properties of its schema-aggregation code.

    Python values are modelled as a tree type [pyval]; a [dict] is an
    association list kept in insertion order with the update discipline of
    Python's [dict]; exceptions are an error monad; the objects whose
    identity matters (the Path Item shared by the verbs of a route, the
    mapping handed to [_split_definitions], the function object marked by
    [hide_route]) live in a store of cells. *)

From Stdlib Require Import String Ascii.
From Stdlib Require Import List ZArith NArith Lia Bool.
Import ListNotations.
Open Scope list_scope.

Set Implicit Arguments.
Set Warnings "-register-all".

(* ================================================================== *)
(** * Python strings, keys and values *)

(** A [str] is a sequence of code points. *)
Definition pystr := list N.

(** Literals: [str "GET"] is the Python string ["GET"]. *)
Definition str (s : string) : pystr :=
  map N_of_ascii (list_ascii_of_string s).

Fixpoint pystr_eqb (a b : pystr) : bool :=
  match a, b with
  | [], [] => true
  | x :: a', y :: b' => N.eqb x y && pystr_eqb a' b'
  | _, _ => false
  end.

(** Dictionary keys met in this module: strings, and the integers used as
    status codes. *)
Inductive pykey :=
| KStr (s : pystr)
| KInt (z : Z).

Definition pykey_eqb (a b : pykey) : bool :=
  match a, b with
  | KStr s, KStr t => pystr_eqb s t
  | KInt x, KInt y => Z.eqb x y
  | _, _ => false
  end.

Definition loc := nat.

(** Values.  [PDataclass] is an instance of a [@dataclass] class with its
    declared fields in declaration order; [PModel] is an instance of a
    pydantic [BaseModel] together with what its [.dict()] returns (the
    validation library is an external capability); [PType] is a class
    object, flagged when the class is a dataclass. *)
Inductive pyval :=
| PNone
| PBool (b : bool)
| PInt (z : Z)
| PStr (s : pystr)
| PList (l : list pyval)
| PTuple (l : list pyval)
| PDict (d : list (pykey * pyval))
| PDataclass (cls : pystr) (fields : list (pystr * pyval))
| PModel (cls : pystr) (as_dict : list (pykey * pyval))
| PType (name : pystr) (is_dataclass_type : bool).

(** Induction on values that reaches inside lists, tuples, mappings and
    fields. *)
Section PyvalInd.
Variable P : pyval -> Prop.
Hypothesis HNone : P PNone.
Hypothesis HBool : forall b, P (PBool b).
Hypothesis HInt : forall z, P (PInt z).
Hypothesis HStr : forall s, P (PStr s).
Hypothesis HList : forall l, Forall P l -> P (PList l).
Hypothesis HTuple : forall l, Forall P l -> P (PTuple l).
Hypothesis HDict : forall d, Forall (fun kv => P (snd kv)) d -> P (PDict d).
Hypothesis HDataclass :
  forall c fs, Forall (fun kv => P (snd kv)) fs -> P (PDataclass c fs).
Hypothesis HModel : forall c d, P (PModel c d).
Hypothesis HType : forall n b, P (PType n b).

Fixpoint pyval_nested_ind (v : pyval) : P v :=
  match v with
  | PNone => HNone
  | PBool b => HBool b
  | PInt z => HInt z
  | PStr s => HStr s
  | PList l =>
      HList ((fix go (l : list pyval) : Forall P l :=
                match l with
                | [] => Forall_nil _
                | x :: l' => Forall_cons x (pyval_nested_ind x) (go l')
                end) l)
  | PTuple l =>
      HTuple ((fix go (l : list pyval) : Forall P l :=
                 match l with
                 | [] => Forall_nil _
                 | x :: l' => Forall_cons x (pyval_nested_ind x) (go l')
                 end) l)
  | PDict d =>
      HDict ((fix go (d : list (pykey * pyval))
                : Forall (fun kv => P (snd kv)) d :=
                match d with
                | [] => Forall_nil _
                | kv :: d' =>
                    Forall_cons kv
                      (let (k, x) as kv return P (snd kv) := kv in
                       pyval_nested_ind x)
                      (go d')
                end) d)
  | PDataclass c fs =>
      HDataclass c
        ((fix go (d : list (pystr * pyval))
            : Forall (fun kv => P (snd kv)) d :=
            match d with
            | [] => Forall_nil _
            | kv :: d' =>
                Forall_cons kv
                  (let (k, x) as kv return P (snd kv) := kv in
                   pyval_nested_ind x)
                  (go d')
            end) fs)
  | PModel c d => HModel c d
  | PType n b => HType n b
  end.
End PyvalInd.

(** Exceptions raised by the modelled code. *)
Inductive exn :=
| KeyError
| ValueError
| TypeError
| AttributeError
| BadRef.  (* a location outside the store; no Python state has one *)

Inductive res (A : Type) :=
| Ok (a : A)
| Raise (e : exn).
Arguments Ok {A} a.
Arguments Raise {A} e.

Definition bind {A B} (m : res A) (f : A -> res B) : res B :=
  match m with
  | Ok a => f a
  | Raise e => Raise e
  end.

Definition res_map {A B} (f : A -> B) (m : res A) : res B :=
  bind m (fun a => Ok (f a)).

Declare Scope res_scope.
Delimit Scope res_scope with res.
Notation "x <- m ;; k" := (bind m (fun x => k))
  (at level 61, m at next level, right associativity) : res_scope.
Notation "' p <- m ;; k" := (bind m (fun x => match x with p => k end))
  (at level 61, p pattern, m at next level, right associativity) : res_scope.
Open Scope res_scope.

(* ================================================================== *)
(** * Insertion-ordered dictionaries *)

Section Dict.
Context {V : Type}.

Definition dict := list (pykey * V).

(** [d.get(k)] *)
Fixpoint dict_get (d : dict) (k : pykey) : option V :=
  match d with
  | [] => None
  | (k', v) :: d' => if pykey_eqb k k' then Some v else dict_get d' k
  end.

(** [d[k] = v]: an existing key keeps its position, a new one goes last. *)
Fixpoint dict_set (d : dict) (k : pykey) (v : V) : dict :=
  match d with
  | [] => [(k, v)]
  | (k', v') :: d' =>
      if pykey_eqb k k' then (k', v) :: d' else (k', v') :: dict_set d' k v
  end.

(** The mapping left by [d.pop(k, default)]. *)
Definition dict_remove (d : dict) (k : pykey) : dict :=
  filter (fun kv => negb (pykey_eqb k (fst kv))) d.

(** [d.setdefault(k, v)], for its effect on [d]. *)
Definition dict_setdefault (d : dict) (k : pykey) (v : V) : dict :=
  match dict_get d k with
  | Some _ => d
  | None => dict_set d k v
  end.

(** [d.update(other)] for a mapping [other]. *)
Definition dict_update (d other : dict) : dict :=
  fold_left (fun acc kv => dict_set acc (fst kv) (snd kv)) other d.

Definition keys (d : dict) : list pykey := map fst d.

Definition has_key (d : dict) (k : pykey) : bool :=
  match dict_get d k with Some _ => true | None => false end.
End Dict.
Arguments dict V : clear implicits.

Definition pydict := dict pyval.

(** A dict display [{k1: v1, ...}]. *)
Definition mk_dict (items : list (pykey * pyval)) : pydict :=
  dict_update [] items.

Definition skey (s : string) : pykey := KStr (str s).

(* ================================================================== *)
(** * The store of mapping objects *)

Definition heap := list pydict.

Definition heap_get (h : heap) (l : loc) : option pydict := nth_error h l.

Fixpoint heap_put (h : heap) (l : loc) (d : pydict) : heap :=
  match h, l with
  | [], _ => []
  | _ :: h', O => d :: h'
  | x :: h', S l' => x :: heap_put h' l' d
  end.

(** A new cell: its location is the next free one. *)
Definition alloc (h : heap) (d : pydict) : loc * heap :=
  (length h, h ++ [d]).

(** Store-passing computations that may raise. *)
Definition M (A : Type) := heap -> res (A * heap).

Definition ret {A} (a : A) : M A := fun h => Ok (a, h).

Definition mbind {A B} (m : M A) (f : A -> M B) : M B :=
  fun h => match m h with
           | Ok (a, h') => f a h'
           | Raise e => Raise e
           end.

Declare Scope store_scope.
Delimit Scope store_scope with store.
Notation "x <~ m ;; k" := (mbind m (fun x => k))
  (at level 61, m at next level, right associativity) : store_scope.

(** [d.copy()]: a new mapping object with the entries of [d]. *)
Definition dict_copy (l : loc) : M loc :=
  fun h => match heap_get h l with
           | Some d => let (l', h') := alloc h d in Ok (l', h')
           | None => Raise BadRef
           end.

(** [d.pop(k, default)], in place. *)
Definition dict_pop (l : loc) (k : pykey) (default : pyval) : M pyval :=
  fun h => match heap_get h l with
           | Some d =>
               match dict_get d k with
               | Some v => Ok (v, heap_put h l (dict_remove d k))
               | None => Ok (default, h)
               end
           | None => Raise BadRef
           end.

(* ================================================================== *)
(** * [_split_definitions] *)

(** On objects, line by line:
<<
    new_schema = schema.copy()
    definitions = new_schema.pop("definitions", {})
    return definitions, new_schema
>> *)
Definition _split_definitions_ref (schema : loc) : M (pyval * loc) :=
  (new_schema <~ dict_copy schema ;;
   definitions <~ dict_pop new_schema (skey "definitions") (PDict []) ;;
   ret (definitions, new_schema))%store.

(** On values: what the call returns for a mapping with entries [schema]. *)
Definition _split_definitions (schema : pydict) : pyval * pydict :=
  let new_schema := schema in
  let definitions :=
    match dict_get new_schema (skey "definitions") with
    | Some v => v
    | None => PDict []
    end in
  (definitions, dict_remove new_schema (skey "definitions")).

(* ================================================================== *)
(** * Builtins used by the module *)

Definition chr (a : ascii) : N := N_of_ascii a.

(** The line boundaries of [str.splitlines]: LF, VT, FF, CR, FS, GS, RS,
    NEL, LINE SEPARATOR and PARAGRAPH SEPARATOR. *)
Definition is_linebreak (c : N) : bool :=
  existsb (N.eqb c) [10; 11; 12; 13; 28; 29; 30; 133; 8232; 8233]%N.

(** [s.splitlines()], with [cur] the line read so far.  CR LF is one
    boundary, and a final boundary opens no further line. *)
Fixpoint splitlines_from (cur s : pystr) : list pystr :=
  match s with
  | [] => match cur with [] => [] | _ :: _ => [cur] end
  | c :: s' =>
      if is_linebreak c then
        match s' with
        | c2 :: s'' =>
            if N.eqb c 13 && N.eqb c2 10
            then cur :: splitlines_from [] s''
            else cur :: splitlines_from [] s'
        | [] => cur :: splitlines_from [] s'
        end
      else splitlines_from (cur ++ [c]) s'
  end.

Definition splitlines (s : pystr) : list pystr := splitlines_from [] s.

Definition newline : pystr := [10%N].

(** [sep.join(l)] *)
Fixpoint join (sep : pystr) (l : list pystr) : pystr :=
  match l with
  | [] => []
  | x :: l' =>
      match l' with
      | [] => x
      | _ :: _ => x ++ sep ++ join sep l'
      end
  end.

(** ** Regular expressions

    The fragment of [re] that [PATH_RE] is written in, matched the way [re]
    matches: leftmost alternative first, greedy repetition, backtracking
    into earlier choices when the rest of the pattern fails. *)
Inductive regex :=
| Chr (c : N)               (* a literal character *)
| NotChr (c : N)            (* [^c] *)
| Seq (r1 r2 : regex)       (* r1 r2 *)
| Opt (r : regex)           (* r? *)
| Star (r : regex)          (* r* *)
| Group (r : regex).        (* ( r ), group 1 *)

(** r+ *)
Definition Plus (r : regex) : regex := Seq r (Star r).

(** What is left of the input, and the text of group 1 if it took part. *)
Definition mstate := (pystr * option pystr)%type.

(** [rmatch r s g k]: match [r] at the head of [s], then continue with [k]
    on the rest; a failing continuation makes the matcher try its next
    choice.  An iteration of [Star] has to consume input. *)
Fixpoint rmatch (r : regex) (s : pystr) (g : option pystr)
    (k : pystr -> option pystr -> option mstate) : option mstate :=
  match r with
  | Chr c =>
      match s with
      | x :: s' => if N.eqb x c then k s' g else None
      | [] => None
      end
  | NotChr c =>
      match s with
      | x :: s' => if N.eqb x c then None else k s' g
      | [] => None
      end
  | Seq r1 r2 => rmatch r1 s g (fun s' g' => rmatch r2 s' g' k)
  | Opt r1 =>
      match rmatch r1 s g k with
      | Some m => Some m
      | None => k s g
      end
  | Star r1 =>
      (fix star (fuel : nat) (s : pystr) (g : option pystr) : option mstate :=
         match fuel with
         | O => k s g
         | S fuel' =>
             match rmatch r1 s g
                     (fun s' g' =>
                        if length s' <? length s then star fuel' s' g'
                        else None) with
             | Some m => Some m
             | None => k s g
             end
         end) (length s) s g
  | Group r1 =>
      rmatch r1 s g
        (fun s' g' => k s' (Some (firstn (length s - length s') s)))
  end.

(** [pattern.match(s)]: a match anchored at the head of [s]. *)
Definition re_match (r : regex) (s : pystr) : option mstate :=
  rmatch r s None (fun s' g => Some (s', g)).

(** [re.sub(pattern, repl, s)]: the leftmost matches, none overlapping,
    each replaced by the expansion of the template on its group.  [skip]
    counts the characters of [s] still covered by the last match. *)
Fixpoint re_sub_from (r : regex) (repl : option pystr -> pystr)
    (s : pystr) (skip : nat) : pystr :=
  match s with
  | [] =>
      match skip, re_match r [] with
      | O, Some (_, g) => repl g
      | _, _ => []
      end
  | c :: s' =>
      match skip with
      | S n => re_sub_from r repl s' n
      | O =>
          match re_match r s with
          | Some (rest, g) =>
              match length s - length rest with
              | O => repl g ++ c :: re_sub_from r repl s' 0
              | S n => repl g ++ re_sub_from r repl s' n
              end
          | None => c :: re_sub_from r repl s' 0
          end
      end
  end.

Definition re_sub (r : regex) (repl : option pystr -> pystr) (s : pystr)
  : pystr :=
  re_sub_from r repl s 0.

(** ** Dataclasses *)

(** [dataclasses.is_dataclass]: true of a dataclass and of its instances. *)
Definition is_dataclass (v : pyval) : bool :=
  match v with
  | PDataclass _ _ => true
  | PType _ dc => dc
  | _ => false
  end.

(** The recursion of [dataclasses.asdict]: a dataclass instance becomes the
    mapping of its fields, and the conversion goes on inside field values,
    lists, tuples and mappings; any other value is copied. *)
Fixpoint asdict_inner (v : pyval) : pyval :=
  match v with
  | PDataclass _ fields =>
      PDict (map (fun kv => (KStr (fst kv), asdict_inner (snd kv))) fields)
  | PList l => PList (map asdict_inner l)
  | PTuple l => PTuple (map asdict_inner l)
  | PDict d => PDict (map (fun kv => (fst kv, asdict_inner (snd kv))) d)
  | _ => v
  end.

(** [dataclasses.asdict]: refuses what is not a dataclass instance. *)
Definition asdict (v : pyval) : res pyval :=
  match v with
  | PDataclass _ _ => Ok (asdict_inner v)
  | _ => Raise TypeError
  end.

(* ================================================================== *)
(** * [hide_route], [convert_model_result] *)

(** Lines 228-233 of [convert_model_result]:
<<
    if is_dataclass(value):
        dict_or_value = asdict(value)
    elif isinstance(value, BaseModel):
        dict_or_value = value.dict()
    else:
        dict_or_value = value
>> *)
Definition dict_or_value (value : pyval) : res pyval :=
  if is_dataclass value then asdict value
  else match value with
       | PModel _ d => Ok (PDict d)
       | _ => Ok value
       end.

(** The decorated response constructor.  A tuple result is padded with
    [None] to three positions; more than three do not unpack. *)
Definition convert_model_result {R : Type} (func : pyval -> res R)
    (result : pyval) : res R :=
  '(value, status_or_headers, headers) <-
     match result with
     | PTuple t =>
         match t ++ repeat PNone (3 - length t) with
         | [a; b; c] => Ok (a, b, c)
         | _ => Raise ValueError
         end
     | _ => Ok (result, PNone, PNone)
     end ;;
  dict_or_value <- dict_or_value value ;;
  func (PTuple [dict_or_value; status_or_headers; headers]).

(* ================================================================== *)
(** * The routing layer, annotations and the extension *)

(** Modelled from the spec: the enum [DataSource] of [validation.py], which
    is not part of the sources at hand; the spec gives it the two members
    JSON and FORM. *)
Inductive DataSource := FORM | JSON.

(** A validation-model class, as far as the assembler looks at it: its
    [__doc__] and the fragment [pydantic.schema.model_schema] returns for
    it under a reference prefix. *)
Record Model := {
  model_doc : option pystr;
  model_schema : pystr -> pydict;
}.

(** A view function with the attributes the assembler reads through
    [getattr]; [None] stands for an attribute that was never set. *)
Record view_function := {
  flask_schema_hidden : option bool;
  doc : option pystr;
  flask_schema_response : option (dict Model);
  flask_schema_request : option (Model * DataSource);
  flask_schema_querystring : option Model;
}.

(** A [werkzeug] rule; [_converters] has one entry per variable part of
    the pattern, in the order of the pattern. *)
Record Rule := {
  rule : pystr;
  endpoint : pystr;
  methods : list pystr;
  provide_automatic_options : bool;
  _converters : dict pystr;
}.

Record Flask := {
  url_map : list Rule;
  view_functions : dict view_function;
}.

Record FlaskSchema := {
  title : option pystr;
  version : pystr;
  tags : list pyval;
  convert_casing : bool;
  servers : option (list pyval);
}.

Definition REF_PREFIX : pystr := str "#/components/schemas/".

(** [re.compile("<(?:[^:]*:)?([^>]+)>")] *)
Definition PATH_RE : regex :=
  Seq (Chr (chr "<"))
    (Seq (Opt (Seq (Star (NotChr (chr ":"))) (Chr (chr ":"))))
       (Seq (Group (Plus (NotChr (chr ">")))) (Chr (chr ">")))).

(** The template [r"{\1}"]. *)
Definition path_template (g : option pystr) : pystr :=
  str "{" ++ match g with Some x => x | None => [] end ++ str "}".

(** [setattr(func, FLASK_SCHEMA_HIDDEN_ATTRIBUTE, True); return func] *)
Definition hide_route (func : view_function) : view_function :=
  {| flask_schema_hidden := Some true;
     doc := doc func;
     flask_schema_response := flask_schema_response func;
     flask_schema_request := flask_schema_request func;
     flask_schema_querystring := flask_schema_querystring func |}.

(** [getattr(func, FLASK_SCHEMA_HIDDEN_ATTRIBUTE, False)] *)
Definition hidden (func : view_function) : bool :=
  match flask_schema_hidden func with
  | Some b => b
  | None => false
  end.

Definition key_value (k : pykey) : pyval :=
  match k with
  | KStr s => PStr s
  | KInt z => PInt z
  end.

Definition opt_str (o : option pystr) : pyval :=
  match o with
  | Some s => PStr s
  | None => PNone
  end.

(** [d[k1][k2] = v] *)
Definition setitem_in (d : pydict) (k1 k2 : pykey) (v : pyval) : res pydict :=
  match dict_get d k1 with
  | Some (PDict inner) => Ok (dict_set d k1 (PDict (dict_set inner k2 v)))
  | Some _ => Raise TypeError
  | None => Raise KeyError
  end.

(** [d[k].append(v)] *)
Definition append_in (d : pydict) (k : pykey) (v : pyval) : res pydict :=
  match dict_get d k with
  | Some (PList l) => Ok (dict_set d k (PList (l ++ [v])))
  | Some _ => Raise AttributeError
  | None => Raise KeyError
  end.

(** [components["schemas"].update(definitions)].  The generator returns a
    mapping under [definitions]; for a value that is no mapping the model
    raises as [dict.update] does for a value it cannot iterate.
    [dict.update] takes an iterable of pairs that is no mapping as well:
    the generator returns none, and no statement below says what the code
    does with one. *)
Definition update_schemas (schemas : pydict) (definitions : pyval)
  : res pydict :=
  match definitions with
  | PDict d => Ok (dict_update schemas d)
  | _ => Raise TypeError
  end.

(** The state of one run of the assembler: the two accumulators and the
    store in which Path Items are allocated. *)
Record build_state := {
  st_paths : dict (dict loc);
  st_schemas : pydict;
  st_heap : heap;
}.

(** The returned document.  [paths] holds, per path and verb, the location
    of the Path Item; [components] is the table [components["schemas"]]. *)
Record openapi_doc := {
  openapi : pystr;
  info_title : option pystr;
  info_version : pystr;
  components : pydict;
  paths : dict (dict loc);
  doc_tags : list pyval;
  doc_servers : option (list pyval);
}.

(* ================================================================== *)
(** * [_build_openapi_schema] *)

Section Assembler.
(** [humps.camelize] on a mapping, and [str.lower]. *)
Variable camelize : pydict -> pydict.
Variable lower : pystr -> pystr.

(** The three lines every model goes through:
<<
  schema = model_schema(model, ref_prefix=REF_PREFIX)
  if extension.convert_casing:
      schema = camelize(schema)
  definitions, schema = _split_definitions(schema)
>> *)
Definition generated (extension : FlaskSchema) (m : Model) : pydict :=
  let schema := model_schema m REF_PREFIX in
  if convert_casing extension then camelize schema else schema.

Definition fragment (extension : FlaskSchema) (m : Model)
  : pyval * pydict :=
  _split_definitions (generated extension m).

Definition response_object (schema : pydict) (model_class : Model)
  : pyval :=
  PDict (mk_dict
    [(skey "content",
      PDict (mk_dict
        [(skey "application/json",
          PDict (mk_dict [(skey "schema", PDict schema)]))]));
     (skey "description", opt_str (model_doc model_class))]).

(** Lines 251-254. *)
Definition add_doc (func : view_function) (path_object : pydict)
  : res pydict :=
  match doc func with
  | Some d =>
      match splitlines d with
      | summary :: description =>
          let path_object :=
            dict_set path_object (skey "description")
              (PStr (join newline description)) in
          Ok (dict_set path_object (skey "summary") (PStr summary))
      | [] => Raise ValueError
      end
  | None => Ok path_object
  end.

(** Lines 257-270, over [response_models.items()]. *)
Fixpoint add_responses (extension : FlaskSchema)
    (items : list (pykey * Model)) (schemas path_object : pydict)
  : res (pydict * pydict) :=
  match items with
  | [] => Ok (schemas, path_object)
  | (status_code, model_class) :: rest =>
      let (definitions, schema) := fragment extension model_class in
      schemas <- update_schemas schemas definitions ;;
      path_object <-
        setitem_in path_object (skey "responses") status_code
          (response_object schema model_class) ;;
      add_responses extension rest schemas path_object
  end.

(** Lines 272-291. *)
Definition add_request (extension : FlaskSchema) (func : view_function)
    (schemas path_object : pydict) : res (pydict * pydict) :=
  match flask_schema_request func with
  | Some (model, source) =>
      let (definitions, schema) := fragment extension model in
      schemas <- update_schemas schemas definitions ;;
      let encoding :=
        match source with
        | JSON => skey "application/json"
        | FORM => skey "application/x-www-form-urlencoded"
        end in
      Ok (schemas,
          dict_set path_object (skey "requestBody")
            (PDict (mk_dict
              [(skey "content",
                PDict (mk_dict
                  [(encoding,
                    PDict (mk_dict [(skey "schema", PDict schema)]))]))])))
  | None => Ok (schemas, path_object)
  end.

Definition query_parameter (name : pykey) (type_ : pyval) : pyval :=
  PDict (mk_dict [(skey "name", key_value name);
                  (skey "in", PStr (str "query"));
                  (skey "schema", type_)]).

Definition path_parameter (name : pykey) : pyval :=
  PDict (mk_dict [(skey "name", key_value name);
                  (skey "in", PStr (str "path"))]).

(** [for ...: path_object["parameters"].append(...)] *)
Fixpoint append_parameters (params : list pyval) (path_object : pydict)
  : res pydict :=
  match params with
  | [] => Ok path_object
  | p :: rest =>
      path_object <- append_in path_object (skey "parameters") p ;;
      append_parameters rest path_object
  end.

(** Lines 293-308. *)
Definition add_querystring (extension : FlaskSchema) (func : view_function)
    (schemas path_object : pydict) : res (pydict * pydict) :=
  match flask_schema_querystring func with
  | Some querystring_model =>
      let (definitions, schema) := fragment extension querystring_model in
      schemas <- update_schemas schemas definitions ;;
      properties <-
        match dict_get schema (skey "properties") with
        | Some (PDict properties) => Ok properties
        | Some _ => Raise AttributeError
        | None => Raise KeyError
        end ;;
      path_object <-
        append_parameters
          (map (fun kv => query_parameter (fst kv) (snd kv)) properties)
          path_object ;;
      Ok (schemas, path_object)
  | None => Ok (schemas, path_object)
  end.

(** Lines 310-316. *)
Definition add_path_parameters (r : Rule) (path_object : pydict)
  : res pydict :=
  append_parameters (map path_parameter (keys (_converters r))) path_object.

(** Lines 247-316: the Path Item of a visible route, built against the
    table of component schemas.  The object is created at line 247 and
    filled in place; no other reference to it exists before line 325, so
    its construction is written on its value and the cell is stored when
    the value is complete. *)
Definition build_path_object (extension : FlaskSchema)
    (func : view_function) (r : Rule) (schemas : pydict)
  : res (pydict * pydict) :=
  let path_object :=
    mk_dict [(skey "parameters", PList []); (skey "responses", PDict [])] in
  path_object <- add_doc func path_object ;;
  let response_models :=
    match flask_schema_response func with
    | Some d => d
    | None => []
    end in
  '(schemas, path_object) <-
     add_responses extension response_models schemas path_object ;;
  '(schemas, path_object) <-
     add_request extension func schemas path_object ;;
  '(schemas, path_object) <-
     add_querystring extension func schemas path_object ;;
  path_object <- add_path_parameters r path_object ;;
  Ok (schemas, path_object).

(** Line 318. *)
Definition openapi_path (r : Rule) : pystr :=
  re_sub PATH_RE path_template (rule r).

(** Lines 322-323: the verbs passed over. *)
Definition skipped (r : Rule) (method : pystr) : bool :=
  pystr_eqb method (str "HEAD")
  || (pystr_eqb method (str "OPTIONS") && provide_automatic_options r).

(** [paths[path][verb] = path_object] *)
Definition set_verb (paths : dict (dict loc)) (path : pykey)
    (verb : pykey) (path_object : loc) : res (dict (dict loc)) :=
  match dict_get paths path with
  | Some verbs => Ok (dict_set paths path (dict_set verbs verb path_object))
  | None => Raise KeyError
  end.

(** Lines 321-325. *)
Fixpoint attach (r : Rule) (ms : list pystr) (paths : dict (dict loc))
    (path : pykey) (path_object : loc) : res (dict (dict loc)) :=
  match ms with
  | [] => Ok paths
  | method :: rest =>
      if skipped r method then attach r rest paths path path_object
      else
        paths <- set_verb paths path (KStr (lower method)) path_object ;;
        attach r rest paths path path_object
  end.

(** The body of the loop over [app.url_map.iter_rules()]. *)
Definition process_rule (app : Flask) (extension : FlaskSchema)
    (r : Rule) (st : build_state) : res build_state :=
  func <-
    match dict_get (view_functions app) (KStr (endpoint r)) with
    | Some func => Ok func
    | None => Raise KeyError
    end ;;
  if hidden func then Ok st
  else
    '(schemas, path_object) <-
       build_path_object extension func r (st_schemas st) ;;
    let (l, h) := alloc (st_heap st) path_object in
    let path := KStr (openapi_path r) in
    let paths := dict_setdefault (st_paths st) path [] in
    paths <- attach r (methods r) paths path l ;;
    Ok {| st_paths := paths; st_schemas := schemas; st_heap := h |}.

Fixpoint process_rules (app : Flask) (extension : FlaskSchema)
    (rules : list Rule) (st : build_state) : res build_state :=
  match rules with
  | [] => Ok st
  | r :: rest =>
      st <- process_rule app extension r st ;;
      process_rules app extension rest st
  end.

(** ** Derived forms

    The effect of lines 319-325 on [paths], for entries of any type: the
    verbs a route emits, all bound to the same [x]. *)
Fixpoint attach_verbs {V : Type} (r : Rule) (ms : list pystr)
    (verbs : dict V) (x : V) : dict V :=
  match ms with
  | [] => verbs
  | method :: rest =>
      if skipped r method then attach_verbs r rest verbs x
      else attach_verbs r rest (dict_set verbs (KStr (lower method)) x) x
  end.

Definition attach_step {V : Type} (r : Rule) (x : V)
    (paths : dict (dict V)) : dict (dict V) :=
  let path := KStr (openapi_path r) in
  let paths := dict_setdefault paths path [] in
  match dict_get paths path with
  | Some verbs => dict_set paths path (attach_verbs r (methods r) verbs x)
  | None => paths
  end.

(** The verb keys emitted for a list of methods, and by a route. *)
Definition emitted_of (r : Rule) (ms : list pystr) : list pykey :=
  map (fun m => KStr (lower m)) (filter (fun m => negb (skipped r m)) ms).

Definition emitted_verbs (r : Rule) : list pykey :=
  emitted_of r (methods r).

(** The rule is passed over at line 245. *)
Definition hidden_rule (app : Flask) (r : Rule) : bool :=
  match dict_get (view_functions app) (KStr (endpoint r)) with
  | Some func => hidden func
  | None => false
  end.

(** The rule is visible: it has a view function and that is not hidden. *)
Definition visible (app : Flask) (r : Rule) : bool :=
  match dict_get (view_functions app) (KStr (endpoint r)) with
  | Some func => negb (hidden func)
  | None => false
  end.

(** The component table after the merge of a list of [definitions], and
    the [responses] mapping after the loop of lines 257-270. *)
Fixpoint merge_all (schemas : pydict) (defs : list pyval) : res pydict :=
  match defs with
  | [] => Ok schemas
  | d :: rest =>
      schemas <- update_schemas schemas d ;;
      merge_all schemas rest
  end.

Definition responses_of (extension : FlaskSchema)
    (items : list (pykey * Model)) (responses : pydict) : pydict :=
  fold_left
    (fun acc it =>
       dict_set acc (fst it)
         (response_object (snd (fragment extension (snd it))) (snd it)))
    items responses.

(** The query parameters of a view function, when its query-string
    fragment has a mapping under "properties". *)
Definition query_parameters (extension : FlaskSchema)
    (func : view_function) : list pyval :=
  match flask_schema_querystring func with
  | Some m =>
      match dict_get (snd (fragment extension m)) (skey "properties") with
      | Some (PDict properties) =>
          map (fun kv => query_parameter (fst kv) (snd kv)) properties
      | _ => []
      end
  | None => []
  end.

Definition path_parameters (r : Rule) : list pyval :=
  map path_parameter (keys (_converters r)).

(** What the assembler relies on without checking: the generator returns
    a mapping under "definitions" (or no such key), the fragment of a
    query-string model has a mapping under "properties", a documentation
    string has a first line, and every endpoint has its view function. *)
Definition model_ok (extension : FlaskSchema) (m : Model) : Prop :=
  exists d, fst (fragment extension m) = PDict d.

Definition func_ok (extension : FlaskSchema) (func : view_function) : Prop :=
  doc func <> Some []
  /\ (forall items, flask_schema_response func = Some items ->
        Forall (fun it => model_ok extension (snd it)) items)
  /\ (forall m source, flask_schema_request func = Some (m, source) ->
        model_ok extension m)
  /\ (forall m, flask_schema_querystring func = Some m ->
        model_ok extension m
        /\ exists properties,
             dict_get (snd (fragment extension m)) (skey "properties") =
             Some (PDict properties)).

Definition app_ok (app : Flask) (extension : FlaskSchema) : Prop :=
  forall r, In r (url_map app) ->
    exists func,
      dict_get (view_functions app) (KStr (endpoint r)) = Some func
      /\ (hidden func = false -> func_ok extension func).

(** The models a view function is annotated with, in the order in which
    the assembler generates their fragments: response models, request
    model, query-string model. *)
Definition models_of (func : view_function) : list Model :=
  map snd match flask_schema_response func with
          | Some d => d
          | None => []
          end
  ++ match flask_schema_request func with
     | Some (m, _) => [m]
     | None => []
     end
  ++ match flask_schema_querystring func with
     | Some m => [m]
     | None => []
     end.

(** Callable objects, as [app.view_functions] holds them: a function
    object, or a method object bound to a function object ([__func__]).
    The store holds the function objects with the attributes the
    assembler reads; a method object has no attributes of its own, it
    forwards attribute reads to its function and refuses [setattr]. *)
Inductive callable :=
| FunctionObject (f : loc)
| MethodObject (f : loc).

Definition function_of (c : callable) : loc :=
  match c with
  | FunctionObject f | MethodObject f => f
  end.

Definition fstore := list view_function.

Fixpoint fstore_put (fs : fstore) (f : loc) (attrs : view_function)
  : fstore :=
  match fs, f with
  | [], _ => []
  | _ :: fs', O => attrs :: fs'
  | x :: fs', S f' => x :: fstore_put fs' f' attrs
  end.

(** [hide_route(func)], lines 71-78, on objects: [setattr] writes the
    attribute of the function object in place, so that every holder of
    the object sees it, and raises [AttributeError] for a method object;
    the argument itself is returned. *)
Definition hide_route_object (fs : fstore) (func : callable)
  : res (callable * fstore) :=
  match func with
  | FunctionObject f =>
      match nth_error fs f with
      | Some attrs => Ok (func, fstore_put fs f (hide_route attrs))
      | None => Raise BadRef
      end
  | MethodObject _ => Raise AttributeError
  end.

(** [app.view_functions] as the assembler reads it through [getattr] and
    [__doc__]: behind every callable, the attributes of its function
    object. *)
Definition views_of (fs : fstore) (views : dict callable)
  : dict view_function :=
  flat_map (fun kc => match nth_error fs (function_of (snd kc)) with
                      | Some attrs => [(fst kc, attrs)]
                      | None => []
                      end) views.

Definition app_of (fs : fstore) (rules : list Rule) (views : dict callable)
  : Flask :=
  {| url_map := rules; view_functions := views_of fs views |}.

(** The endpoint is registered with the function object [f] or with a
    method bound to it. *)
Definition registered_with (views : dict callable) (f : loc) (e : pystr)
  : bool :=
  match dict_get views (KStr e) with
  | Some c => Nat.eqb (function_of c) f
  | None => false
  end.

Definition without_function (rules : list Rule) (views : dict callable)
    (f : loc) : list Rule :=
  filter (fun r => negb (registered_with views f (endpoint r))) rules.

(** The definitions the assembler merges for a list of rules, in the
    order in which it merges them. *)
Definition definitions_of (app : Flask) (extension : FlaskSchema)
    (rules : list Rule) : list pyval :=
  flat_map
    (fun r =>
       match dict_get (view_functions app) (KStr (endpoint r)) with
       | Some func =>
           if hidden func then []
           else map (fun m => fst (fragment extension m)) (models_of func)
       | None => []
       end)
    rules.

(** The application without the rules passed over at line 245. *)
Definition without_hidden (app : Flask) : Flask :=
  {| url_map := filter (fun r => negb (hidden_rule app r)) (url_map app);
     view_functions := view_functions app |}.

(** The rule writes [paths[path][verb]]. *)
Definition emits (app : Flask) (r : Rule) (path verb : pykey) : Prop :=
  visible app r = true
  /\ path = KStr (openapi_path r)
  /\ In verb (emitted_verbs r).

(** One call of the assembler in store [h]: the document and the store
    it leaves. *)
Definition _build_openapi_schema (app : Flask) (extension : FlaskSchema)
    (h : heap) : res (openapi_doc * heap) :=
  let st := {| st_paths := []; st_schemas := []; st_heap := h |} in
  st <- process_rules app extension (url_map app) st ;;
  Ok ({| openapi := str "3.0.3";
         info_title := title extension;
         info_version := version extension;
         components := st_schemas st;
         paths := st_paths st;
         doc_tags := tags extension;
         doc_servers := servers extension |},
      st_heap st).
End Assembler.

Arguments fragment : simpl never.
Arguments generated : simpl never.
Arguments response_object : simpl never.
Arguments query_parameter : simpl never.
Arguments path_parameter : simpl never.

(** ** Reading the document *)

(** The Path Item a verb entry refers to. *)
Definition path_item (h : heap) (l : loc) : pyval :=
  match heap_get h l with
  | Some path_object => PDict path_object
  | None => PNone
  end.

(** [paths] as a reader of the document sees it. *)
Definition paths_value (h : heap) (ps : dict (dict loc)) : pydict :=
  map (fun pv =>
         (fst pv,
          PDict (map (fun vl => (fst vl, path_item h (snd vl))) (snd pv))))
      ps.

(** The returned dict, with every Path Item read from the store. *)
Definition document_value (h : heap) (d : openapi_doc) : pyval :=
  PDict (mk_dict
    [(skey "openapi", PStr (openapi d));
     (skey "info",
      PDict (mk_dict [(skey "title", opt_str (info_title d));
                      (skey "version", PStr (info_version d))]));
     (skey "components",
      PDict (mk_dict [(skey "schemas", PDict (components d))]));
     (skey "paths", PDict (paths_value h (paths d)));
     (skey "tags", PList (doc_tags d));
     (skey "servers",
      match doc_servers d with
      | Some l => PList l
      | None => PNone
      end)]).

(** [paths[path][verb]], as a reference. *)
Definition verb_ref (d : openapi_doc) (path verb : pystr) : option loc :=
  match dict_get (paths d) (KStr path) with
  | Some verbs => dict_get verbs (KStr verb)
  | None => None
  end.

(** The verb keys under [paths[path]]. *)
Definition verbs_at (d : openapi_doc) (path : pystr) : list pykey :=
  match dict_get (paths d) (KStr path) with
  | Some verbs => keys verbs
  | None => []
  end.

(** A mutation of the Path Item reached through [paths[path][verb]]. *)
Definition mutate_through (d : openapi_doc) (path verb : pystr)
    (f : pydict -> pydict) (h : heap) : heap :=
  match verb_ref d path verb with
  | Some l =>
      match heap_get h l with
      | Some o => heap_put h l (f o)
      | None => h
      end
  | None => h
  end.

(** The Path Item observed through [paths[path][verb]]. *)
Definition observe_through (d : openapi_doc) (path verb : pystr) (h : heap)
  : option pydict :=
  match verb_ref d path verb with
  | Some l => heap_get h l
  | None => None
  end.

(** [paths] with every reference read from the store. *)
Definition dmap {A B : Type} (f : A -> B) (d : dict A) : dict B :=
  map (fun kv => (fst kv, f (snd kv))) d.

Definition resolved (h : heap) (ps : dict (dict loc)) : dict (dict pyval) :=
  dmap (dmap (path_item h)) ps.

(** [paths[path][verb]] on entries of any type. *)
Definition lookup2 {V} (ps : dict (dict V)) (p k : pykey) : option V :=
  match dict_get ps p with
  | Some verbs => dict_get verbs k
  | None => None
  end.

(** Every reference under [paths] is a cell of the store. *)
Definition refs_below (n : nat) (ps : dict (dict loc)) : Prop :=
  Forall (fun pv => Forall (fun vl => snd vl < n) (snd pv)) ps.

(** Two states of the assembler that a reader of the document cannot tell
    apart: the same component table and, read through their stores, the
    same [paths]; every reference is a cell of its store. *)
Definition same_view (st1 st2 : build_state) : Prop :=
  st_schemas st1 = st_schemas st2
  /\ resolved (st_heap st1) (st_paths st1) =
     resolved (st_heap st2) (st_paths st2)
  /\ refs_below (length (st_heap st1)) (st_paths st1)
  /\ refs_below (length (st_heap st2)) (st_paths st2).

(** Two outcomes agree: the same exception, or results related by [R]. *)
Definition res_rel {A : Type} (R : A -> A -> Prop) (m1 m2 : res A) : Prop :=
  match m1, m2 with
  | Ok a1, Ok a2 => R a1 a2
  | Raise e1, Raise e2 => e1 = e2
  | _, _ => False
  end.

(** The document as its reader sees it. *)
Definition view (dh : openapi_doc * heap) : pyval :=
  document_value (snd dh) (fst dh).

(** The state a run of the assembler starts from. *)
Definition initial_state (h : heap) : build_state :=
  {| st_paths := []; st_schemas := []; st_heap := h |}.

(** [d[k1][k2]...] through nested mappings. *)
Fixpoint lookup_path (v : pyval) (ks : list pykey) : option pyval :=
  match ks with
  | [] => Some v
  | k :: ks' =>
      match v with
      | PDict d =>
          match dict_get d k with
          | Some v' => lookup_path v' ks'
          | None => None
          end
      | _ => None
      end
  end.

(** [path_object["responses"][status]["content"]["application/json"]["schema"]] *)
Definition response_schema (path_object : pydict) (status : pykey)
  : option pyval :=
  lookup_path (PDict path_object)
    [skey "responses"; status; skey "content"; skey "application/json";
     skey "schema"].

(** Some mapping inside [v] is a reference [{"$ref": s}]. *)
Fixpoint has_ref (s : pystr) (v : pyval) : bool :=
  match v with
  | PList l | PTuple l => existsb (has_ref s) l
  | PDict d =>
      existsb (fun kv =>
                 (pykey_eqb (fst kv) (skey "$ref")
                  && match snd kv with
                     | PStr t => pystr_eqb s t
                     | _ => false
                     end)
                 || has_ref s (snd kv)) d
  | _ => false
  end.

(** The references inside [v], in the order of a walk through it. *)
Fixpoint refs_in (v : pyval) : list pystr :=
  match v with
  | PList l | PTuple l => flat_map refs_in l
  | PDict d =>
      flat_map (fun kv =>
                  (if pykey_eqb (fst kv) (skey "$ref")
                   then match snd kv with
                        | PStr t => [t]
                        | _ => []
                        end
                   else [])
                  ++ refs_in (snd kv)) d
  | _ => []
  end.

(** Every reference inside [v] is the fixed prefix followed by one of the
    names [names]. *)
Definition refs_within (names : list pykey) (v : pyval) : Prop :=
  forall s, has_ref s v = true ->
            exists name, s = REF_PREFIX ++ name /\ In (KStr name) names.

(** The schema the generator returns for a model under the fixed prefix
    refers to its own definitions only. *)
Definition model_closed (m : Model) : Prop :=
  refs_within
    match dict_get (model_schema m REF_PREFIX) (skey "definitions") with
    | Some (PDict d) => keys d
    | _ => []
    end
    (PDict (model_schema m REF_PREFIX)).

(** Every reference inside [v] is a reference inside the fragment
    generated for one of the models [ms]. *)
Definition refs_from (camelize : pydict -> pydict)
    (extension : FlaskSchema) (ms : list Model) (v : pyval) : Prop :=
  forall s, has_ref s v = true ->
            exists m, In m ms
                      /\ has_ref s (PDict (generated camelize extension m))
                         = true.

(** No dataclass instance inside [v], as far as [asdict] looks. *)
Fixpoint dataclass_free (v : pyval) : bool :=
  match v with
  | PDataclass _ _ => false
  | PList l | PTuple l => forallb dataclass_free l
  | PDict d => forallb (fun kv => dataclass_free (snd kv)) d
  | _ => true
  end.

(** The coercion as the specification words it: a structured record gives
    the mapping of its declared fields, one level deep, the field values as
    they are; a validation model gives its canonical mapping; any other
    value is returned unchanged. *)
Definition spec_coerce (value : pyval) : pyval :=
  match value with
  | PDataclass _ fields =>
      PDict (map (fun kv => (KStr (fst kv), snd kv)) fields)
  | PModel _ d => PDict d
  | _ => value
  end.

(* ================================================================== *)
(** * URL patterns as the routing layer reads them *)

(** The loop of a repetition [r1*] in [rmatch], by its name. *)
Definition star_loop (r1 : regex)
    (k : pystr -> option pystr -> option mstate)
  : nat -> pystr -> option pystr -> option mstate :=
  fix star (fuel : nat) (s : pystr) (g : option pystr) : option mstate :=
    match fuel with
    | O => k s g
    | S fuel' =>
        match rmatch r1 s g
                (fun s' g' =>
                   if length s' <? length s then star fuel' s' g' else None)
        with
        | Some m => Some m
        | None => k s g
        end
    end.

(** A URL pattern is static text and variable parts [<name>] or
    [<converter:name>]. *)
Inductive segment :=
| Static (text : pystr)
| Placeholder (converter : option pystr) (name : pystr).

Definition pattern_text (sg : segment) : pystr :=
  match sg with
  | Static text => text
  | Placeholder None name => str "<" ++ name ++ str ">"
  | Placeholder (Some converter) name =>
      str "<" ++ converter ++ str ":" ++ name ++ str ">"
  end.

(** The pattern the segments spell, and the OpenAPI path template they
    stand for. *)
Definition pattern_of (segs : list segment) : pystr :=
  concat (map pattern_text segs).

Definition template_text (sg : segment) : pystr :=
  match sg with
  | Static text => text
  | Placeholder _ name => str "{" ++ name ++ str "}"
  end.

Definition template_of (segs : list segment) : pystr :=
  concat (map template_text segs).

Definition lacks (c : N) (s : pystr) : bool :=
  forallb (fun x => negb (N.eqb x c)) s.

(** The segments are those of a pattern: no [<] in static text, a name
    that is not empty and holds neither [>] nor [:], no [:] in a converter. *)
Definition segment_ok (sg : segment) : bool :=
  match sg with
  | Static text => lacks (chr "<") text
  | Placeholder converter name =>
      match name with [] => false | _ :: _ => true end
      && lacks (chr ">") name && lacks (chr ":") name
      && match converter with
         | Some c => lacks (chr ":") c
         | None => true
         end
  end.

(** No colon comes after a variable part written without converter. *)
Fixpoint colon_safe (segs : list segment) : bool :=
  match segs with
  | [] => true
  | Placeholder None _ :: rest =>
      lacks (chr ":") (pattern_of rest) && colon_safe rest
  | _ :: rest => colon_safe rest
  end.

(* ================================================================== *)
(** * The casing transformer *)

Definition lower_char (c : N) : N :=
  if (65 <=? c)%N && (c <=? 90)%N then (c + 32)%N else c.

Definition upper_char (c : N) : N :=
  if (97 <=? c)%N && (c <=? 122)%N then (c - 32)%N else c.

Fixpoint camel_rest (up : bool) (s : pystr) : pystr :=
  match s with
  | [] => []
  | c :: s' =>
      if (c =? chr "_")%N then camel_rest true s'
      else (if up then upper_char c else c) :: camel_rest false s'
  end.

(** Modelled from the spec: the naming convention of the Casing
    Transformer, which "converts mapping keys between snake_case and
    camelCase"; the code imports the transformer from a library that is
    not among the sources at hand.  A key in camelCase starts with a
    lower-case letter and has, in place of every run of underscores, the
    next character in upper case. *)
Definition camel (s : pystr) : pystr :=
  match s with
  | [] => []
  | c :: s' => lower_char c :: camel_rest false s'
  end.

Definition camel_key (k : pykey) : pykey :=
  match k with
  | KStr s => KStr (camel s)
  | KInt z => KInt z
  end.

(** Modelled from the spec: the Casing Transformer [toCamel], missing
    from the sources at hand ([camelize] is imported).  It "recursively
    rewrites every mapping key using the naming convention; non-mapping,
    non-sequence values pass through unchanged; sequences are mapped
    element-wise; mapping values are recursed into".  The value of a
    "$ref" entry is a string and passes through unchanged. *)
Fixpoint toCamel (v : pyval) : pyval :=
  match v with
  | PList l => PList (map toCamel l)
  | PTuple l => PTuple (map toCamel l)
  | PDict d =>
      PDict (mk_dict (map (fun kv => (camel_key (fst kv), toCamel (snd kv)))
                        d))
  | _ => v
  end.

(** [camelize(schema)] for a schema, which is a mapping. *)
Definition toCamel_schema (schema : pydict) : pydict :=
  mk_dict (map (fun kv => (camel_key (fst kv), toCamel (snd kv))) schema).

(* ================================================================== *)
(** * A sample application *)

Module Sample.

(** [str.lower] on ASCII letters, with which method names are written. *)
Definition ascii_lower (s : pystr) : pystr :=
  map (fun c => if (65 <=? c)%N && (c <=? 90)%N then (c + 32)%N else c) s.

(** Casing is off in the sample extension: [camelize] is never called. *)
Definition unused_camelize (d : pydict) : pydict := d.

Definition ext0 : FlaskSchema :=
  {| title := Some (str "api");
     version := str "0.1.0";
     tags := [];
     convert_casing := false;
     servers := Some [] |}.

(** The sample extension with [convert_casing=True]. *)
Definition ext_casing : FlaskSchema :=
  {| title := Some (str "api");
     version := str "0.1.0";
     tags := [];
     convert_casing := true;
     servers := Some [] |}.

Definition string_type : pyval :=
  PDict (mk_dict [(skey "type", PStr (str "string"))]).

Definition integer_type : pyval :=
  PDict (mk_dict [(skey "type", PStr (str "integer"))]).

Definition ref_to (prefix : pystr) (name : string) : pyval :=
  PDict (mk_dict [(skey "$ref", PStr (prefix ++ str name))]).

(** The sub-schema "Error" as the first and as the second model define
    it. *)
Definition error_a : pyval :=
  PDict (mk_dict
    [(skey "title", PStr (str "Error"));
     (skey "type", PStr (str "object"));
     (skey "properties", PDict (mk_dict [(skey "detail", string_type)]))]).

Definition error_b : pyval :=
  PDict (mk_dict
    [(skey "title", PStr (str "Error"));
     (skey "description", PStr (str "A failure."));
     (skey "type", PStr (str "object"));
     (skey "properties", PDict (mk_dict [(skey "detail", string_type)]))]).

Definition ModelA : Model :=
  {| model_doc := Some (str "The item.");
     model_schema := fun prefix =>
       mk_dict
         [(skey "title", PStr (str "ModelA"));
          (skey "type", PStr (str "object"));
          (skey "properties",
           PDict (mk_dict [(skey "name", string_type);
                           (skey "warning", ref_to prefix "Error")]));
          (skey "definitions", PDict (mk_dict [(skey "Error", error_a)]))]
  |}.

Definition ModelB : Model :=
  {| model_doc := None;
     model_schema := fun prefix =>
       mk_dict
         [(skey "title", PStr (str "ModelB"));
          (skey "type", PStr (str "object"));
          (skey "properties",
           PDict (mk_dict [(skey "error", ref_to prefix "Error")]));
          (skey "definitions", PDict (mk_dict [(skey "Error", error_b)]))]
  |}.

Definition Paging : Model :=
  {| model_doc := None;
     model_schema := fun _ =>
       mk_dict
         [(skey "title", PStr (str "Paging"));
          (skey "type", PStr (str "object"));
          (skey "properties",
           PDict (mk_dict [(skey "limit", integer_type);
                           (skey "offset", integer_type)]))]
  |}.

Definition plain (d : option pystr) : view_function :=
  {| flask_schema_hidden := None;
     doc := d;
     flask_schema_response := None;
     flask_schema_request := None;
     flask_schema_querystring := None |}.

(** [GET, POST /items/<int:item_id>] with two response models and a
    query-string model. *)
Definition get_item : view_function :=
  {| flask_schema_hidden := None;
     doc := Some (str "Fetch an item." ++ newline ++ newline
                  ++ str "By its number.");
     flask_schema_response :=
       Some [(KInt 200, ModelA); (KInt 404, ModelB)];
     flask_schema_request := None;
     flask_schema_querystring := Some Paging |}.

(** The same two response models and nothing else. *)
Definition lookup_item : view_function :=
  {| flask_schema_hidden := None;
     doc := None;
     flask_schema_response :=
       Some [(KInt 200, ModelA); (KInt 404, ModelB)];
     flask_schema_request := None;
     flask_schema_querystring := None |}.

Definition r_static : Rule :=
  {| rule := str "/static/<path:filename>";
     endpoint := str "static";
     methods := [str "GET"; str "HEAD"; str "OPTIONS"];
     provide_automatic_options := true;
     _converters := [(skey "filename", str "path")] |}.

Definition r_ping : Rule :=
  {| rule := str "/ping";
     endpoint := str "ping";
     methods := [str "OPTIONS"; str "GET"; str "HEAD"];
     provide_automatic_options := true;
     _converters := [] |}.

Definition r_items : Rule :=
  {| rule := str "/items/<int:item_id>";
     endpoint := str "get_item";
     methods := [str "GET"; str "HEAD"; str "POST"; str "OPTIONS"];
     provide_automatic_options := true;
     _converters := [(skey "item_id", str "int")] |}.

Definition r_lookup : Rule :=
  {| rule := str "/lookup";
     endpoint := str "lookup_item";
     methods := [str "GET"; str "HEAD"; str "OPTIONS"];
     provide_automatic_options := true;
     _converters := [] |}.

(** [/users/<name>/items/<int:item_id>]: a placeholder without a
    converter, followed by one with a converter. *)
Definition r_user_items : Rule :=
  {| rule := str "/users/<name>/items/<int:item_id>";
     endpoint := str "user_item";
     methods := [str "GET"; str "HEAD"; str "OPTIONS"];
     provide_automatic_options := true;
     _converters := [(skey "name", str "default");
                     (skey "item_id", str "int")] |}.

Definition functions : dict view_function :=
  [(skey "static", hide_route (plain None));
   (skey "ping", plain None);
   (skey "get_item", get_item);
   (skey "lookup_item", lookup_item);
   (skey "user_item", plain (Some (str "An item of a user.")));
   (skey "undocumented", plain (Some (str "")))].

Definition items_app : Flask :=
  {| url_map := [r_static; r_ping; r_items];
     view_functions := functions |}.

Definition lookup_app : Flask :=
  {| url_map := [r_static; r_ping; r_lookup];
     view_functions := functions |}.

Definition users_app : Flask :=
  {| url_map := [r_static; r_user_items];
     view_functions := functions |}.

(** A view function whose documentation string is the empty string. *)
Definition r_empty_doc : Rule :=
  {| rule := str "/empty";
     endpoint := str "undocumented";
     methods := [str "GET"; str "HEAD"; str "OPTIONS"];
     provide_automatic_options := true;
     _converters := [] |}.

Definition empty_doc_app : Flask :=
  {| url_map := [r_static; r_ping; r_empty_doc];
     view_functions := functions |}.

(** Two endpoints registered with one function object, and the static
    endpoint registered with a method bound to a function object. *)
Definition shared_store : fstore :=
  [plain (Some (str "Serve a file.")); get_item].

Definition shared_views : dict callable :=
  [(skey "static", MethodObject 0);
   (skey "get_item", FunctionObject 1);
   (skey "lookup_item", FunctionObject 1)].

(** A dataclass instance with a dataclass instance in a field. *)
Definition customer : pyval :=
  PDataclass (str "Customer") [(str "name", PStr (str "ann"))].

Definition order : pyval :=
  PDataclass (str "Order") [(str "id", PInt 7); (str "customer", customer)].

(** A fragment in a store, at location 0. *)
Definition fragment_cell : pydict := model_schema ModelA REF_PREFIX.

End Sample.

(* ================================================================== *)
(** * Facts about keys and dictionaries *)

Lemma pystr_eqb_spec (a b : pystr) : reflect (a = b) (pystr_eqb a b).
Proof.
  revert b; induction a as [|x a IH]; intros [|y b]; simpl;
    try (constructor; congruence).
  destruct (N.eqb_spec x y) as [->|Hxy]; simpl.
  - destruct (IH b) as [->|Hab]; constructor; congruence.
  - constructor; congruence.
Qed.

Lemma pykey_eqb_spec (a b : pykey) : reflect (a = b) (pykey_eqb a b).
Proof.
  destruct a as [s|x], b as [t|y]; simpl; try (constructor; congruence).
  - destruct (pystr_eqb_spec s t); constructor; congruence.
  - destruct (Z.eqb_spec x y); constructor; congruence.
Qed.

Lemma pykey_eqb_refl (k : pykey) : pykey_eqb k k = true.
Proof. destruct (pykey_eqb_spec k k); congruence. Qed.

Lemma pykey_eqb_neq (a b : pykey) : a <> b -> pykey_eqb a b = false.
Proof. destruct (pykey_eqb_spec a b); congruence. Qed.

Lemma pystr_eqb_refl (s : pystr) : pystr_eqb s s = true.
Proof. destruct (pystr_eqb_spec s s); congruence. Qed.

Ltac key_cases k k' :=
  destruct (pykey_eqb_spec k k') as [?|?]; subst; simpl;
  rewrite ?pykey_eqb_refl; simpl.

Section DictFacts.
Context {V : Type}.
Implicit Types (d : dict V) (k : pykey) (v : V).

Lemma dict_get_set_same d k v : dict_get (dict_set d k v) k = Some v.
Proof.
  induction d as [|[k' v'] d IH]; simpl.
  - now rewrite pykey_eqb_refl.
  - destruct (pykey_eqb_spec k k') as [->|Hk]; simpl.
    + now rewrite pykey_eqb_refl.
    + rewrite (pykey_eqb_neq Hk); exact IH.
Qed.

Lemma dict_get_set_other d k k' v :
  k <> k' -> dict_get (dict_set d k v) k' = dict_get d k'.
Proof.
  intros Hk; induction d as [|[k0 v0] d IH]; simpl.
  - rewrite pykey_eqb_neq; congruence.
  - destruct (pykey_eqb_spec k k0) as [->|Hk0]; simpl.
    + now rewrite (@pykey_eqb_neq k' k0) by congruence.
    + now rewrite IH.
Qed.

Lemma dict_get_In d k v : dict_get d k = Some v -> In k (keys d).
Proof.
  induction d as [|[k' v'] d IH]; simpl; [discriminate|].
  destruct (pykey_eqb_spec k k') as [->|Hk]; auto.
Qed.

Lemma dict_get_None d k : dict_get d k = None <-> ~ In k (keys d).
Proof.
  induction d as [|[k' v'] d IH]; simpl.
  - tauto.
  - destruct (pykey_eqb_spec k k') as [->|Hk].
    + split; [discriminate | intros H; exfalso; auto].
    + rewrite IH; split; intros H; [intros [E|E]; auto | auto].
Qed.

Lemma dict_get_Some_iff d k : (exists v, dict_get d k = Some v) <-> In k (keys d).
Proof.
  split.
  - intros [v Hv]; eauto using dict_get_In.
  - intros Hin; destruct (dict_get d k) as [v|] eqn:E; eauto.
    apply dict_get_None in E; contradiction.
Qed.

Lemma keys_dict_set d k v k' :
  In k' (keys (dict_set d k v)) <-> k' = k \/ In k' (keys d).
Proof.
  induction d as [|[k0 v0] d IH]; simpl.
  - intuition congruence.
  - destruct (pykey_eqb_spec k k0) as [->|Hk]; simpl.
    + intuition congruence.
    + rewrite IH; intuition congruence.
Qed.

Lemma NoDup_keys_dict_set d k v :
  NoDup (keys d) -> NoDup (keys (dict_set d k v)).
Proof.
  induction d as [|[k0 v0] d IH]; simpl; intros Hnd.
  - constructor; [simpl; tauto | constructor].
  - inversion Hnd as [|? ? Hnotin Hnd']; subst.
    destruct (pykey_eqb_spec k k0) as [->|Hk]; simpl.
    + constructor; assumption.
    + constructor; [|auto].
      intros Hin; apply keys_dict_set in Hin as [E|Hin]; congruence.
Qed.

Lemma dict_get_remove_same d k : dict_get (dict_remove d k) k = None.
Proof.
  induction d as [|[k' v'] d IH]; simpl; [reflexivity|].
  destruct (pykey_eqb_spec k k') as [->|Hk]; simpl; [exact IH|].
  now rewrite (pykey_eqb_neq Hk).
Qed.

Lemma dict_get_remove_other d k k' :
  k' <> k -> dict_get (dict_remove d k) k' = dict_get d k'.
Proof.
  intros Hk; induction d as [|[k0 v0] d IH]; simpl; [reflexivity|].
  destruct (pykey_eqb_spec k k0) as [->|Hk0]; simpl.
  - rewrite IH, pykey_eqb_neq; congruence.
  - now rewrite IH.
Qed.

Lemma dict_remove_absent d k : dict_get d k = None -> dict_remove d k = d.
Proof.
  induction d as [|[k' v'] d IH]; simpl; [reflexivity|].
  destruct (pykey_eqb_spec k k') as [->|Hk]; simpl; [discriminate|].
  intros H; now rewrite IH.
Qed.

Lemma keys_dict_remove d k k' :
  In k' (keys (dict_remove d k)) <-> k' <> k /\ In k' (keys d).
Proof.
  unfold keys, dict_remove; rewrite in_map_iff; split.
  - intros [[k0 v0] [<- Hin]]; apply filter_In in Hin as [Hin Hneq]; simpl in *.
    split.
    + intros ->; now rewrite pykey_eqb_refl in Hneq.
    + apply in_map_iff; now exists (k0, v0).
  - intros [Hneq Hin]; apply in_map_iff in Hin as [[k0 v0] [<- Hin]].
    exists (k0, v0); split; [reflexivity|].
    apply filter_In; split; [assumption|]; simpl in *.
    rewrite pykey_eqb_neq; [reflexivity | congruence].
Qed.

Lemma keys_dict_update d other k :
  In k (keys (dict_update d other)) <-> In k (keys d) \/ In k (keys other).
Proof.
  unfold dict_update; revert d; induction other as [|[k0 v0] o IH];
    intros d; simpl.
  - tauto.
  - rewrite IH, keys_dict_set; intuition congruence.
Qed.

Lemma NoDup_keys_dict_update d other :
  NoDup (keys d) -> NoDup (keys (dict_update d other)).
Proof.
  unfold dict_update; revert d; induction other as [|[k0 v0] o IH];
    intros d Hnd; simpl; auto using NoDup_keys_dict_set.
Qed.

Lemma dict_get_update_absent d other k :
  ~ In k (keys other) -> dict_get (dict_update d other) k = dict_get d k.
Proof.
  unfold dict_update; revert d; induction other as [|[k0 v0] o IH];
    intros d Hnotin; simpl in *; [reflexivity|].
  rewrite IH by tauto.
  apply dict_get_set_other; intros ->; tauto.
Qed.

(** The later writer wins: after [d.update(other)] a key of [other] holds
    the value [other] gives it. *)
Lemma dict_get_update_present d other k v :
  NoDup (keys other) -> dict_get other k = Some v ->
  dict_get (dict_update d other) k = Some v.
Proof.
  unfold dict_update; revert d; induction other as [|[k0 v0] o IH];
    intros d Hnd Hget; simpl in *; [discriminate|].
  inversion Hnd as [|? ? Hnotin Hnd']; subst.
  destruct (pykey_eqb_spec k k0) as [->|Hk].
  - injection Hget as ->.
    change (fold_left _ o ?x) with (dict_update x o).
    rewrite dict_get_update_absent by assumption.
    apply dict_get_set_same.
  - now apply IH.
Qed.

Lemma count_keys_NoDup d k :
  NoDup (keys d) -> In k (keys d) ->
  length (filter (pykey_eqb k) (keys d)) = 1.
Proof.
  induction d as [|[k0 v0] d IH]; simpl; intros Hnd Hin; [tauto|].
  inversion Hnd as [|? ? Hnotin Hnd']; subst.
  destruct (pykey_eqb_spec k k0) as [->|Hk]; simpl.
  - f_equal. clear IH Hin Hnd Hnd'.
    induction d as [|[k1 v1] d IH]; simpl in *; [reflexivity|].
    rewrite pykey_eqb_neq by (intros E; apply Hnotin; left; congruence).
    apply IH; tauto.
  - destruct Hin as [E|Hin]; [congruence|]; auto.
Qed.
End DictFacts.

(* ================================================================== *)
(** * Facts about the store *)

Lemma heap_get_app_old (h h' : heap) (l : loc) :
  l < length h -> heap_get (h ++ h') l = heap_get h l.
Proof. intros Hl; unfold heap_get; now apply nth_error_app1. Qed.

Lemma heap_get_alloc_new (h : heap) (d : pydict) :
  heap_get (h ++ [d]) (length h) = Some d.
Proof.
  unfold heap_get; rewrite nth_error_app2 by lia.
  now rewrite Nat.sub_diag.
Qed.

Lemma heap_get_bound (h : heap) (l : loc) (d : pydict) :
  heap_get h l = Some d -> l < length h.
Proof. unfold heap_get; intros H; apply nth_error_Some; congruence. Qed.

Lemma heap_get_put_same (h : heap) (l : loc) (d : pydict) :
  l < length h -> heap_get (heap_put h l d) l = Some d.
Proof.
  revert l; induction h as [|x h IH]; intros [|l] Hl; simpl in *;
    try lia; [reflexivity|].
  apply IH; lia.
Qed.

Lemma heap_get_put_other (h : heap) (l l' : loc) (d : pydict) :
  l <> l' -> heap_get (heap_put h l d) l' = heap_get h l'.
Proof.
  revert l l'; induction h as [|x h IH]; intros [|l] [|l'] Hne; simpl;
    try reflexivity; try congruence.
  apply IH; congruence.
Qed.

Lemma heap_put_app_new (h : heap) (d d' : pydict) :
  heap_put (h ++ [d]) (length h) d' = h ++ [d'].
Proof. induction h as [|x h IH]; simpl; [reflexivity | now rewrite IH]. Qed.

(* ================================================================== *)
(** * [_split_definitions] *)

(** The call on objects returns what the function on values computes, in a
    new cell, and leaves every cell of the store it was given as it was. *)
Lemma _split_definitions_ref_spec (h : heap) (schema : loc) (d : pydict) :
  heap_get h schema = Some d ->
  _split_definitions_ref schema h =
    Ok ((fst (_split_definitions d), length h),
        h ++ [snd (_split_definitions d)]).
Proof.
  intros Hd.
  unfold _split_definitions_ref, mbind, dict_copy, dict_pop, ret, alloc.
  rewrite Hd, heap_get_alloc_new.
  unfold _split_definitions; simpl.
  destruct (dict_get d (skey "definitions")) as [v|] eqn:E; simpl.
  - now rewrite heap_put_app_new.
  - now rewrite (dict_remove_absent _ _ E).
Qed.

Lemma stripped_has_no_definitions (schema : pydict) :
  ~ In (skey "definitions") (keys (snd (_split_definitions schema))).
Proof.
  unfold _split_definitions; simpl.
  intros Hin; apply keys_dict_remove in Hin as [Hneq _]; congruence.
Qed.

(** C8 (definition splitting): for every schema fragment, splitting returns
    the value under the key "definitions", or an empty mapping when the key
    is absent, together with the fragment without that key; every other
    entry of the fragment is kept, in its place, and the returned fragment
    never holds the key "definitions". *)
Theorem split_definitions_contract (schema : pydict) :
  let definitions := fst (_split_definitions schema) in
  let stripped := snd (_split_definitions schema) in
  (forall v, dict_get schema (skey "definitions") = Some v -> definitions = v)
  /\ (dict_get schema (skey "definitions") = None -> definitions = PDict [])
  /\ ~ In (skey "definitions") (keys stripped)
  /\ dict_get stripped (skey "definitions") = None
  /\ (forall k, k <> skey "definitions" ->
        dict_get stripped k = dict_get schema k)
  /\ stripped =
       filter (fun kv => negb (pykey_eqb (skey "definitions") (fst kv))) schema.
Proof.
  unfold _split_definitions; simpl.
  repeat split.
  - now intros v ->.
  - now intros ->.
  - apply stripped_has_no_definitions.
  - apply dict_get_remove_same.
  - intros k Hk; now apply dict_get_remove_other.
Qed.

(** C10 (splitting does not mutate its argument): in any store, a call of
    [_split_definitions] on the mapping object [schema] succeeds and works on
    a copy: afterwards the cell of [schema] holds the same entries as
    before, its "definitions" key included, no other cell of the store has
    changed, and the returned fragment is a new object, distinct from
    [schema]. *)
Theorem split_definitions_keeps_argument (h : heap) (schema : loc) (d : pydict) :
  heap_get h schema = Some d ->
  exists definitions new_schema h',
    _split_definitions_ref schema h = Ok ((definitions, new_schema), h')
    /\ heap_get h' schema = Some d
    /\ (forall k, dict_get d k = match heap_get h' schema with
                                 | Some d' => dict_get d' k
                                 | None => None
                                 end)
    /\ (forall l, l < length h -> heap_get h' l = heap_get h l)
    /\ new_schema <> schema
    /\ heap_get h' new_schema = Some (snd (_split_definitions d))
    /\ definitions = fst (_split_definitions d).
Proof.
  intros Hd.
  pose proof (heap_get_bound _ _ Hd) as Hlt.
  eexists _, _, _; split; [apply (_split_definitions_ref_spec _ _ Hd)|].
  assert (Hsame : heap_get (h ++ [snd (_split_definitions d)]) schema = Some d)
    by (rewrite heap_get_app_old; assumption).
  repeat split.
  - exact Hsame.
  - intros k; now rewrite Hsame.
  - intros l Hl; now apply heap_get_app_old.
  - lia.
  - apply heap_get_alloc_new.
Qed.

(* ================================================================== *)
(** * The coercion of handler results *)

(** Where no dataclass instance is met, [asdict]'s recursion rebuilds the
    value it was given. *)
Lemma asdict_inner_dataclass_free (v : pyval) :
  dataclass_free v = true -> asdict_inner v = v.
Proof.
  induction v as [ | | | |l IH|l IH|d IH|c fs IH| | ] using pyval_nested_ind;
    simpl; intros Hfree; try reflexivity; try discriminate.
  - f_equal. induction IH as [|x l Hx _ IHl]; simpl in *; [reflexivity|].
    apply andb_prop in Hfree as [H1 H2]. now rewrite Hx, IHl.
  - f_equal. induction IH as [|x l Hx _ IHl]; simpl in *; [reflexivity|].
    apply andb_prop in Hfree as [H1 H2]. now rewrite Hx, IHl.
  - f_equal. induction IH as [|[k x] l Hx _ IHl]; simpl in *; [reflexivity|].
    apply andb_prop in Hfree as [H1 H2]. now rewrite Hx, IHl.
Qed.

Lemma asdict_fields_dataclass_free (fs : list (pystr * pyval)) :
  forallb (fun kv => dataclass_free (snd kv)) fs = true ->
  map (fun kv => (KStr (fst kv), asdict_inner (snd kv))) fs =
  map (fun kv => (KStr (fst kv), snd kv)) fs.
Proof.
  induction fs as [|[k x] fs IH]; simpl; intros H; [reflexivity|].
  apply andb_prop in H as [H1 H2].
  now rewrite asdict_inner_dataclass_free, IH.
Qed.

(** C6 (Model Coercer contract, with the conversion in depth that
    [asdict] performs): for every dataclass instance
    the coercion returns the mapping [dataclasses.asdict] builds: the
    declared fields, in order, each value converted in depth, so that
    dataclass instances inside a field value (directly, or within lists,
    tuples and mappings) become mappings themselves; it is the one-level
    mapping of the fields when no field value holds a dataclass instance.
    For every validation-model instance it returns the model's canonical
    dictionary, and every value that is neither of these nor a dataclass
    class is returned unchanged. *)
Theorem coerce_contract :
  (forall cls fields,
      dict_or_value (PDataclass cls fields) =
      Ok (PDict (map (fun kv => (KStr (fst kv), asdict_inner (snd kv)))
                   fields)))
  /\ (forall cls fields,
         forallb (fun kv => dataclass_free (snd kv)) fields = true ->
         dict_or_value (PDataclass cls fields) =
         Ok (spec_coerce (PDataclass cls fields)))
  /\ (forall cls d, dict_or_value (PModel cls d) = Ok (PDict d))
  /\ (forall v,
         is_dataclass v = false -> (forall cls d, v <> PModel cls d) ->
         dict_or_value v = Ok v).
Proof.
  repeat split.
  - intros cls fields H; unfold dict_or_value; simpl.
    now rewrite asdict_fields_dataclass_free.
  - intros v Hdc Hmodel; unfold dict_or_value; rewrite Hdc.
    destruct v; try reflexivity.
    exfalso; eapply Hmodel; reflexivity.
Qed.

(* ================================================================== *)
(** * The error monad *)

Lemma bind_Ok {A B} (m : res A) (f : A -> res B) (b : B) :
  bind m f = Ok b -> exists a, m = Ok a /\ f a = Ok b.
Proof. destruct m as [a|e]; simpl; [eauto | discriminate]. Qed.

Ltac inv_bind H :=
  let a := fresh "a" in
  let Ha := fresh "Ha" in
  apply bind_Ok in H as [a [Ha H]].

(* ================================================================== *)
(** * More on dictionaries: rewriting, mapping, invariants of values *)

Section DictMore.
Context {V : Type}.
Implicit Types (d : dict V) (k : pykey) (v : V).

Lemma dict_set_get_id d k v : dict_get d k = Some v -> dict_set d k v = d.
Proof.
  induction d as [|[k' v'] d IH]; simpl; [discriminate|].
  destruct (pykey_eqb_spec k k') as [->|Hk]; intros H.
  - now injection H as ->.
  - now rewrite IH.
Qed.

Lemma dict_set_set d k v v' :
  dict_set (dict_set d k v) k v' = dict_set d k v'.
Proof.
  induction d as [|[k0 v0] d IH]; simpl.
  - now rewrite pykey_eqb_refl.
  - destruct (pykey_eqb_spec k k0) as [->|Hk]; simpl.
    + now rewrite pykey_eqb_refl.
    + rewrite (pykey_eqb_neq Hk); now rewrite IH.
Qed.

Lemma dict_get_setdefault_same d k v :
  dict_get (dict_setdefault d k v) k =
  Some (match dict_get d k with Some x => x | None => v end).
Proof.
  unfold dict_setdefault; destruct (dict_get d k) eqn:E; [assumption|].
  apply dict_get_set_same.
Qed.

Lemma dict_get_setdefault_other d k k' v :
  k <> k' -> dict_get (dict_setdefault d k v) k' = dict_get d k'.
Proof.
  intros Hk; unfold dict_setdefault; destruct (dict_get d k); [reflexivity|].
  now apply dict_get_set_other.
Qed.

Lemma Forall_values_dict_set (Q : V -> Prop) d k v :
  Forall (fun kv => Q (snd kv)) d -> Q v ->
  Forall (fun kv => Q (snd kv)) (dict_set d k v).
Proof.
  intros Hd Hv; induction Hd as [|[k0 v0] d H0 Hd IH]; simpl.
  - repeat constructor; assumption.
  - destruct (pykey_eqb k k0); constructor; assumption.
Qed.

Lemma Forall_values_get (Q : V -> Prop) d k v :
  Forall (fun kv => Q (snd kv)) d -> dict_get d k = Some v -> Q v.
Proof.
  intros Hd; induction Hd as [|[k0 v0] d H0 Hd IH]; simpl; [discriminate|].
  destruct (pykey_eqb k k0); intros H; [now injection H as <- | auto].
Qed.

Lemma Forall_values_setdefault (Q : V -> Prop) d k v :
  Forall (fun kv => Q (snd kv)) d -> Q v ->
  Forall (fun kv => Q (snd kv)) (dict_setdefault d k v).
Proof.
  intros Hd Hv; unfold dict_setdefault; destruct (dict_get d k);
    auto using Forall_values_dict_set.
Qed.
End DictMore.

Section DictMap.
Context {A B : Type} (f : A -> B).

Lemma dmap_dict_get (d : dict A) k :
  dict_get (dmap f d) k = option_map f (dict_get d k).
Proof.
  induction d as [|[k' v'] d IH]; simpl; [reflexivity|].
  destruct (pykey_eqb k k'); [reflexivity | exact IH].
Qed.

Lemma dmap_dict_set (d : dict A) k v :
  dmap f (dict_set d k v) = dict_set (dmap f d) k (f v).
Proof.
  induction d as [|[k' v'] d IH]; simpl; [reflexivity|].
  destruct (pykey_eqb k k'); simpl; [reflexivity | now rewrite IH].
Qed.

Lemma dmap_dict_setdefault (d : dict A) k v :
  dmap f (dict_setdefault d k v) = dict_setdefault (dmap f d) k (f v).
Proof.
  unfold dict_setdefault; rewrite dmap_dict_get.
  destruct (dict_get d k); simpl; [reflexivity | apply dmap_dict_set].
Qed.

Lemma keys_dmap (d : dict A) : keys (dmap f d) = keys d.
Proof. unfold keys, dmap; rewrite map_map; now apply map_ext. Qed.

Lemma dmap_ext_values (g : A -> B) (d : dict A) :
  Forall (fun kv => f (snd kv) = g (snd kv)) d -> dmap f d = dmap g d.
Proof.
  induction 1 as [|[k v] d H _ IH]; simpl in *; [reflexivity|].
  now rewrite H, IH.
Qed.
End DictMap.

(* ================================================================== *)
(** * Documentation strings *)

Lemma splitlines_from_nil cur s :
  splitlines_from cur s = [] <-> cur = [] /\ s = [].
Proof.
  revert cur; induction s as [|c s IH]; intros cur; simpl.
  - destruct cur; split; try tauto; try discriminate.
    intros [? _]; discriminate.
  - destruct (is_linebreak c).
    + destruct s as [|c2 s'].
      * split; [discriminate | intros [_ ?]; discriminate].
      * destruct (N.eqb c 13 && N.eqb c2 10);
          (split; [discriminate | intros [_ ?]; discriminate]).
    + rewrite IH. split.
      * intros [H _]. destruct cur; discriminate.
      * intros [_ ?]; discriminate.
Qed.

(** The documentation strings without a first line: the empty string. *)
Lemma splitlines_nil s : splitlines s = [] <-> s = [].
Proof. unfold splitlines; rewrite splitlines_from_nil; tauto. Qed.

Lemma add_doc_raises func po :
  (exists e, add_doc func po = Raise e) <-> doc func = Some [].
Proof.
  unfold add_doc. destruct (doc func) as [d|].
  - destruct (splitlines d) as [|summary description] eqn:E.
    + apply splitlines_nil in E as ->. split; eauto.
    + split; [intros [e He]; discriminate|].
      intros H; injection H as ->. discriminate.
  - split; [intros [e He]; discriminate | discriminate].
Qed.

(** No line returned by [splitlines] holds a line boundary. *)
Lemma splitlines_from_lines (n : nat) :
  forall cur s,
    length s <= n ->
    Forall (fun c => is_linebreak c = false) cur ->
    Forall (Forall (fun c => is_linebreak c = false)) (splitlines_from cur s).
Proof.
  induction n as [|n IH]; intros cur s Hlen Hcur.
  - destruct s; [|simpl in Hlen; lia].
    simpl. destruct cur; repeat constructor.
    + now inversion Hcur.
    + now inversion Hcur.
  - destruct s as [|c s]; simpl.
    + destruct cur; repeat constructor.
      * now inversion Hcur.
      * now inversion Hcur.
    + simpl in Hlen. destruct (is_linebreak c) eqn:Hc.
      * destruct s as [|c2 s'].
        -- constructor; [assumption|]. apply IH; [simpl; lia | constructor].
        -- destruct (N.eqb c 13 && N.eqb c2 10).
           ++ constructor; [assumption|].
              apply IH; [simpl in *; lia | constructor].
           ++ constructor; [assumption|].
              apply IH; [simpl in *; lia | constructor].
      * apply IH; [lia|]. apply Forall_app; split; [assumption|].
        repeat constructor; assumption.
Qed.

Lemma splitlines_lines (s : pystr) :
  Forall (Forall (fun c => is_linebreak c = false)) (splitlines s).
Proof.
  unfold splitlines. apply (splitlines_from_lines (n := length s));
    [lia | constructor].
Qed.

(* ================================================================== *)
(** * Where a reference can sit *)

Lemma dict_get_entry {V} (d : dict V) k v :
  dict_get d k = Some v -> In (k, v) d.
Proof.
  induction d as [|[k' v'] d IH]; simpl; [discriminate|].
  destruct (pykey_eqb_spec k k') as [->|Hk]; [|auto].
  intros E; injection E as ->. now left.
Qed.

Lemma entry_dict_get {V} (d : dict V) k v :
  NoDup (keys d) -> In (k, v) d -> dict_get d k = Some v.
Proof.
  induction d as [|[k' v'] d IH]; simpl; [contradiction|].
  intros Hnd [E|Hin]; inversion Hnd as [|? ? Hk' Hnd']; subst.
  - injection E as -> ->. now rewrite pykey_eqb_refl.
  - destruct (pykey_eqb_spec k k') as [->|Hk]; [|auto].
    exfalso. apply Hk'. apply in_map_iff. now exists (k', v).
Qed.

Lemma entry_dict_set {V} (d : dict V) k0 v0 k v :
  In (k, v) (dict_set d k0 v0) -> In (k, v) d \/ (k = k0 /\ v = v0).
Proof.
  induction d as [|[k' v'] d IH]; simpl.
  - intros [E|[]]. injection E as -> ->. auto.
  - destruct (pykey_eqb_spec k0 k') as [->|Hk]; simpl.
    + intros [E|?]; [|auto]. injection E as -> ->. auto.
    + intros [E|Hin]; [auto|]. apply IH in Hin as [?|?]; auto.
Qed.

Lemma entry_dict_update {V} (d other : dict V) k v :
  In (k, v) (dict_update d other) -> In (k, v) d \/ In (k, v) other.
Proof.
  unfold dict_update. revert d; induction other as [|[k0 v0] o IH];
    intros d H; simpl in *; [auto|].
  apply IH in H as [H|H]; [|auto].
  apply entry_dict_set in H as [H|[-> ->]]; auto.
Qed.

Lemma entry_dict_remove {V} (d : dict V) k0 k v :
  In (k, v) (dict_remove d k0) -> In (k, v) d.
Proof. unfold dict_remove. intros H. now apply filter_In in H. Qed.

(** A reference inside a dictionary is one of its entries or sits inside
    one of its values. *)
Lemma has_ref_entry (s : pystr) (d : pydict) :
  has_ref s (PDict d) = true ->
  exists k v, In (k, v) d
              /\ ((k = skey "$ref" /\ v = PStr s) \/ has_ref s v = true).
Proof.
  simpl. intros H. apply existsb_exists in H as ([k v] & Hin & H).
  exists k, v. split; [assumption|]. simpl in H.
  apply orb_true_iff in H as [H|H]; [|auto].
  apply andb_true_iff in H as [Hk Hv]. left.
  destruct (pykey_eqb_spec k (skey "$ref")); [|discriminate].
  destruct v; try discriminate.
  destruct (pystr_eqb_spec s s0); [|discriminate]. now subst.
Qed.

Lemma has_ref_refs_in (s : pystr) (v : pyval) :
  has_ref s v = true -> In s (refs_in v).
Proof.
  induction v as [ | | | |l IH|l IH|d IH|c fs IH| | ] using pyval_nested_ind;
    simpl; try discriminate.
  - induction IH as [|x l Hx _ IHl]; simpl; [discriminate|].
    intros H. apply in_or_app. apply orb_true_iff in H as [H|H]; auto.
  - induction IH as [|x l Hx _ IHl]; simpl; [discriminate|].
    intros H. apply in_or_app. apply orb_true_iff in H as [H|H]; auto.
  - induction IH as [|[k x] l Hx _ IHl]; simpl in *; [discriminate|].
    intros H. apply in_or_app. apply orb_true_iff in H as [H|H]; [|auto].
    left. apply in_or_app. apply orb_true_iff in H as [H|H]; [|auto].
    left. apply andb_true_iff in H as [Hk Hv]. rewrite Hk.
    destruct x; try discriminate.
    destruct (pystr_eqb_spec s s0); [|discriminate]. now left.
Qed.

Lemma has_ref_item (s : pystr) (l : list pyval) :
  has_ref s (PList l) = true -> exists x, In x l /\ has_ref s x = true.
Proof. simpl. intros H. now apply existsb_exists in H. Qed.

Lemma has_ref_of_entry (s : pystr) (d : pydict) k v :
  In (k, v) d ->
  (k = skey "$ref" /\ v = PStr s) \/ has_ref s v = true ->
  has_ref s (PDict d) = true.
Proof.
  intros Hin H. simpl. apply existsb_exists. exists (k, v).
  split; [assumption|]. simpl. destruct H as [[-> ->]|H].
  - now rewrite pykey_eqb_refl, pystr_eqb_refl.
  - rewrite H. apply orb_true_r.
Qed.

Lemma has_ref_dict_set (s : pystr) (d : pydict) k0 v0 :
  has_ref s (PDict (dict_set d k0 v0)) = true ->
  has_ref s (PDict d) = true
  \/ has_ref s v0 = true
  \/ (k0 = skey "$ref" /\ v0 = PStr s).
Proof.
  intros H. apply has_ref_entry in H as (k & v & Hin & H).
  apply entry_dict_set in Hin as [Hin|[-> ->]].
  - left. eapply has_ref_of_entry; eassumption.
  - destruct H; auto.
Qed.

Lemma has_ref_mk_dict (s : pystr) (items : list (pykey * pyval)) :
  has_ref s (PDict (mk_dict items)) = true ->
  exists k v, In (k, v) items
              /\ ((k = skey "$ref" /\ v = PStr s) \/ has_ref s v = true).
Proof.
  intros H. apply has_ref_entry in H as (k & v & Hin & H).
  apply entry_dict_update in Hin as [[]|Hin]. eauto.
Qed.

Lemma has_ref_dict_remove (s : pystr) (d : pydict) k0 :
  has_ref s (PDict (dict_remove d k0)) = true -> has_ref s (PDict d) = true.
Proof.
  intros H. apply has_ref_entry in H as (k & v & Hin & H).
  apply entry_dict_remove in Hin. eapply has_ref_of_entry; eassumption.
Qed.

Lemma has_ref_response_object (s : pystr) (schema : pydict) (m : Model) :
  has_ref s (response_object schema m) = true ->
  has_ref s (PDict schema) = true.
Proof.
  unfold response_object. intros H.
  apply has_ref_mk_dict in H as (k & v & [E|[E|[]]] & H);
    injection E as <- <-.
  - destruct H as [[_ E]|H]; [discriminate|].
    apply has_ref_mk_dict in H as (k & v & [E|[]] & H). injection E as <- <-.
    destruct H as [[_ E]|H]; [discriminate|].
    apply has_ref_mk_dict in H as (k & v & [E|[]] & H). injection E as <- <-.
    destruct H as [[_ E]|H]; [discriminate|assumption].
  - destruct H as [[E _]|H]; [vm_compute in E; discriminate|].
    destruct (model_doc m); discriminate.
Qed.

Lemma has_ref_query_parameter (s : pystr) (name : pykey) (type_ : pyval) :
  has_ref s (query_parameter name type_) = true -> has_ref s type_ = true.
Proof.
  unfold query_parameter. intros H.
  apply has_ref_mk_dict in H as (k & v & [E|[E|[E|[]]]] & H);
    injection E as <- <-.
  - destruct H as [[E _]|H]; [vm_compute in E; discriminate|].
    destruct name; discriminate.
  - destruct H as [[E _]|H]; [vm_compute in E; discriminate|discriminate].
  - destruct H as [[E _]|H]; [vm_compute in E; discriminate|assumption].
Qed.

Lemma has_ref_path_parameter (s : pystr) (name : pykey) :
  has_ref s (path_parameter name) = false.
Proof.
  destruct (has_ref s (path_parameter name)) eqn:H; [|reflexivity].
  unfold path_parameter in H.
  apply has_ref_mk_dict in H as (k & v & [E|[E|[]]] & H);
    injection E as <- <-.
  - destruct H as [[E _]|H]; [vm_compute in E; discriminate|].
    destruct name; discriminate.
  - destruct H as [[E _]|H]; [vm_compute in E; discriminate|discriminate].
Qed.

Lemma add_doc_refs (s : pystr) func po po' :
  add_doc func po = Ok po' ->
  has_ref s (PDict po') = true -> has_ref s (PDict po) = true.
Proof.
  unfold add_doc. destruct (doc func) as [d|]; [|now intros [= <-]].
  destruct (splitlines d) as [|summary description]; [discriminate|].
  intros [= <-] H.
  apply has_ref_dict_set in H as [H|[H|[E _]]];
    [|discriminate|vm_compute in E; discriminate].
  apply has_ref_dict_set in H as [H|[H|[E _]]];
    [assumption|discriminate|vm_compute in E; discriminate].
Qed.

(* ================================================================== *)
(** * The loop body, step by step *)

Section AssemblerFacts.
Variable camelize : pydict -> pydict.
Variable lower : pystr -> pystr.

Abbreviation attach := (attach lower).
Abbreviation attach_verbs := (attach_verbs lower).
Abbreviation attach_step := (attach_step lower).
Abbreviation emitted_verbs := (emitted_verbs lower).
Abbreviation emitted_of := (emitted_of lower).
Abbreviation emits := (emits lower).
Abbreviation process_rule := (process_rule camelize lower).
Abbreviation process_rules := (process_rules camelize lower).
Abbreviation build_path_object := (build_path_object camelize).
Abbreviation frag := (fragment camelize).
Abbreviation generated := (generated camelize).
Abbreviation add_responses := (add_responses camelize).
Abbreviation add_request := (add_request camelize).
Abbreviation add_querystring := (add_querystring camelize).
Abbreviation responses_of := (responses_of camelize).
Abbreviation query_parameters := (query_parameters camelize).
Abbreviation model_ok := (model_ok camelize).
Abbreviation func_ok := (func_ok camelize).
Abbreviation app_ok := (app_ok camelize).
Abbreviation definitions_of := (definitions_of camelize).
Abbreviation refs_from := (refs_from camelize).

Lemma attach_spec r ms paths path l verbs :
  dict_get paths path = Some verbs ->
  attach r ms paths path l =
  Ok (dict_set paths path (attach_verbs r ms verbs l)).
Proof.
  revert paths verbs; induction ms as [|m ms IH]; intros paths verbs Hget;
    simpl.
  - now rewrite (dict_set_get_id _ _ Hget).
  - destruct (skipped r m); [now apply IH|].
    unfold set_verb; rewrite Hget; simpl.
    rewrite (IH _ (dict_set verbs (KStr (lower m)) l))
      by apply dict_get_set_same.
    now rewrite dict_set_set.
Qed.

Lemma attach_verbs_emitted {V} r ms (verbs : dict V) x k :
  In k (emitted_of r ms) -> dict_get (attach_verbs r ms verbs x) k = Some x.
Proof.
  assert (Hkeep : forall ms (verbs : dict V),
             dict_get verbs k = Some x ->
             dict_get (attach_verbs r ms verbs x) k = Some x).
  { clear; intros ms; induction ms as [|m ms IH]; intros verbs Hget; simpl;
      [assumption|].
    destruct (skipped r m); [now apply IH|].
    apply IH.
    destruct (pykey_eqb_spec (KStr (lower m)) k) as [<-|Hk].
    - apply dict_get_set_same.
    - now rewrite dict_get_set_other. }
  revert verbs; induction ms as [|m ms IH]; intros verbs; simpl; [tauto|].
  unfold emitted_of in *; simpl.
  destruct (skipped r m); simpl; [now apply IH|].
  intros [<-|Hin]; [|now apply IH].
  apply Hkeep, dict_get_set_same.
Qed.

Lemma attach_verbs_not_emitted {V} r ms (verbs : dict V) x k :
  ~ In k (emitted_of r ms) ->
  dict_get (attach_verbs r ms verbs x) k = dict_get verbs k.
Proof.
  revert verbs; induction ms as [|m ms IH]; intros verbs; simpl;
    [reflexivity|].
  unfold emitted_of in *; simpl.
  destruct (skipped r m); simpl; [now apply IH|].
  intros Hnot. rewrite IH by tauto.
  apply dict_get_set_other; tauto.
Qed.

Lemma attach_verbs_NoDup {V} r ms (verbs : dict V) x :
  NoDup (keys verbs) -> NoDup (keys (attach_verbs r ms verbs x)).
Proof.
  revert verbs; induction ms as [|m ms IH]; intros verbs Hnd; simpl;
    [assumption|].
  destruct (skipped r m); auto using NoDup_keys_dict_set.
Qed.

Lemma attach_verbs_values {V} (Q : V -> Prop) r ms (verbs : dict V) x :
  Forall (fun kv => Q (snd kv)) verbs -> Q x ->
  Forall (fun kv => Q (snd kv)) (attach_verbs r ms verbs x).
Proof.
  revert verbs; induction ms as [|m ms IH]; intros verbs Hv Hx; simpl;
    [assumption|].
  destruct (skipped r m); auto using Forall_values_dict_set.
Qed.

Lemma dmap_attach_verbs {A B} (f : A -> B) r ms (verbs : dict A) x :
  dmap f (attach_verbs r ms verbs x) = attach_verbs r ms (dmap f verbs) (f x).
Proof.
  revert verbs; induction ms as [|m ms IH]; intros verbs; simpl;
    [reflexivity|].
  destruct (skipped r m); [apply IH|].
  now rewrite IH, dmap_dict_set.
Qed.

Lemma dmap_attach_step {A B} (f : A -> B) r x (ps : dict (dict A)) :
  dmap (dmap f) (attach_step r x ps) = attach_step r (f x) (dmap (dmap f) ps).
Proof.
  unfold attach_step.
  change (@nil (pykey * B)) with (dmap f []).
  rewrite <- dmap_dict_setdefault, dmap_dict_get.
  destruct (dict_get _ _) as [verbs|]; simpl; [|reflexivity].
  now rewrite dmap_dict_set, dmap_attach_verbs.
Qed.

Lemma attach_step_emitted {V} r (x : V) ps k :
  In k (emitted_verbs r) ->
  lookup2 (attach_step r x ps) (KStr (openapi_path r)) k = Some x.
Proof.
  intros Hin; unfold lookup2, attach_step.
  rewrite dict_get_setdefault_same, dict_get_set_same.
  now apply attach_verbs_emitted.
Qed.

Lemma attach_step_other {V} r (x : V) ps p k :
  p <> KStr (openapi_path r) \/ ~ In k (emitted_verbs r) ->
  lookup2 (attach_step r x ps) p k = lookup2 ps p k.
Proof.
  intros Hcase; unfold lookup2, attach_step.
  rewrite dict_get_setdefault_same.
  destruct (pykey_eqb_spec (KStr (openapi_path r)) p) as [<-|Hp].
  - destruct Hcase as [Hp|Hk]; [congruence|].
    rewrite dict_get_set_same, attach_verbs_not_emitted by exact Hk.
    destruct (dict_get ps _); reflexivity.
  - rewrite dict_get_set_other, dict_get_setdefault_other by assumption.
    reflexivity.
Qed.

Lemma attach_step_values {V} (Q : dict V -> Prop) r (x : V) ps :
  Forall (fun pv => Q (snd pv)) ps -> Q [] ->
  (forall verbs, Q verbs -> Q (attach_verbs r (methods r) verbs x)) ->
  Forall (fun pv => Q (snd pv)) (attach_step r x ps).
Proof.
  intros Hps Hnil Hstep; unfold attach_step.
  assert (H' : Forall (fun pv => Q (snd pv))
                 (dict_setdefault ps (KStr (openapi_path r)) []))
    by now apply Forall_values_setdefault.
  destruct (dict_get _ _) as [verbs|] eqn:E; [|assumption].
  apply Forall_values_dict_set; [assumption|].
  apply Hstep. eapply Forall_values_get; eassumption.
Qed.

(** ** [process_rule] *)

Lemma process_rule_hidden app ext r st func :
  dict_get (view_functions app) (KStr (endpoint r)) = Some func ->
  hidden func = true ->
  process_rule app ext r st = Ok st.
Proof. intros Hf Hh; unfold process_rule; now rewrite Hf; simpl; rewrite Hh. Qed.

Lemma process_rule_visible app ext r st func :
  dict_get (view_functions app) (KStr (endpoint r)) = Some func ->
  hidden func = false ->
  process_rule app ext r st =
  ('(schemas, path_object) <-
     build_path_object ext func r (st_schemas st) ;;
   Ok {| st_paths := attach_step r (length (st_heap st)) (st_paths st);
         st_schemas := schemas;
         st_heap := st_heap st ++ [path_object] |}).
Proof.
  intros Hf Hh; unfold process_rule; rewrite Hf; simpl; rewrite Hh.
  destruct (build_path_object _ _ _ _) as [[schemas po]|e]; simpl;
    [|reflexivity].
  unfold attach_step.
  rewrite dict_get_setdefault_same.
  erewrite attach_spec by apply dict_get_setdefault_same.
  reflexivity.
Qed.

Lemma process_rule_missing app ext r st :
  dict_get (view_functions app) (KStr (endpoint r)) = None ->
  process_rule app ext r st = Raise KeyError.
Proof. intros Hf; unfold process_rule; now rewrite Hf. Qed.

Lemma process_rules_app app ext rules1 rules2 st :
  process_rules app ext (rules1 ++ rules2) st =
  (st1 <- process_rules app ext rules1 st ;;
   process_rules app ext rules2 st1).
Proof.
  revert st; induction rules1 as [|r rules1 IH]; intros st; simpl;
    [reflexivity|].
  destruct (process_rule app ext r st); simpl; [apply IH | reflexivity].
Qed.

Lemma process_rules_invariant app ext (I : build_state -> Prop) :
  (forall r st st', I st -> process_rule app ext r st = Ok st' -> I st') ->
  forall rules st st',
    I st -> process_rules app ext rules st = Ok st' -> I st'.
Proof.
  intros Hstep rules; induction rules as [|r rules IH]; intros st st' Hst H;
    simpl in H.
  - now injection H as <-.
  - inv_bind H. eauto.
Qed.

Lemma process_rule_inv app ext r st st' :
  process_rule app ext r st = Ok st' ->
  (hidden_rule app r = true /\ visible app r = false /\ st' = st)
  \/ (exists func schemas po,
         dict_get (view_functions app) (KStr (endpoint r)) = Some func
         /\ hidden func = false
         /\ hidden_rule app r = false
         /\ visible app r = true
         /\ build_path_object ext func r (st_schemas st) = Ok (schemas, po)
         /\ st' = {| st_paths :=
                       attach_step r (length (st_heap st)) (st_paths st);
                     st_schemas := schemas;
                     st_heap := st_heap st ++ [po] |}).
Proof.
  intros H. unfold hidden_rule, visible.
  destruct (dict_get (view_functions app) (KStr (endpoint r)))
    as [func|] eqn:Hf.
  - destruct (hidden func) eqn:Hh.
    + rewrite (process_rule_hidden _ _ _ _ Hf Hh) in H.
      injection H as <-. now left.
    + rewrite (process_rule_visible _ _ _ _ Hf Hh) in H.
      inv_bind H. destruct a as [schemas po]. injection H as <-.
      right. exists func, schemas, po. auto 10.
  - rewrite (process_rule_missing _ _ _ _ Hf) in H. discriminate.
Qed.

Lemma In_key_dec (k : pykey) (l : list pykey) : In k l \/ ~ In k l.
Proof.
  induction l as [|k' l IH]; simpl; [tauto|].
  destruct (pykey_eqb_spec k' k); tauto.
Qed.

Lemma process_rule_lookup app ext r st st' p k :
  process_rule app ext r st = Ok st' ->
  (exists l, lookup2 (st_paths st') p k = Some l) <->
  (exists l, lookup2 (st_paths st) p k = Some l) \/ emits app r p k.
Proof.
  intros H; apply process_rule_inv in H
    as [(_ & Hv & ->)|(func & schemas & po & _ & _ & _ & Hv & _ & ->)].
  - unfold emits; rewrite Hv. intuition discriminate.
  - simpl. unfold emits. rewrite Hv.
    destruct (pykey_eqb_spec p (KStr (openapi_path r))) as [->|Hp].
    + destruct (In_key_dec k (emitted_verbs r)) as [Hin|Hnot].
      * rewrite attach_step_emitted by assumption. split; eauto.
      * rewrite attach_step_other by tauto. intuition.
    + rewrite attach_step_other by tauto. intuition.
Qed.

Lemma process_rules_lookup app ext rules st st' p k :
  process_rules app ext rules st = Ok st' ->
  (exists l, lookup2 (st_paths st') p k = Some l) <->
  (exists l, lookup2 (st_paths st) p k = Some l)
  \/ (exists r, In r rules /\ emits app r p k).
Proof.
  revert st; induction rules as [|r rules IH]; intros st H; simpl in H.
  - injection H as <-. split; [tauto|]. intros [?|(r & [] & _)]; assumption.
  - inv_bind H. rewrite (IH _ H), (process_rule_lookup _ _ _ _ p k Ha).
    simpl. split.
    + intros [[?|?]|(r' & ? & ?)]; eauto.
    + intros [?|(r' & [<-|?] & ?)]; eauto.
Qed.

(** The key of a path is present once a visible rule of that path has
    been processed, and not before. *)
Lemma attach_step_path_key {V} r (x : V) ps p :
  dict_get (attach_step r x ps) p = None <->
  dict_get ps p = None /\ p <> KStr (openapi_path r).
Proof.
  unfold attach_step. rewrite dict_get_setdefault_same.
  destruct (pykey_eqb_spec (KStr (openapi_path r)) p) as [<-|Hp].
  - rewrite dict_get_set_same. split; [discriminate | tauto].
  - rewrite dict_get_set_other, dict_get_setdefault_other by assumption.
    intuition congruence.
Qed.

Lemma process_rules_path_key app ext rules st st' p :
  process_rules app ext rules st = Ok st' ->
  dict_get (st_paths st) p = None ->
  (forall r, In r rules -> visible app r = true ->
             p <> KStr (openapi_path r)) ->
  dict_get (st_paths st') p = None.
Proof.
  revert st; induction rules as [|r rules IH]; intros st H Hnone Hrules;
    simpl in H.
  - now injection H as <-.
  - inv_bind H. apply (IH _ H); [|intros; apply Hrules; simpl; auto].
    apply process_rule_inv in Ha
      as [(_ & _ & ->)|(func & schemas & po & _ & _ & _ & Hv & _ & ->)];
      [assumption|].
    simpl. apply attach_step_path_key. split; [assumption|].
    apply Hrules; simpl; auto.
Qed.

Lemma process_rules_verbs_NoDup app ext rules st st' :
  process_rules app ext rules st = Ok st' ->
  Forall (fun pv => NoDup (keys (snd pv))) (st_paths st) ->
  Forall (fun pv => NoDup (keys (snd pv))) (st_paths st').
Proof.
  intros H Hst; revert rules st st' Hst H.
  apply process_rules_invariant with
    (I := fun st => Forall (fun pv => NoDup (keys (snd pv))) (st_paths st)).
  intros r st st' Hst H.
  apply process_rule_inv in H
    as [(_ & _ & ->)|(func & schemas & po & _ & _ & _ & _ & _ & ->)];
    [assumption|].
  simpl. apply attach_step_values with (Q := fun verbs => NoDup (keys verbs)).
  - assumption.
  - constructor.
  - intros verbs; apply attach_verbs_NoDup.
Qed.

(** Hidden rules leave the state of the run as it is. *)
Lemma process_rules_same_functions app app' ext rules st :
  view_functions app' = view_functions app ->
  process_rules app' ext rules st = process_rules app ext rules st.
Proof.
  intros Hvf; revert st; induction rules as [|r rules IH]; intros st; simpl;
    [reflexivity|].
  assert (E : process_rule app' ext r st = process_rule app ext r st)
    by (unfold process_rule; now rewrite Hvf).
  rewrite E. destruct (process_rule app ext r st); simpl; auto.
Qed.

Lemma process_rules_skip_hidden app ext rules st :
  process_rules app ext rules st =
  process_rules app ext
    (filter (fun r => negb (hidden_rule app r)) rules) st.
Proof.
  revert st; induction rules as [|r rules IH]; intros st; simpl;
    [reflexivity|].
  destruct (hidden_rule app r) eqn:Hh; simpl.
  - unfold hidden_rule in Hh.
    destruct (dict_get (view_functions app) (KStr (endpoint r)))
      as [func|] eqn:Hf; [|discriminate].
    rewrite (process_rule_hidden _ _ _ _ Hf Hh). simpl. apply IH.
  - destruct (process_rule app ext r st); simpl; auto.
Qed.

Lemma skipped_false_iff r m :
  skipped r m = false <->
  m <> str "HEAD"
  /\ ~ (m = str "OPTIONS" /\ provide_automatic_options r = true).
Proof.
  unfold skipped.
  destruct (pystr_eqb_spec m (str "HEAD")) as [->|Hh]; simpl.
  - split; [discriminate | tauto].
  - destruct (pystr_eqb_spec m (str "OPTIONS")) as [->|Ho]; simpl.
    + destruct (provide_automatic_options r); split; try tauto;
        try discriminate.
      intros _; split; [assumption|]. intros [_ ?]; discriminate.
    + tauto.
Qed.

Lemma In_emitted_verbs r verb :
  In verb (emitted_verbs r) <->
  exists m, In m (methods r)
            /\ m <> str "HEAD"
            /\ ~ (m = str "OPTIONS" /\ provide_automatic_options r = true)
            /\ verb = KStr (lower m).
Proof.
  unfold emitted_verbs, emitted_of. rewrite in_map_iff. split.
  - intros (m & <- & Hin). apply filter_In in Hin as [Hin Hs].
    apply negb_true_iff, skipped_false_iff in Hs. exists m; tauto.
  - intros (m & Hin & H1 & H2 & ->). exists m; split; [reflexivity|].
    apply filter_In; split; [assumption|].
    apply negb_true_iff, skipped_false_iff; tauto.
Qed.

Lemma In_verbs_at doc path verb :
  In verb (verbs_at doc path) <->
  exists l, lookup2 (paths doc) (KStr path) verb = Some l.
Proof.
  unfold verbs_at, lookup2.
  destruct (dict_get (paths doc) (KStr path)) as [verbs|].
  - symmetry; apply dict_get_Some_iff.
  - simpl. split; [tauto | intros [l Hl]; discriminate].
Qed.

Lemma build_inv app ext h doc h' :
  _build_openapi_schema camelize lower app ext h = Ok (doc, h') ->
  exists st,
    process_rules app ext (url_map app)
      {| st_paths := []; st_schemas := []; st_heap := h |} = Ok st
    /\ paths doc = st_paths st
    /\ components doc = st_schemas st
    /\ h' = st_heap st.
Proof.
  unfold _build_openapi_schema; intros H. inv_bind H.
  injection H as <- <-. exists a; auto.
Qed.

(* ---------------------------------------------------------------- *)
(** ** Verbs *)

(** C2 (verb emission filter): in a built document the verb keys under a
    path are the lower-cased methods of the visible routes of that path,
    except "HEAD", always, and "OPTIONS" exactly when the route's
    automatic-options flag is set; a verb key occurs once; and for a route
    with methods GET, HEAD and OPTIONS whose OPTIONS was added
    automatically, alone on its path, the verb keys of that path are the
    lower-cased "GET" and nothing else. *)
Theorem verb_emission_filter app ext h doc h' :
  _build_openapi_schema camelize lower app ext h = Ok (doc, h') ->
  (forall path verb,
      In verb (verbs_at doc path) <->
      exists r m,
        In r (url_map app) /\ visible app r = true
        /\ openapi_path r = path
        /\ In m (methods r)
        /\ m <> str "HEAD"
        /\ ~ (m = str "OPTIONS" /\ provide_automatic_options r = true)
        /\ verb = KStr (lower m))
  /\ (forall path, NoDup (verbs_at doc path))
  /\ (forall r,
         In r (url_map app) -> visible app r = true ->
         (forall m, In m (methods r) <->
                    m = str "GET" \/ m = str "HEAD" \/ m = str "OPTIONS") ->
         provide_automatic_options r = true ->
         (forall r', In r' (url_map app) -> visible app r' = true ->
                     openapi_path r' = openapi_path r -> r' = r) ->
         forall verb,
           In verb (verbs_at doc (openapi_path r)) <->
           verb = KStr (lower (str "GET"))).
Proof.
  intros Hbuild.
  destruct (build_inv _ _ _ Hbuild) as (st & Hrun & Hpaths & _ & _).
  assert (Hverbs : forall path verb,
    In verb (verbs_at doc path) <->
    exists r m,
      In r (url_map app) /\ visible app r = true
      /\ openapi_path r = path
      /\ In m (methods r)
      /\ m <> str "HEAD"
      /\ ~ (m = str "OPTIONS" /\ provide_automatic_options r = true)
      /\ verb = KStr (lower m)).
  { intros path verb.
    rewrite In_verbs_at, Hpaths,
      (process_rules_lookup _ _ _ _ (KStr path) verb Hrun).
    simpl. unfold emits. split.
    - intros [[l Hl]|(r & Hin & Hv & Hp & Hem)]; [discriminate|].
      apply In_emitted_verbs in Hem as (m & ? & ? & ? & ?).
      injection Hp as Hp.
      exists r, m; auto 10.
    - intros (r & m & Hin & Hv & Hp & Hm & H1 & H2 & Hverb).
      right. exists r. repeat split; [assumption .. | congruence |].
      apply In_emitted_verbs. exists m; auto. }
  split; [exact Hverbs|]. split.
  - intros path. unfold verbs_at.
    destruct (dict_get (paths doc) (KStr path)) as [verbs|] eqn:E;
      [|constructor].
    assert (Hnd := process_rules_verbs_NoDup _ _ _ _ Hrun).
    simpl in Hnd. specialize (Hnd (Forall_nil _)). rewrite <- Hpaths in Hnd.
    exact (Forall_values_get (fun verbs => NoDup (keys verbs)) _ Hnd E).
  - intros r Hin Hv Hms Hauto Huniq verb. rewrite Hverbs. split.
    + intros (r' & m & Hin' & Hv' & Hp & Hm & H1 & H2 & ->).
      assert (r' = r) as -> by auto.
      apply Hms in Hm as [ -> | [ -> | -> ] ]; [reflexivity | congruence | tauto].
    + intros ->. exists r, (str "GET").
      repeat split; try assumption.
      * apply Hms; auto.
      * intros E; vm_compute in E; discriminate.
      * intros [E _]; vm_compute in E; discriminate.
Qed.

(* ---------------------------------------------------------------- *)
(** ** Hidden routes *)

(** C5 (hidden-route exclusion): the document built for an application is
    the document built for the application without its hidden routes, so
    that a hidden route gives nothing to [paths] nor to the component
    table, whatever its other annotations: every verb entry of the
    document is written by a visible route, and a path all of whose
    routes are hidden has no key.  A view function the marker was never
    applied to is not hidden, and its route is processed: a Path Item is
    built for it; [hide_route] makes a function hidden. *)
Theorem hidden_routes_excluded app ext h :
  _build_openapi_schema camelize lower app ext h =
  _build_openapi_schema camelize lower (without_hidden app) ext h
  /\ (forall doc h',
         _build_openapi_schema camelize lower app ext h = Ok (doc, h') ->
         (forall path verb,
             In verb (verbs_at doc path) ->
             exists r, In r (url_map app) /\ hidden_rule app r = false
                       /\ emits app r (KStr path) verb)
         /\ (forall path,
                (forall r, In r (url_map app) -> openapi_path r = path ->
                           hidden_rule app r = true) ->
                dict_get (paths doc) (KStr path) = None))
  /\ (forall func, flask_schema_hidden func = None -> hidden func = false)
  /\ (forall func, hidden (hide_route func) = true)
  /\ (forall r st st' func,
         dict_get (view_functions app) (KStr (endpoint r)) = Some func ->
         flask_schema_hidden func = None ->
         process_rule app ext r st = Ok st' ->
         exists path_object, st_heap st' = st_heap st ++ [path_object]).
Proof.
  split; [|split; [|split; [|split]]].
  - unfold _build_openapi_schema.
    rewrite process_rules_skip_hidden.
    now rewrite <- (process_rules_same_functions app (without_hidden app)).
  - intros doc h' Hbuild.
    destruct (build_inv _ _ _ Hbuild) as (st & Hrun & Hpaths & _ & _).
    split.
    + intros path verb Hin.
      apply In_verbs_at in Hin. rewrite Hpaths in Hin.
      apply (process_rules_lookup _ _ _ _ (KStr path) verb Hrun) in Hin
        as [[l Hl]|(r & Hr & Hem)]; [discriminate|].
      exists r; split; [assumption|]; split; [|exact Hem].
      destruct Hem as (Hv & _). unfold visible, hidden_rule in *.
      destruct (dict_get _ _); [|discriminate].
      now apply negb_true_iff.
    + intros path Hall. rewrite Hpaths.
      eapply process_rules_path_key; [exact Hrun | reflexivity |].
      intros r Hr Hv Hp. injection Hp as Hp.
      specialize (Hall r Hr (eq_sym Hp)).
      unfold visible, hidden_rule in *.
      destruct (dict_get _ _); [|discriminate].
      rewrite Hall in Hv; discriminate.
  - intros func Hnone; unfold hidden; now rewrite Hnone.
  - reflexivity.
  - intros r st st' func Hf Hnone H.
    assert (Hh : hidden func = false) by (unfold hidden; now rewrite Hnone).
    rewrite (process_rule_visible _ _ _ _ Hf Hh) in H.
    inv_bind H. destruct a as [schemas po]. injection H as <-.
    now exists po.
Qed.

(* ---------------------------------------------------------------- *)
(** ** The store under the loop *)

Lemma process_rules_heap_grows app ext rules st st' :
  process_rules app ext rules st = Ok st' ->
  exists objs, st_heap st' = st_heap st ++ objs.
Proof.
  revert st; induction rules as [|r rules IH]; intros st H; simpl in H.
  - injection H as <-. exists []. now rewrite app_nil_r.
  - inv_bind H. destruct (IH _ H) as [objs Hobjs].
    apply process_rule_inv in Ha
      as [(_ & _ & ->)|(func & schemas & po & _ & _ & _ & _ & _ & ->)].
    + now exists objs.
    + exists (po :: objs). rewrite Hobjs. simpl. now rewrite <- app_assoc.
Qed.

Lemma process_rules_lookup_keep app ext rules st st' p k :
  process_rules app ext rules st = Ok st' ->
  (forall r, In r rules -> ~ emits app r p k) ->
  lookup2 (st_paths st') p k = lookup2 (st_paths st) p k.
Proof.
  revert st; induction rules as [|r rules IH]; intros st H Hno; simpl in H.
  - now injection H as <-.
  - inv_bind H. rewrite (IH _ H) by (intros; apply Hno; simpl; auto).
    apply process_rule_inv in Ha
      as [(_ & _ & ->)|(func & schemas & po & _ & _ & _ & Hv & _ & ->)];
      [reflexivity|].
    simpl. apply attach_step_other.
    destruct (pykey_eqb_spec p (KStr (openapi_path r))) as [->|Hp];
      [|now left].
    right. intros Hin. apply (Hno r); [simpl; auto|].
    unfold emits; auto.
Qed.

Lemma path_item_app_below h objs l :
  l < length h -> path_item (h ++ objs) l = path_item h l.
Proof. intros Hl; unfold path_item; now rewrite heap_get_app_old. Qed.

Lemma resolved_app_below h objs ps :
  refs_below (length h) ps -> resolved (h ++ objs) ps = resolved h ps.
Proof.
  intros Hps; unfold resolved. apply dmap_ext_values.
  eapply Forall_impl; [|exact Hps]. intros [p verbs] Hverbs; simpl in *.
  apply dmap_ext_values.
  eapply Forall_impl; [|exact Hverbs]. intros [v l] Hl; simpl in *.
  now apply path_item_app_below.
Qed.

Lemma refs_below_attach_step r n ps :
  refs_below n ps -> refs_below (S n) (attach_step r n ps).
Proof.
  intros Hps. unfold refs_below.
  apply attach_step_values
    with (Q := fun verbs : dict loc => Forall (fun vl => snd vl < S n) verbs).
  - eapply Forall_impl; [|exact Hps]. intros [p verbs] Hverbs; simpl in *.
    eapply Forall_impl; [|exact Hverbs]. intros [v l] Hl; simpl in *; lia.
  - constructor.
  - intros verbs Hverbs.
    apply attach_verbs_values with (Q := fun l : loc => l < S n);
      [assumption | lia].
Qed.

Lemma resolved_attach_step h po r ps :
  refs_below (length h) ps ->
  resolved (h ++ [po]) (attach_step r (length h) ps) =
  attach_step r (PDict po) (resolved h ps).
Proof.
  intros Hps. unfold resolved at 1. rewrite dmap_attach_step.
  change (dmap (dmap (path_item (h ++ [po]))) ps)
    with (resolved (h ++ [po]) ps).
  rewrite resolved_app_below by assumption.
  unfold path_item at 1. now rewrite heap_get_alloc_new.
Qed.

Lemma process_rule_same_view app ext r st1 st2 :
  same_view st1 st2 ->
  res_rel same_view (process_rule app ext r st1) (process_rule app ext r st2).
Proof.
  intros (Hs & Hp & Hb1 & Hb2).
  destruct (dict_get (view_functions app) (KStr (endpoint r)))
    as [func|] eqn:Hf.
  - destruct (hidden func) eqn:Hh.
    + rewrite !(process_rule_hidden _ _ _ _ Hf Hh). simpl.
      unfold same_view; auto.
    + rewrite !(process_rule_visible _ _ _ _ Hf Hh), Hs.
      destruct (build_path_object ext func r (st_schemas st2))
        as [[schemas po]|e]; simpl; [|reflexivity].
      unfold same_view; simpl. rewrite !length_app; simpl.
      rewrite !Nat.add_1_r.
      rewrite !resolved_attach_step, Hp by assumption.
      auto using refs_below_attach_step.
  - rewrite !(process_rule_missing _ _ _ _ Hf). reflexivity.
Qed.

Lemma process_rules_same_view app ext rules st1 st2 :
  same_view st1 st2 ->
  res_rel same_view (process_rules app ext rules st1)
    (process_rules app ext rules st2).
Proof.
  revert st1 st2; induction rules as [|r rules IH]; intros st1 st2 Hst;
    simpl; [assumption|].
  pose proof (process_rule_same_view app ext r Hst) as Hstep.
  destruct (process_rule app ext r st1), (process_rule app ext r st2);
    simpl in *; auto; contradiction.
Qed.

Lemma same_view_initial h1 h2 :
  same_view (initial_state h1) (initial_state h2).
Proof. repeat split; constructor. Qed.

Lemma paths_value_resolved h ps :
  paths_value h ps = dmap PDict (resolved h ps).
Proof.
  unfold paths_value, resolved, dmap. rewrite map_map. apply map_ext.
  intros [p verbs]; reflexivity.
Qed.

Lemma document_value_same h1 h2 d1 d2 :
  openapi d1 = openapi d2 -> info_title d1 = info_title d2 ->
  info_version d1 = info_version d2 -> components d1 = components d2 ->
  doc_tags d1 = doc_tags d2 -> doc_servers d1 = doc_servers d2 ->
  resolved h1 (paths d1) = resolved h2 (paths d2) ->
  document_value h1 d1 = document_value h2 d2.
Proof.
  intros H1 H2 H3 H4 H5 H6 H7. unfold document_value.
  now rewrite !paths_value_resolved, H1, H2, H3, H4, H5, H6, H7.
Qed.

Lemma build_same_view app ext h1 h2 :
  res_rel (fun dh1 dh2 => view dh1 = view dh2
                          /\ refs_below (length (snd dh1)) (paths (fst dh1)))
    (_build_openapi_schema camelize lower app ext h1)
    (_build_openapi_schema camelize lower app ext h2).
Proof.
  unfold _build_openapi_schema.
  pose proof (process_rules_same_view app ext (url_map app)
                (same_view_initial h1 h2)) as Hrel.
  unfold initial_state in Hrel.
  destruct (process_rules app ext (url_map app) _) as [st1|e1],
           (process_rules app ext (url_map app) _) as [st2|e2];
    simpl in *; try assumption.
  destruct Hrel as (Hs & Hp & Hb1 & Hb2). split; [|assumption].
  unfold view; simpl. now apply document_value_same.
Qed.

(* ---------------------------------------------------------------- *)
(** ** Regeneration *)

(** C9 (idempotent regeneration): for a fixed route table, annotations
    and extension, two invocations of the assembler, in whatever stores
    they run, end alike: with the same exception, or with documents that
    read the same (equal paths and Path Items, components, info, tags and
    servers).  In particular a second invocation in the store left by a
    first one returns an equal document, and leaves the first document
    as it was: each run accumulates into mappings and cells of its own. *)
Theorem regeneration_deterministic app ext h1 h2 :
  res_map view (_build_openapi_schema camelize lower app ext h1) =
  res_map view (_build_openapi_schema camelize lower app ext h2)
  /\ (forall doc1 h1',
         _build_openapi_schema camelize lower app ext h1 = Ok (doc1, h1') ->
         exists doc2 h2',
           _build_openapi_schema camelize lower app ext h1' = Ok (doc2, h2')
           /\ document_value h2' doc2 = document_value h1' doc1
           /\ document_value h2' doc1 = document_value h1' doc1).
Proof.
  split.
  - pose proof (build_same_view app ext h1 h2) as Hrel.
    destruct (_build_openapi_schema camelize lower app ext h1) as [dh1|e1],
             (_build_openapi_schema camelize lower app ext h2) as [dh2|e2];
      simpl in *; try contradiction.
    + destruct Hrel as [-> _]; reflexivity.
    + now subst.
  - intros doc1 h1' Hbuild.
    pose proof (build_same_view app ext h1 h1') as Hrel.
    rewrite Hbuild in Hrel.
    destruct (_build_openapi_schema camelize lower app ext h1')
      as [[doc2 h2']|e2] eqn:Hbuild2; simpl in Hrel; [|contradiction].
    destruct Hrel as [Hview Hbelow]. unfold view in Hview; simpl in *.
    exists doc2, h2'. split; [reflexivity|]. split; [now symmetry|].
    destruct (build_inv _ _ _ Hbuild2) as (st & Hrun & _ & _ & ->).
    destruct (process_rules_heap_grows _ _ _ _ Hrun) as [objs Hobjs].
    simpl in Hobjs. rewrite Hobjs.
    apply document_value_same; try reflexivity.
    now apply resolved_app_below.
Qed.

(* ---------------------------------------------------------------- *)
(** ** The Path Item of a route *)

Lemma skipped_GET r : skipped r (str "GET") = false.
Proof. reflexivity. Qed.

Lemma skipped_POST r : skipped r (str "POST") = false.
Proof. reflexivity. Qed.

Lemma In_emitted_of_method r m :
  In m (methods r) -> skipped r m = false ->
  In (KStr (lower m)) (emitted_verbs r).
Proof.
  intros Hin Hs. unfold emitted_verbs, emitted_of.
  apply in_map_iff. exists m; split; [reflexivity|].
  apply filter_In; split; [assumption|]. now rewrite Hs.
Qed.

(** C3 (Path Item sharing): for a visible route one Path Item is built,
    in one cell of the store, and when the route has been processed every
    verb it emits holds a reference to that cell.  The references are
    still there in the returned document, unless a route processed later
    has taken the entry of the same path and verb.  So for a route
    registered under GET and POST, [paths[path]["get"]] and
    [paths[path]["post"]] are the same object: a mutation made through
    one verb entry is observed through the other. *)
Theorem path_item_shared app ext h pre r post func doc h' :
  url_map app = pre ++ r :: post ->
  dict_get (view_functions app) (KStr (endpoint r)) = Some func ->
  hidden func = false ->
  _build_openapi_schema camelize lower app ext h = Ok (doc, h') ->
  exists l path_object st1,
    process_rules app ext (pre ++ [r]) (initial_state h) = Ok st1
    /\ heap_get (st_heap st1) l = Some path_object
    /\ heap_get h' l = Some path_object
    /\ (forall m, In m (methods r) -> skipped r m = false ->
          lookup2 (st_paths st1) (KStr (openapi_path r)) (KStr (lower m)) =
          Some l)
    /\ (forall m, In m (methods r) -> skipped r m = false ->
          (forall r', In r' post ->
             ~ emits app r' (KStr (openapi_path r)) (KStr (lower m))) ->
          verb_ref doc (openapi_path r) (lower m) = Some l)
    /\ (forall v1 v2 f,
          verb_ref doc (openapi_path r) v1 = Some l ->
          verb_ref doc (openapi_path r) v2 = Some l ->
          observe_through doc (openapi_path r) v2
            (mutate_through doc (openapi_path r) v1 f h') =
          Some (f path_object))
    /\ (In (str "GET") (methods r) -> In (str "POST") (methods r) ->
        (forall r' verb, In r' post ->
           ~ emits app r' (KStr (openapi_path r)) verb) ->
        verb_ref doc (openapi_path r) (lower (str "GET")) = Some l
        /\ verb_ref doc (openapi_path r) (lower (str "POST")) = Some l
        /\ forall f,
             observe_through doc (openapi_path r) (lower (str "POST"))
               (mutate_through doc (openapi_path r) (lower (str "GET")) f h')
             = Some (f path_object)).
Proof.
  intros Hmap Hf Hh Hbuild.
  destruct (build_inv _ _ _ Hbuild) as (st & Hrun & Hpaths & _ & ->).
  rewrite Hmap in Hrun.
  change (pre ++ r :: post) with (pre ++ [r] ++ post) in Hrun.
  rewrite app_assoc, process_rules_app in Hrun.
  inv_bind Hrun. rename a into st1. rename Ha into Hrun1.
  pose proof Hrun1 as Hrun1'.
  rewrite process_rules_app in Hrun1'. inv_bind Hrun1'.
  rename a into st0. simpl in Hrun1'. inv_bind Hrun1'.
  injection Hrun1' as ->.
  rewrite (process_rule_visible _ _ _ _ Hf Hh) in Ha0.
  inv_bind Ha0. destruct a as [schemas po]. injection Ha0 as <-.
  destruct (process_rules_heap_grows _ _ _ _ Hrun) as [objs Hobjs].
  simpl in Hobjs.
  set (l := length (st_heap st0)) in *.
  assert (Hcell : heap_get (st_heap st0 ++ [po]) l = Some po)
    by apply heap_get_alloc_new.
  assert (Hcell' : heap_get (st_heap st) l = Some po).
  { rewrite Hobjs, heap_get_app_old; [assumption|].
    rewrite length_app; simpl; lia. }
  assert (Hshared : forall v1 v2 f,
    verb_ref doc (openapi_path r) v1 = Some l ->
    verb_ref doc (openapi_path r) v2 = Some l ->
    observe_through doc (openapi_path r) v2
      (mutate_through doc (openapi_path r) v1 f (st_heap st)) =
    Some (f po)).
  { intros v1 v2 f H1 H2. unfold observe_through, mutate_through.
    rewrite H1, H2, Hcell'.
    apply heap_get_put_same. eapply heap_get_bound; eassumption. }
  assert (Hkept : forall m, In m (methods r) -> skipped r m = false ->
    (forall r', In r' post ->
       ~ emits app r' (KStr (openapi_path r)) (KStr (lower m))) ->
    verb_ref doc (openapi_path r) (lower m) = Some l).
  { intros m Hm Hs Hno.
    change (verb_ref doc (openapi_path r) (lower m))
      with (lookup2 (paths doc) (KStr (openapi_path r)) (KStr (lower m))).
    rewrite Hpaths.
    erewrite process_rules_lookup_keep; [|exact Hrun|exact Hno].
    simpl. apply attach_step_emitted. now apply In_emitted_of_method. }
  exists l, po.
  eexists. split; [exact Hrun1|]. simpl.
  split; [assumption|]. split; [assumption|]. split.
  { intros m Hm Hs. apply attach_step_emitted.
    now apply In_emitted_of_method. }
  split; [exact Hkept|]. split; [exact Hshared|].
  intros Hget Hpost Hno.
  assert (H1 : verb_ref doc (openapi_path r) (lower (str "GET")) = Some l)
    by (apply Hkept; auto using skipped_GET).
  assert (H2 : verb_ref doc (openapi_path r) (lower (str "POST")) = Some l)
    by (apply Hkept; auto using skipped_POST).
  auto.
Qed.

(* ---------------------------------------------------------------- *)
(** ** The Path Item under construction *)

Ltac key_neq := let E := fresh in intro E; vm_compute in E; discriminate.

Opaque fragment.

Lemma append_parameters_spec params po l :
  dict_get po (skey "parameters") = Some (PList l) ->
  append_parameters params po =
  Ok (dict_set po (skey "parameters") (PList (l ++ params))).
Proof.
  revert po l; induction params as [|x params IH]; intros po l Hget; simpl.
  - now rewrite app_nil_r, (dict_set_get_id _ _ Hget).
  - unfold append_in; rewrite Hget; simpl.
    rewrite (IH _ (l ++ [x])) by apply dict_get_set_same.
    now rewrite dict_set_set, <- app_assoc.
Qed.

Lemma add_responses_spec ext items schemas po R :
  dict_get po (skey "responses") = Some (PDict R) ->
  add_responses ext items schemas po =
  (schemas' <-
     merge_all schemas (map (fun it => fst (frag ext (snd it))) items) ;;
   Ok (schemas',
       dict_set po (skey "responses") (PDict (responses_of ext items R)))).
Proof.
  revert schemas po R; induction items as [|[status m] items IH];
    intros schemas po R Hget; simpl.
  - now rewrite (dict_set_get_id _ _ Hget).
  - destruct (frag ext m) as [definitions schema] eqn:Hfrag; simpl.
    destruct (update_schemas schemas definitions) as [s1|e]; simpl;
      [|reflexivity].
    unfold setitem_in; rewrite Hget; simpl.
    rewrite (IH _ _ (dict_set R status (response_object schema m)))
      by apply dict_get_set_same.
    destruct (merge_all s1 _); simpl; [|reflexivity].
    now rewrite dict_set_set.
Qed.

Lemma add_doc_keeps func po po' k :
  add_doc func po = Ok po' ->
  k <> skey "description" -> k <> skey "summary" ->
  dict_get po' k = dict_get po k.
Proof.
  unfold add_doc; intros H Hd Hs.
  destruct (doc func) as [d|]; [|now injection H as <-].
  destruct (splitlines d) as [|summary description]; [discriminate|].
  injection H as <-.
  rewrite !dict_get_set_other; congruence.
Qed.

(** The Path Item of a view function with a documentation string. *)
Lemma add_doc_documented func po d :
  doc func = Some d ->
  match splitlines d with
  | summary :: description =>
      exists po',
        add_doc func po = Ok po'
        /\ dict_get po' (skey "summary") = Some (PStr summary)
        /\ dict_get po' (skey "description") =
           Some (PStr (join newline description))
  | [] => add_doc func po = Raise ValueError
  end.
Proof.
  intros Hd; unfold add_doc; rewrite Hd.
  destruct (splitlines d) as [|summary description]; [reflexivity|].
  eexists; split; [reflexivity|]. split.
  - apply dict_get_set_same.
  - rewrite dict_get_set_other by key_neq. apply dict_get_set_same.
Qed.

Lemma add_doc_undocumented func po :
  doc func = None -> add_doc func po = Ok po.
Proof. intros Hd; unfold add_doc; now rewrite Hd. Qed.

Lemma merge_all_app schemas defs1 defs2 :
  merge_all schemas (defs1 ++ defs2) =
  (s <- merge_all schemas defs1 ;; merge_all s defs2).
Proof.
  revert schemas; induction defs1 as [|d defs1 IH]; intros schemas; simpl;
    [reflexivity|].
  destruct (update_schemas schemas d); simpl; auto.
Qed.

Lemma add_request_inv ext func schemas po schemas' po' :
  add_request ext func schemas po = Ok (schemas', po') ->
  merge_all schemas
    match flask_schema_request func with
    | Some (m, _) => [fst (frag ext m)]
    | None => []
    end = Ok schemas'
  /\ (forall k, k <> skey "requestBody" -> dict_get po' k = dict_get po k).
Proof.
  unfold add_request. destruct (flask_schema_request func) as [[m source]|].
  - destruct (frag ext m) as [definitions schema]; simpl. intros H.
    inv_bind H. injection H as <- <-. rewrite Ha; simpl.
    split; [reflexivity|]. intros k Hk.
    apply dict_get_set_other; congruence.
  - intros H; injection H as <- <-. auto.
Qed.

Lemma add_querystring_inv ext func schemas po schemas' po' l :
  add_querystring ext func schemas po = Ok (schemas', po') ->
  dict_get po (skey "parameters") = Some (PList l) ->
  merge_all schemas
    match flask_schema_querystring func with
    | Some m => [fst (frag ext m)]
    | None => []
    end = Ok schemas'
  /\ po' = dict_set po (skey "parameters")
             (PList (l ++ query_parameters ext func)).
Proof.
  unfold add_querystring, query_parameters.
  destruct (flask_schema_querystring func) as [m|].
  - destruct (frag ext m) as [definitions schema]; simpl. intros H Hget.
    inv_bind H. rewrite Ha; simpl. inv_bind H. rename a0 into properties.
    destruct (dict_get schema (skey "properties")) as [[]|];
      try discriminate.
    injection Ha0 as ->.
    rewrite (append_parameters_spec _ _ Hget) in H. simpl in H.
    injection H as <- <-. auto.
  - intros H Hget; injection H as <- <-. simpl.
    now rewrite app_nil_r, (dict_set_get_id _ _ Hget).
Qed.

(** What [build_path_object] returns, when it returns: the table after
    the merges of the response, request and query-string definitions, in
    this order, and a Path Item whose [responses] and [parameters] are
    those of the annotations. *)
Lemma build_path_object_inv ext func r schemas schemas' po :
  build_path_object ext func r schemas = Ok (schemas', po) ->
  let items := match flask_schema_response func with
               | Some d => d
               | None => []
               end in
  merge_all schemas
    (map (fun it => fst (frag ext (snd it))) items
     ++ match flask_schema_request func with
        | Some (m, _) => [fst (frag ext m)]
        | None => []
        end
     ++ match flask_schema_querystring func with
        | Some m => [fst (frag ext m)]
        | None => []
        end) = Ok schemas'
  /\ dict_get po (skey "responses") = Some (PDict (responses_of ext items []))
  /\ dict_get po (skey "parameters") =
     Some (PList (query_parameters ext func ++ path_parameters r))
  /\ (doc func = None ->
      dict_get po (skey "summary") = None
      /\ dict_get po (skey "description") = None).
Proof.
  intros H. unfold build_path_object in H. cbv zeta.
  set (items := match flask_schema_response func with
                | Some d => d
                | None => []
                end) in *.
  inv_bind H. rename a into po1. rename Ha into Hdoc.
  assert (Hr1 : dict_get po1 (skey "responses") = Some (PDict []))
    by (rewrite (add_doc_keeps _ _ Hdoc) by key_neq; reflexivity).
  assert (Hp1 : dict_get po1 (skey "parameters") = Some (PList []))
    by (rewrite (add_doc_keeps _ _ Hdoc) by key_neq; reflexivity).
  rewrite (add_responses_spec _ _ _ _ Hr1) in H.
  inv_bind H. destruct a as [s1 po2]. inv_bind Ha. rename a into s1'.
  injection Ha as <- <-. rename Ha0 into Hm1.
  inv_bind H. destruct a as [s2 po3]. rename Ha into Hreq.
  inv_bind H. destruct a as [s3 po4]. rename Ha into Hqs.
  inv_bind H. rename a into po5. rename Ha into Hpp. injection H as <- <-.
  apply add_request_inv in Hreq as [Hm2 Hkeep].
  assert (Hp3 : dict_get po3 (skey "parameters") = Some (PList [])).
  { rewrite Hkeep by key_neq. now rewrite dict_get_set_other by key_neq. }
  apply (add_querystring_inv _ _ _ _ Hqs) in Hp3 as [Hm3 ->].
  unfold add_path_parameters in Hpp.
  rewrite (append_parameters_spec _ _ (dict_get_set_same _ _ _)) in Hpp.
  injection Hpp as <-. rewrite dict_set_set. simpl.
  split; [|split; [|split]].
  - rewrite merge_all_app, Hm1; simpl.
    rewrite merge_all_app, Hm2; simpl. exact Hm3.
  - rewrite dict_get_set_other, Hkeep by key_neq. apply dict_get_set_same.
  - apply dict_get_set_same.
  - intros Hnone. rewrite (add_doc_undocumented _ _ Hnone) in Hdoc.
    injection Hdoc as <-.
    rewrite !dict_get_set_other, !Hkeep by key_neq.
    rewrite !dict_get_set_other by key_neq. split; reflexivity.
Qed.

(* ---------------------------------------------------------------- *)
(** ** The component table *)

Lemma update_schemas_inv schemas d schemas' :
  update_schemas schemas d = Ok schemas' ->
  exists defs, d = PDict defs /\ schemas' = dict_update schemas defs.
Proof.
  destruct d; simpl; try discriminate.
  intros H; injection H as <-. eauto.
Qed.

Lemma merge_all_grows schemas defs schemas' :
  merge_all schemas defs = Ok schemas' ->
  (NoDup (keys schemas) -> NoDup (keys schemas'))
  /\ (forall k, In k (keys schemas) -> In k (keys schemas'))
  /\ (forall d k, In (PDict d) defs -> In k (keys d) ->
                  In k (keys schemas')).
Proof.
  revert schemas; induction defs as [|d0 defs IH]; intros schemas H;
    simpl in H.
  - injection H as <-. repeat split; auto. intros d k [].
  - inv_bind H. apply update_schemas_inv in Ha as (defs0 & -> & ->).
    destruct (IH _ H) as (Hnd & Hmono & Hnew). repeat split.
    + auto using NoDup_keys_dict_update.
    + intros k Hk. apply Hmono, keys_dict_update. now left.
    + intros d k [E|Hin] Hk.
      * injection E as <-. apply Hmono, keys_dict_update. now right.
      * eauto.
Qed.

Lemma process_rule_schemas_grow app ext r st st' :
  process_rule app ext r st = Ok st' ->
  (NoDup (keys (st_schemas st)) -> NoDup (keys (st_schemas st')))
  /\ (forall k, In k (keys (st_schemas st)) -> In k (keys (st_schemas st'))).
Proof.
  intros H. apply process_rule_inv in H
    as [(_ & _ & ->)|(func & schemas & po & _ & _ & _ & _ & Hpo & ->)];
    [auto|].
  simpl. apply build_path_object_inv in Hpo as (Hm & _).
  apply merge_all_grows in Hm as (? & ? & _). auto.
Qed.

Lemma process_rules_schemas_grow app ext rules st st' :
  process_rules app ext rules st = Ok st' ->
  (NoDup (keys (st_schemas st)) -> NoDup (keys (st_schemas st')))
  /\ (forall k, In k (keys (st_schemas st)) -> In k (keys (st_schemas st'))).
Proof.
  revert st; induction rules as [|r rules IH]; intros st H; simpl in H.
  - injection H as <-. auto.
  - inv_bind H. apply process_rule_schemas_grow in Ha as [? ?].
    apply IH in H as [? ?]. auto.
Qed.

(* ---------------------------------------------------------------- *)
(** ** When the assembler returns *)

Lemma merge_all_total schemas defs :
  Forall (fun d => exists x, d = PDict x) defs ->
  exists schemas', merge_all schemas defs = Ok schemas'.
Proof.
  intros H; revert schemas; induction H as [|d defs [x ->] _ IH];
    intros schemas; simpl; eauto.
Qed.

Lemma build_path_object_total ext func r schemas :
  func_ok ext func ->
  exists schemas' po, build_path_object ext func r schemas = Ok (schemas', po).
Proof.
  intros (Hdoc & Hresp & Hreq & Hqs). unfold build_path_object.
  destruct (add_doc func
              (mk_dict [(skey "parameters", PList []);
                        (skey "responses", PDict [])])) as [po1|e] eqn:Hd.
  2:{ exfalso. apply Hdoc. eapply add_doc_raises; eauto. }
  assert (Hr1 : dict_get po1 (skey "responses") = Some (PDict []))
    by (rewrite (add_doc_keeps _ _ Hd) by key_neq; reflexivity).
  assert (Hp1 : dict_get po1 (skey "parameters") = Some (PList []))
    by (rewrite (add_doc_keeps _ _ Hd) by key_neq; reflexivity).
  simpl. rewrite (add_responses_spec _ _ _ _ Hr1).
  set (items := match flask_schema_response func with
                | Some d => d
                | None => []
                end).
  assert (Hitems : Forall (fun it => model_ok ext (snd it)) items).
  { unfold items. destruct (flask_schema_response func); auto. }
  destruct (merge_all_total schemas
              (defs := map (fun it => fst (frag ext (snd it))) items))
    as [s1 Hs1].
  { apply Forall_map. exact Hitems. }
  rewrite Hs1; simpl.
  set (po2 := dict_set po1 (skey "responses") _).
  assert (Hp2 : dict_get po2 (skey "parameters") = Some (PList []))
    by (unfold po2; now rewrite dict_get_set_other by key_neq).
  assert (Hrq : exists s2 po3,
             add_request ext func s1 po2 = Ok (s2, po3)
             /\ dict_get po3 (skey "parameters") = Some (PList [])).
  { unfold add_request.
    destruct (flask_schema_request func) as [[m source]|] eqn:E; [|eauto].
    destruct (Hreq _ _ eq_refl) as [d Hm].
    destruct (frag ext m) as [definitions schema]; simpl in *. subst.
    eexists _, _; split; [reflexivity|].
    now rewrite dict_get_set_other by key_neq. }
  destruct Hrq as (s2 & po3 & -> & Hp3); simpl.
  assert (Hq : exists s3 po4 l,
             add_querystring ext func s2 po3 = Ok (s3, po4)
             /\ dict_get po4 (skey "parameters") = Some (PList l)).
  { unfold add_querystring.
    destruct (flask_schema_querystring func) as [m|] eqn:E; [|eauto].
    destruct (Hqs _ eq_refl) as [[d Hm] [properties Hprops]].
    destruct (frag ext m) as [definitions schema]; simpl in *. subst.
    rewrite Hprops; simpl.
    rewrite (append_parameters_spec _ _ Hp3); simpl.
    eexists _, _, _; split; [reflexivity | apply dict_get_set_same]. }
  destruct Hq as (s3 & po4 & l & -> & Hp4); simpl.
  unfold add_path_parameters.
  rewrite (append_parameters_spec _ _ Hp4); simpl. eauto.
Qed.

(** On an application that keeps to what the assembler relies on, the
    assembler returns a document, in any store. *)
Lemma build_total app ext h :
  app_ok app ext ->
  exists doc h', _build_openapi_schema camelize lower app ext h = Ok (doc, h').
Proof.
  intros Hok. unfold _build_openapi_schema.
  assert (Hrun : forall rules st,
             (forall r, In r rules -> In r (url_map app)) ->
             exists st', process_rules app ext rules st = Ok st').
  { induction rules as [|r rules IH]; intros st Hsub; simpl; [eauto|].
    destruct (Hok r (Hsub r (or_introl eq_refl))) as (func & Hf & Hfunc).
    destruct (hidden func) eqn:Hh.
    - rewrite (process_rule_hidden _ _ _ _ Hf Hh); simpl.
      apply IH. intros; apply Hsub; simpl; auto.
    - rewrite (process_rule_visible _ _ _ _ Hf Hh).
      destruct (build_path_object_total r (st_schemas st) (Hfunc eq_refl))
        as (schemas & po & ->). simpl.
      apply IH. intros; apply Hsub; simpl; auto. }
  destruct (Hrun (url_map app)
              {| st_paths := []; st_schemas := []; st_heap := h |}) as [st ->];
    [auto|].
  simpl. eauto.
Qed.

(* ---------------------------------------------------------------- *)
(** ** The parts of a Path Item *)

Lemma build_path_object_steps ext func r schemas schemas' po :
  build_path_object ext func r schemas = Ok (schemas', po) ->
  exists po1 s1 po2 s2 po3 po4,
    add_doc func
      (mk_dict [(skey "parameters", PList []); (skey "responses", PDict [])])
    = Ok po1
    /\ add_responses ext
         match flask_schema_response func with
         | Some d => d
         | None => []
         end schemas po1 = Ok (s1, po2)
    /\ add_request ext func s1 po2 = Ok (s2, po3)
    /\ add_querystring ext func s2 po3 = Ok (schemas', po4)
    /\ add_path_parameters r po4 = Ok po.
Proof.
  unfold build_path_object. intros H.
  inv_bind H. rename a into po1.
  inv_bind H. destruct a as [s1 po2].
  inv_bind H. destruct a as [s2 po3].
  inv_bind H. destruct a as [s3 po4].
  inv_bind H. injection H as <- <-.
  exists po1, s1, po2, s2, po3, po4. auto.
Qed.

Lemma add_querystring_properties ext func schemas po schemas' po' m :
  add_querystring ext func schemas po = Ok (schemas', po') ->
  flask_schema_querystring func = Some m ->
  exists properties,
    dict_get (snd (frag ext m)) (skey "properties") = Some (PDict properties).
Proof.
  unfold add_querystring. intros H Hm. rewrite Hm in H.
  destruct (frag ext m) as [definitions schema]; simpl in *.
  inv_bind H. inv_bind H.
  destruct (dict_get schema (skey "properties")) as [[]|]; try discriminate.
  eauto.
Qed.

Lemma path_parameter_value name :
  path_parameter name =
  PDict [(skey "name", key_value name); (skey "in", PStr (str "path"))].
Proof. reflexivity. Qed.

Lemma query_parameter_value name type_ :
  query_parameter name type_ =
  PDict [(skey "name", key_value name); (skey "in", PStr (str "query"));
         (skey "schema", type_)].
Proof. reflexivity. Qed.

(** X5 (the parameters of a Path Item, lines 293-316): whenever the Path
    Item of a route is built, its [parameters] list holds one entry
    [{name, in: "query", schema}] per property of the query-string
    fragment, in the order of the fragment's [properties], or none without
    a query-string model, followed by one entry [{name, in: "path"}] per
    converter of the rule, in the order of the rule, which has no [schema]
    key. *)
Theorem path_item_parameters ext func r schemas schemas' po :
  build_path_object ext func r schemas = Ok (schemas', po) ->
  exists query,
    dict_get po (skey "parameters") =
    Some (PList
            (query
             ++ map (fun name =>
                       PDict [(skey "name", key_value name);
                              (skey "in", PStr (str "path"))])
                  (keys (_converters r))))
    /\ match flask_schema_querystring func with
       | Some m =>
           exists properties,
             dict_get (snd (frag ext m)) (skey "properties") =
             Some (PDict properties)
             /\ query =
                map (fun kv =>
                       PDict [(skey "name", key_value (fst kv));
                              (skey "in", PStr (str "query"));
                              (skey "schema", snd kv)])
                  properties
       | None => query = []
       end.
Proof.
  intros H.
  destruct (build_path_object_steps _ _ _ _ H)
    as (po1 & s1 & po2 & s2 & po3 & po4 & _ & _ & _ & Hqs & _).
  apply build_path_object_inv in H as (_ & _ & Hp & _).
  exists (query_parameters ext func). split.
  - rewrite Hp. unfold path_parameters. do 3 f_equal.
  - unfold query_parameters.
    destruct (flask_schema_querystring func) as [m|] eqn:Hm; [|reflexivity].
    destruct (add_querystring_properties _ _ _ _ Hqs Hm) as [properties Hprops].
    exists properties. rewrite Hprops. auto.
Qed.

(** X6 (the request body, lines 272-291): whenever the Path Item of a
    route is built, it has a [requestBody] exactly when the view function
    has a request annotation; its [content] then has one media type,
    "application/json" for the JSON source and
    "application/x-www-form-urlencoded" otherwise, whose [schema] is the
    request model's fragment without its definitions. *)
Theorem path_item_request_body ext func r schemas schemas' po :
  build_path_object ext func r schemas = Ok (schemas', po) ->
  match flask_schema_request func with
  | Some (m, source) =>
      dict_get po (skey "requestBody") =
      Some (PDict
              [(skey "content",
                PDict
                  [(match source with
                    | JSON => skey "application/json"
                    | FORM => skey "application/x-www-form-urlencoded"
                    end,
                    PDict [(skey "schema", PDict (snd (frag ext m)))])])])
  | None => dict_get po (skey "requestBody") = None
  end.
Proof.
  intros H.
  destruct (build_path_object_steps _ _ _ _ H)
    as (po1 & s1 & po2 & s2 & po3 & po4 & Hdoc & Hresp & Hreq & Hqs & Hpp).
  assert (Hr1 : dict_get po1 (skey "responses") = Some (PDict []))
    by (rewrite (add_doc_keeps _ _ Hdoc) by key_neq; reflexivity).
  assert (Hb1 : dict_get po1 (skey "requestBody") = None)
    by (rewrite (add_doc_keeps _ _ Hdoc) by key_neq; reflexivity).
  assert (Hp1 : dict_get po1 (skey "parameters") = Some (PList []))
    by (rewrite (add_doc_keeps _ _ Hdoc) by key_neq; reflexivity).
  rewrite (add_responses_spec _ _ _ _ Hr1) in Hresp.
  inv_bind Hresp. injection Hresp as <- <-.
  assert (Hb3 : dict_get po3 (skey "requestBody") =
                match flask_schema_request func with
                | Some (m, source) =>
                    Some (PDict
                      [(skey "content",
                        PDict
                          [(match source with
                            | JSON => skey "application/json"
                            | FORM => skey "application/x-www-form-urlencoded"
                            end,
                            PDict [(skey "schema", PDict (snd (frag ext m)))])])])
                | None => None
                end).
  { unfold add_request in Hreq.
    destruct (flask_schema_request func) as [[m source]|].
    - destruct (frag ext m) as [definitions schema]; simpl in *.
      inv_bind Hreq. injection Hreq as <- <-.
      rewrite dict_get_set_same. destruct source; reflexivity.
    - injection Hreq as <- <-.
      now rewrite dict_get_set_other by key_neq. }
  assert (Hp3 : dict_get po3 (skey "parameters") = Some (PList [])).
  { apply add_request_inv in Hreq as [_ Hkeep].
    rewrite Hkeep by key_neq. now rewrite dict_get_set_other by key_neq. }
  apply (add_querystring_inv _ _ _ _ Hqs) in Hp3 as [_ ->].
  unfold add_path_parameters in Hpp.
  rewrite (append_parameters_spec _ _ (dict_get_set_same _ _ _)) in Hpp.
  injection Hpp as <-.
  rewrite !dict_get_set_other by key_neq. rewrite Hb3.
  destruct (flask_schema_request func) as [[m source]|]; reflexivity.
Qed.

(** X7 (summary and description, lines 251-254): whenever the Path Item
    of a route is built, a view function with a documentation string gives
    it a [summary], the first line of the string, which holds no line
    boundary, and a [description], the remaining lines joined by a
    newline; a view function without documentation string gives it
    neither key. *)
Theorem path_item_summary ext func r schemas schemas' po :
  build_path_object ext func r schemas = Ok (schemas', po) ->
  match doc func with
  | Some d =>
      exists summary description,
        splitlines d = summary :: description
        /\ dict_get po (skey "summary") = Some (PStr summary)
        /\ dict_get po (skey "description") =
           Some (PStr (join newline description))
        /\ Forall (fun c => is_linebreak c = false) summary
  | None =>
      dict_get po (skey "summary") = None
      /\ dict_get po (skey "description") = None
  end.
Proof.
  intros H.
  destruct (doc func) as [d|] eqn:Hd.
  2:{ apply build_path_object_inv in H as (_ & _ & _ & Hnone). auto. }
  destruct (build_path_object_steps _ _ _ _ H)
    as (po1 & s1 & po2 & s2 & po3 & po4 & Hdoc & Hresp & Hreq & Hqs & Hpp).
  pose proof (add_doc_documented func
                (mk_dict [(skey "parameters", PList []);
                          (skey "responses", PDict [])]) Hd) as Hdocd.
  pose proof (splitlines_lines d) as Hlines.
  destruct (splitlines d) as [|summary description];
    [rewrite Hdoc in Hdocd; discriminate|].
  destruct Hdocd as (po1' & Hdoc' & Hs & Hdesc).
  rewrite Hdoc in Hdoc'. injection Hdoc' as <-.
  assert (Hr1 : dict_get po1 (skey "responses") = Some (PDict []))
    by (rewrite (add_doc_keeps _ _ Hdoc) by key_neq; reflexivity).
  assert (Hp1 : dict_get po1 (skey "parameters") = Some (PList []))
    by (rewrite (add_doc_keeps _ _ Hdoc) by key_neq; reflexivity).
  rewrite (add_responses_spec _ _ _ _ Hr1) in Hresp.
  inv_bind Hresp. injection Hresp as <- <-.
  apply add_request_inv in Hreq as [_ Hkeep].
  assert (Hp3 : dict_get po3 (skey "parameters") = Some (PList [])).
  { rewrite Hkeep by key_neq. now rewrite dict_get_set_other by key_neq. }
  apply (add_querystring_inv _ _ _ _ Hqs) in Hp3 as [_ ->].
  unfold add_path_parameters in Hpp.
  rewrite (append_parameters_spec _ _ (dict_get_set_same _ _ _)) in Hpp.
  injection Hpp as <-.
  exists summary, description. split; [reflexivity|].
  rewrite !dict_get_set_other, !Hkeep by key_neq.
  rewrite !dict_get_set_other by key_neq.
  split; [assumption|]. split; [assumption|]. now inversion Hlines.
Qed.

Lemma dict_set_fresh {V} (d : dict V) k v :
  ~ In k (keys d) -> dict_set d k v = d ++ [(k, v)].
Proof.
  induction d as [|[k' v'] d IH]; simpl; intros Hnot; [reflexivity|].
  rewrite pykey_eqb_neq by (intros ->; apply Hnot; now left).
  rewrite IH; [reflexivity|]. intros Hin; apply Hnot; now right.
Qed.

Lemma responses_of_keys ext items acc status :
  In status (keys (responses_of ext items acc)) <->
  In status (keys acc) \/ In status (keys items).
Proof.
  unfold responses_of. revert acc; induction items as [|[k m] items IH];
    intros acc; simpl.
  - tauto.
  - rewrite IH, keys_dict_set. intuition congruence.
Qed.

Lemma responses_of_NoDup ext items acc :
  NoDup (keys acc) -> NoDup (keys (responses_of ext items acc)).
Proof.
  unfold responses_of. revert acc; induction items as [|[k m] items IH];
    intros acc Hnd; simpl; auto using NoDup_keys_dict_set.
Qed.

Lemma responses_of_distinct ext items acc :
  NoDup (keys acc ++ keys items) ->
  responses_of ext items acc =
  acc ++ map (fun it =>
                (fst it,
                 response_object (snd (frag ext (snd it))) (snd it))) items.
Proof.
  unfold responses_of. revert acc; induction items as [|[k m] items IH];
    intros acc Hnd; simpl.
  - now rewrite app_nil_r.
  - rewrite dict_set_fresh.
    + rewrite IH.
      * now rewrite <- app_assoc.
      * unfold keys in *. rewrite map_app. simpl in *.
        now rewrite <- app_assoc.
    + apply NoDup_remove_2 in Hnd. intros Hin; apply Hnd.
      apply in_or_app; now left.
Qed.

Lemma response_object_value schema m :
  response_object schema m =
  PDict [(skey "content",
          PDict [(skey "application/json",
                  PDict [(skey "schema", PDict schema)])]);
         (skey "description", opt_str (model_doc m))].
Proof. reflexivity. Qed.

(** X8 (the responses of a Path Item, lines 256-270): whenever the Path
    Item of a route is built, its [responses] mapping has the status codes
    of the response annotation for keys, each once, and is empty without
    annotation; for an annotation with distinct status codes it holds, in
    the order of the annotation, one response object per status code:
    the model's fragment without its definitions as the schema of
    "application/json", and the model's documentation string, or [None],
    as description. *)
Theorem path_item_responses ext func r schemas schemas' po :
  build_path_object ext func r schemas = Ok (schemas', po) ->
  let items := match flask_schema_response func with
               | Some d => d
               | None => []
               end in
  exists responses,
    dict_get po (skey "responses") = Some (PDict responses)
    /\ NoDup (keys responses)
    /\ (forall status, In status (keys responses) <-> In status (keys items))
    /\ (NoDup (keys items) ->
        responses =
        map (fun it =>
               (fst it,
                PDict [(skey "content",
                        PDict [(skey "application/json",
                                PDict [(skey "schema",
                                        PDict (snd (frag ext (snd it))))])]);
                       (skey "description", opt_str (model_doc (snd it)))]))
          items).
Proof.
  intros H items.
  apply build_path_object_inv in H as (_ & Hr & _).
  exists (responses_of ext items []). split; [exact Hr|]. split.
  - apply responses_of_NoDup. constructor.
  - split.
    + intros status. rewrite responses_of_keys. simpl. tauto.
    + intros Hnd. now rewrite responses_of_distinct.
Qed.

(* ---------------------------------------------------------------- *)
(** ** Where the entries of the component table come from *)

Lemma dict_get_set_inv {V} (d : dict V) k0 v0 k v :
  dict_get (dict_set d k0 v0) k = Some v ->
  In (k0, v0) [(k, v)] \/ dict_get d k = Some v.
Proof.
  destruct (pykey_eqb_spec k0 k) as [->|Hk].
  - rewrite dict_get_set_same. intros E; injection E as ->. left; now left.
  - rewrite dict_get_set_other by assumption. auto.
Qed.

Lemma dict_get_update_inv {V} (d other : dict V) k v :
  dict_get (dict_update d other) k = Some v ->
  dict_get d k = Some v \/ In (k, v) other.
Proof.
  unfold dict_update. revert d; induction other as [|[k0 v0] o IH];
    intros d H; simpl in *; [auto|].
  apply IH in H as [H|H]; [|auto].
  apply dict_get_set_inv in H as [[E|[]]|H]; [|auto].
  injection E as -> ->. auto.
Qed.

Lemma merge_all_origin schemas defs schemas' :
  merge_all schemas defs = Ok schemas' ->
  Forall (fun d => exists x, d = PDict x) defs
  /\ (forall k, In k (keys schemas') <->
                In k (keys schemas)
                \/ exists d, In (PDict d) defs /\ In k (keys d))
  /\ (forall k v, dict_get schemas' k = Some v ->
                  dict_get schemas k = Some v
                  \/ exists d, In (PDict d) defs /\ In (k, v) d).
Proof.
  revert schemas; induction defs as [|d0 defs IH]; intros schemas H;
    simpl in H.
  - injection H as <-. split; [constructor|]. split.
    + intros k; split; [auto | intros [?|(d & [] & _)]; assumption].
    + auto.
  - inv_bind H. apply update_schemas_inv in Ha as (defs0 & -> & ->).
    destruct (IH _ H) as (Hall & Hkeys & Hvals). split; [|split].
    + constructor; eauto.
    + intros k. rewrite Hkeys, keys_dict_update. split.
      * intros [[?|?]|(d & ? & ?)]; simpl; eauto 6.
      * intros [?|(d & [E|?] & ?)]; [auto | | eauto].
        injection E as <-. auto.
    + intros k v Hget. apply Hvals in Hget as [Hget|(d & ? & ?)];
        [|simpl; eauto 6].
      apply dict_get_update_inv in Hget as [?|?]; simpl; eauto 6.
Qed.

Lemma build_path_object_defs ext func r schemas schemas' po :
  build_path_object ext func r schemas = Ok (schemas', po) ->
  merge_all schemas (map (fun m => fst (frag ext m)) (models_of func)) =
  Ok schemas'.
Proof.
  intros H. apply build_path_object_inv in H as (Hm & _).
  unfold models_of. rewrite !map_app, map_map.
  destruct (flask_schema_request func) as [[m source]|],
           (flask_schema_querystring func) as [m'|]; exact Hm.
Qed.

(** The component table after a list of rules: its names and its entries
    are those it had and those of the definitions of the models of the
    visible rules. *)
Lemma process_rules_components app ext rules st st' :
  process_rules app ext rules st = Ok st' ->
  (forall k, In k (keys (st_schemas st')) <->
             In k (keys (st_schemas st))
             \/ exists r func m d,
                  In r rules
                  /\ dict_get (view_functions app) (KStr (endpoint r)) =
                     Some func
                  /\ hidden func = false
                  /\ In m (models_of func)
                  /\ fst (frag ext m) = PDict d
                  /\ In k (keys d))
  /\ (forall k v, dict_get (st_schemas st') k = Some v ->
                  dict_get (st_schemas st) k = Some v
                  \/ exists r func m d,
                       In r rules
                       /\ dict_get (view_functions app) (KStr (endpoint r)) =
                          Some func
                       /\ hidden func = false
                       /\ In m (models_of func)
                       /\ fst (frag ext m) = PDict d
                       /\ In (k, v) d).
Proof.
  revert st; induction rules as [|r rules IH]; intros st H; simpl in H.
  - injection H as <-. split.
    + intros k; split; [auto|]. intros [?|(r & ? & ? & ? & [] & _)]; auto.
    + auto.
  - inv_bind H. destruct (IH _ H) as [Hkeys Hvals]. clear IH.
    apply process_rule_inv in Ha
      as [(Hhr & _ & ->)|(func & schemas & po & Hf & Hh & _ & _ & Hpo & ->)].
    + split.
      * intros k. rewrite Hkeys. split.
        -- intros [?|(r' & f & m & d & ? & ?)]; [auto|].
           right. exists r', f, m, d. simpl; tauto.
        -- intros [?|(r' & f & m & d & [E|?] & Hf' & Hh' & ?)]; [auto| |].
           ++ exfalso. subst r'. unfold hidden_rule in Hhr.
              rewrite Hf' in Hhr. congruence.
           ++ right. exists r', f, m, d. tauto.
      * intros k v Hget. apply Hvals in Hget as [?|(r' & f & m & d & ? & ?)];
          [auto|].
        right. exists r', f, m, d. simpl; tauto.
    + simpl in *. apply build_path_object_defs in Hpo.
      apply merge_all_origin in Hpo as (_ & Hk1 & Hv1). split.
      * intros k. rewrite Hkeys, Hk1. split.
        -- intros [[?|(d & Hd & Hin)]|(r' & f & m & d & ? & ?)]; [auto | |].
           ++ apply in_map_iff in Hd as (m & Hm & Hmin).
              right. exists r, func, m, d. auto 10.
           ++ right. exists r', f, m, d. tauto.
        -- intros [?|(r' & f & m & d & [<-|?] & Hf' & Hh' & Hm & Hd & Hin)].
           ++ auto.
           ++ rewrite Hf in Hf'. injection Hf' as <-.
              left. right. exists d. split; [|assumption].
              apply in_map_iff. exists m; auto.
           ++ right. exists r', f, m, d. tauto.
      * intros k v Hget. apply Hvals in Hget as [Hget|(r' & f & m & d & ? & ?)].
        -- apply Hv1 in Hget as [?|(d & Hd & Hin)]; [auto|].
           apply in_map_iff in Hd as (m & Hm & Hmin).
           right. exists r, func, m, d. auto 10.
        -- right. exists r', f, m, d. tauto.
Qed.

(** X9 (the component table, lines 256-300): in a built document the table
    [components["schemas"]] holds no name twice; its names are exactly the
    names defined by the fragments of the response, request and
    query-string models of the visible routes, so that every sub-schema
    such a fragment refers to by one of its own definitions is in the
    table; and every entry of the table is an entry of one of these
    definitions: nothing comes from a hidden route, and nothing is made
    up. *)
Theorem components_origin app ext h doc h' :
  _build_openapi_schema camelize lower app ext h = Ok (doc, h') ->
  NoDup (keys (components doc))
  /\ (forall k, In k (keys (components doc)) <->
                exists r func m d,
                  In r (url_map app)
                  /\ dict_get (view_functions app) (KStr (endpoint r)) =
                     Some func
                  /\ hidden func = false
                  /\ In m (models_of func)
                  /\ fst (frag ext m) = PDict d
                  /\ In k (keys d))
  /\ (forall k v, dict_get (components doc) k = Some v ->
                  exists r func m d,
                    In r (url_map app)
                    /\ dict_get (view_functions app) (KStr (endpoint r)) =
                       Some func
                    /\ hidden func = false
                    /\ In m (models_of func)
                    /\ fst (frag ext m) = PDict d
                    /\ In (k, v) d).
Proof.
  intros Hbuild.
  destruct (build_inv _ _ _ Hbuild) as (st & Hrun & _ & -> & _).
  destruct (process_rules_schemas_grow _ _ _ _ Hrun) as [Hnd _].
  destruct (process_rules_components _ _ _ _ Hrun) as [Hkeys Hvals].
  simpl in *. split; [apply Hnd; constructor|]. split.
  - intros k. rewrite Hkeys. split; [intros [[]|?]; assumption | auto].
  - intros k v Hget. apply Hvals in Hget as [?|?]; [discriminate|assumption].
Qed.

(* ---------------------------------------------------------------- *)
(** ** The keys of [paths] *)

Lemma NoDup_keys_setdefault {V} (d : dict V) k v :
  NoDup (keys d) -> NoDup (keys (dict_setdefault d k v)).
Proof.
  unfold dict_setdefault. destruct (dict_get d k);
    auto using NoDup_keys_dict_set.
Qed.

Lemma attach_step_NoDup {V} r (x : V) ps :
  NoDup (keys ps) -> NoDup (keys (attach_step r x ps)).
Proof.
  intros Hnd. unfold attach_step.
  destruct (dict_get _ _);
    auto using NoDup_keys_dict_set, NoDup_keys_setdefault.
Qed.

Lemma attach_step_has_path {V} r (x : V) ps p :
  (exists verbs, dict_get (attach_step r x ps) p = Some verbs) <->
  (exists verbs, dict_get ps p = Some verbs) \/ p = KStr (openapi_path r).
Proof.
  pose proof (attach_step_path_key r x ps p) as Hnone.
  destruct (dict_get (attach_step r x ps) p) as [verbs|] eqn:E.
  - split; [intros _ | eauto].
    destruct (dict_get ps p) as [verbs0|]; [eauto|].
    destruct (pykey_eqb_spec p (KStr (openapi_path r))) as [->|Hp]; [auto|].
    destruct Hnone as [_ Hn]. discriminate (Hn (conj eq_refl Hp)).
  - destruct Hnone as [Hnone _]. destruct (Hnone eq_refl) as [Hps Hp].
    rewrite Hps. split; [intros [? ?]; discriminate|].
    intros [[? ?]|?]; [discriminate | contradiction].
Qed.

Lemma process_rules_has_path app ext rules st st' p :
  process_rules app ext rules st = Ok st' ->
  (exists verbs, dict_get (st_paths st') p = Some verbs) <->
  (exists verbs, dict_get (st_paths st) p = Some verbs)
  \/ exists r, In r rules /\ visible app r = true
               /\ p = KStr (openapi_path r).
Proof.
  revert st; induction rules as [|r rules IH]; intros st H; simpl in H.
  - injection H as <-. split; [auto | intros [?|(r & [] & _)]; assumption].
  - inv_bind H. rewrite (IH _ H). clear IH.
    apply process_rule_inv in Ha
      as [(_ & Hv & ->)|(func & schemas & po & _ & _ & _ & Hv & _ & ->)].
    + split.
      * intros [?|(r' & ? & ?)]; [auto|]. right; exists r'; simpl; tauto.
      * intros [?|(r' & [<-|?] & Hv' & ?)]; [auto | congruence |].
        right; exists r'; tauto.
    + simpl. rewrite attach_step_has_path. split.
      * intros [[?|?]|(r' & ? & ?)]; [auto | | ].
        -- right; exists r; simpl; auto.
        -- right; exists r'; simpl; tauto.
      * intros [?|(r' & [<-|?] & Hv' & ?)]; [auto | auto |].
        right; exists r'; tauto.
Qed.

Lemma process_rules_paths_NoDup app ext rules st st' :
  process_rules app ext rules st = Ok st' ->
  NoDup (keys (st_paths st)) -> NoDup (keys (st_paths st')).
Proof.
  intros H Hst; revert rules st st' Hst H.
  apply process_rules_invariant
    with (I := fun st => NoDup (keys (st_paths st))).
  intros r st st' Hst H.
  apply process_rule_inv in H
    as [(_ & _ & ->)|(func & schemas & po & _ & _ & _ & _ & _ & ->)];
    [assumption|].
  simpl. now apply attach_step_NoDup.
Qed.

(** X10 (the keys of [paths], lines 318-325): in a built document the
    keys of [paths] are exactly the rewritten patterns of the visible
    routes, each once, whether or not the route emits a verb: a visible
    route all of whose methods are passed over, with no other visible
    route on its path, leaves an empty mapping under its path. *)
Theorem paths_keys app ext h doc h' :
  _build_openapi_schema camelize lower app ext h = Ok (doc, h') ->
  NoDup (keys (paths doc))
  /\ (forall p, In p (keys (paths doc)) <->
                exists r, In r (url_map app) /\ visible app r = true
                          /\ p = KStr (openapi_path r))
  /\ (forall r, In r (url_map app) -> visible app r = true ->
        (forall r', In r' (url_map app) -> visible app r' = true ->
                    openapi_path r' = openapi_path r ->
                    emitted_verbs r' = []) ->
        dict_get (paths doc) (KStr (openapi_path r)) = Some []).
Proof.
  intros Hbuild.
  destruct (build_inv _ _ _ Hbuild) as (st & Hrun & -> & _ & _).
  assert (Hkeys : forall p, In p (keys (st_paths st)) <->
                  exists r, In r (url_map app) /\ visible app r = true
                            /\ p = KStr (openapi_path r)).
  { intros p. rewrite <- dict_get_Some_iff.
    rewrite (process_rules_has_path _ _ _ _ p Hrun). simpl.
    split; [intros [[? ?]|?]; [discriminate | assumption] | auto]. }
  split; [|split; [exact Hkeys|]].
  - apply (process_rules_paths_NoDup _ _ _ _ Hrun). constructor.
  - intros r Hr Hv Hempty.
    assert (Hin : In (KStr (openapi_path r)) (keys (st_paths st)))
      by (apply Hkeys; eauto).
    apply dict_get_Some_iff in Hin as [verbs Hverbs]. rewrite Hverbs.
    f_equal. destruct verbs as [|[verb l] verbs]; [reflexivity|].
    exfalso.
    assert (Hl : exists l0, lookup2 (st_paths st) (KStr (openapi_path r)) verb
                            = Some l0).
    { unfold lookup2. rewrite Hverbs. simpl. rewrite pykey_eqb_refl. eauto. }
    apply (process_rules_lookup _ _ _ _ _ _ Hrun) in Hl
      as [[l0 Hl0]|(r' & Hr' & Hv' & Hp & Hem)]; [discriminate|].
    injection Hp as Hp. rewrite (Hempty r' Hr' Hv' (eq_sym Hp)) in Hem.
    exact Hem.
Qed.

(* ---------------------------------------------------------------- *)
(** ** The cells of a run *)

Lemma process_rules_cells app ext rules st st' :
  process_rules app ext rules st = Ok st' ->
  exists objs,
    st_heap st' = st_heap st ++ objs
    /\ length objs = length (filter (visible app) rules).
Proof.
  revert st; induction rules as [|r rules IH]; intros st H; simpl in H.
  - injection H as <-. exists []. now rewrite app_nil_r.
  - inv_bind H. destruct (IH _ H) as (objs & Hobjs & Hlen).
    apply process_rule_inv in Ha
      as [(_ & Hv & ->)|(func & schemas & po & _ & _ & _ & Hv & _ & ->)];
      simpl; rewrite Hv.
    + now exists objs.
    + exists (po :: objs). rewrite Hobjs. simpl.
      rewrite <- app_assoc. auto.
Qed.

Lemma process_rules_refs_from app ext n0 rules st st' :
  process_rules app ext rules st = Ok st' ->
  n0 <= length (st_heap st) ->
  Forall (fun pv => Forall (fun vl => n0 <= snd vl < length (st_heap st))
                      (snd pv)) (st_paths st) ->
  Forall (fun pv => Forall (fun vl => n0 <= snd vl < length (st_heap st'))
                      (snd pv)) (st_paths st').
Proof.
  intros H H0 Hst.
  enough (n0 <= length (st_heap st')
          /\ Forall (fun pv =>
                       Forall (fun vl => n0 <= snd vl < length (st_heap st'))
                         (snd pv)) (st_paths st')) by tauto.
  pose proof (conj H0 Hst) as HI. clear H0 Hst.
  revert rules st st' HI H.
  apply process_rules_invariant
    with (I := fun st =>
                 n0 <= length (st_heap st)
                 /\ Forall (fun pv =>
                              Forall (fun vl =>
                                        n0 <= snd vl < length (st_heap st))
                                (snd pv)) (st_paths st)).
  intros r st st' [Hn Hst] H.
  apply process_rule_inv in H
    as [(_ & _ & ->)|(func & schemas & po & _ & _ & _ & _ & _ & ->)];
    [auto|].
  simpl. rewrite length_app; simpl. split; [lia|].
  apply attach_step_values
    with (Q := fun verbs : dict loc =>
                 Forall (fun vl => n0 <= snd vl < length (st_heap st) + 1)
                   verbs).
  - eapply Forall_impl; [|exact Hst]. intros [p verbs] Hverbs; simpl in *.
    eapply Forall_impl; [|exact Hverbs]. intros [v l] Hl; simpl in *; lia.
  - constructor.
  - intros verbs Hverbs.
    apply attach_verbs_values
      with (Q := fun l : loc => n0 <= l < length (st_heap st) + 1);
      [assumption | lia].
Qed.

Lemma lookup2_values {V} (Q : V -> Prop) (ps : dict (dict V)) p k x :
  Forall (fun pv => Forall (fun vl => Q (snd vl)) (snd pv)) ps ->
  lookup2 ps p k = Some x -> Q x.
Proof.
  intros Hps. unfold lookup2.
  destruct (dict_get ps p) as [verbs|] eqn:E; [|discriminate].
  intros Hx.
  pose proof (Forall_values_get
                (fun verbs => Forall (fun vl => Q (snd vl)) verbs) _ Hps E)
    as Hverbs.
  exact (Forall_values_get Q _ Hverbs Hx).
Qed.

(** X11 (the cells of a run, lines 240-250 and 325): a run of the assembler
    leaves every cell of the store it starts in as it was and allocates one
    Path Item per visible rule, in the order of the rules, whatever the
    number of its verbs; every reference under [paths] is one of the new
    cells; and the cell of a visible rule holds the Path Item built for it,
    to which its verbs refer unless a later rule has taken their entry. *)
Theorem build_cells app ext h doc h' :
  _build_openapi_schema camelize lower app ext h = Ok (doc, h') ->
  (exists objs,
      h' = h ++ objs
      /\ length objs = length (filter (visible app) (url_map app)))
  /\ (forall l, l < length h -> heap_get h' l = heap_get h l)
  /\ (forall path verb l,
         verb_ref doc path verb = Some l -> length h <= l < length h')
  /\ (forall pre r post func,
         url_map app = pre ++ r :: post ->
         dict_get (view_functions app) (KStr (endpoint r)) = Some func ->
         hidden func = false ->
         exists schemas schemas' po,
           build_path_object ext func r schemas = Ok (schemas', po)
           /\ heap_get h' (length h + length (filter (visible app) pre)) =
              Some po
           /\ (forall verb,
                  In verb (emitted_verbs r) ->
                  (forall r', In r' post ->
                              ~ emits app r' (KStr (openapi_path r)) verb) ->
                  lookup2 (paths doc) (KStr (openapi_path r)) verb =
                  Some (length h + length (filter (visible app) pre)))).
Proof.
  intros Hbuild.
  destruct (build_inv _ _ _ Hbuild) as (st & Hrun & Hpaths & _ & ->).
  destruct (process_rules_cells _ _ _ _ Hrun) as (objs & Hobjs & Hlen).
  simpl in Hobjs. split; [eauto|]. split; [|split].
  - intros l Hl. rewrite Hobjs. now apply heap_get_app_old.
  - intros path verb l Hl.
    pose proof (@process_rules_refs_from app ext (length h) _ _ _ Hrun) as Hrefs.
    simpl in Hrefs. specialize (Hrefs (le_n _) (Forall_nil _)).
    rewrite <- Hpaths in Hrefs.
    exact (@lookup2_values _ (fun l => length h <= l < length (st_heap st))
             _ _ _ _ Hrefs Hl).
  - intros pre r post func Hmap Hf Hh.
    rewrite Hmap, process_rules_app in Hrun.
    inv_bind Hrun. rename a into st0. rename Ha into Hrun0.
    simpl in Hrun. inv_bind Hrun.
    rewrite (process_rule_visible _ _ _ _ Hf Hh) in Ha.
    inv_bind Ha. destruct a0 as [schemas po]. injection Ha as <-.
    destruct (process_rules_cells _ _ _ _ Hrun0) as (objs0 & Hobjs0 & Hlen0).
    destruct (process_rules_heap_grows _ _ _ _ Hrun) as [objs1 Hobjs1].
    simpl in Hobjs0, Hobjs1.
    assert (Hl : length (st_heap st0) =
                 length h + length (filter (visible app) pre))
      by (rewrite Hobjs0, length_app; lia).
    exists (st_schemas st0), schemas, po. split; [assumption|]. split.
    + rewrite <- Hl, Hobjs1, heap_get_app_old.
      * apply heap_get_alloc_new.
      * rewrite length_app; simpl; lia.
    + intros verb Hin Hno. rewrite Hpaths, <- Hl.
      erewrite process_rules_lookup_keep; [|exact Hrun|exact Hno].
      simpl. now apply attach_step_emitted.
Qed.

(* ---------------------------------------------------------------- *)
(** ** When the assembler raises *)

Lemma build_path_object_func_ok ext func r schemas schemas' po :
  build_path_object ext func r schemas = Ok (schemas', po) ->
  func_ok ext func.
Proof.
  intros H.
  destruct (build_path_object_steps _ _ _ _ H)
    as (po1 & s1 & po2 & s2 & po3 & po4 & Hdoc & _ & _ & Hqs & _).
  apply build_path_object_defs in H.
  apply merge_all_origin in H as (Hall & _).
  assert (Hmodels : forall m, In m (models_of func) -> model_ok ext m).
  { intros m Hm. rewrite Forall_forall in Hall.
    apply (Hall (fst (frag ext m))). apply in_map_iff. eauto. }
  unfold models_of in Hmodels. split; [|split; [|split]].
  - intros Hd.
    assert (Hr : exists e, add_doc func
                   (mk_dict [(skey "parameters", PList []);
                             (skey "responses", PDict [])]) = Raise e)
      by (apply add_doc_raises; assumption).
    destruct Hr as [e He]. rewrite He in Hdoc. discriminate.
  - intros items Hitems. rewrite Hitems in Hmodels.
    apply Forall_forall. intros it Hit. apply Hmodels.
    apply in_or_app; left. now apply in_map.
  - intros m source Hreq. rewrite Hreq in Hmodels. apply Hmodels.
    apply in_or_app; right. apply in_or_app; left. now left.
  - intros m Hq. split.
    + rewrite Hq in Hmodels. apply Hmodels.
      apply in_or_app; right. apply in_or_app; right. now left.
    + eapply add_querystring_properties; eassumption.
Qed.

Lemma process_rules_total app ext rules st :
  (forall r, In r rules ->
     exists func,
       dict_get (view_functions app) (KStr (endpoint r)) = Some func
       /\ (hidden func = false -> func_ok ext func)) ->
  exists st', process_rules app ext rules st = Ok st'.
Proof.
  revert st; induction rules as [|r rules IH]; intros st Hok; simpl; [eauto|].
  destruct (Hok r (or_introl eq_refl)) as (func & Hf & Hfunc).
  destruct (hidden func) eqn:Hh.
  - rewrite (process_rule_hidden _ _ _ _ Hf Hh); simpl.
    apply IH. intros; apply Hok; simpl; auto.
  - rewrite (process_rule_visible _ _ _ _ Hf Hh).
    destruct (build_path_object_total r (st_schemas st) (Hfunc eq_refl))
      as (schemas & po & ->). simpl.
    apply IH. intros; apply Hok; simpl; auto.
Qed.

Lemma build_path_object_empty_doc ext func r schemas :
  doc func = Some [] ->
  build_path_object ext func r schemas = Raise ValueError.
Proof.
  intros Hd. unfold build_path_object, add_doc. rewrite Hd. reflexivity.
Qed.

(** X12 (when the assembler returns, lines 242-308): the schema generator
    and the casing step having returned their values, a run returns a
    document when every rule has a view function and, for every visible
    one, the documentation string is not the empty string, the fragment
    of each annotated model has a mapping under "definitions" or no such
    key, and the fragment of the query-string model has a mapping under
    "properties".  A run that returns has found a view function for every
    rule, hidden or not, no empty documentation string on a visible one,
    and a "properties" entry in the fragment of every query-string model
    of a visible one.  After rules that meet the conditions, a rule
    without view function ends the run with [KeyError], and a visible
    one with an empty documentation string with [ValueError]. *)
Theorem build_returns app ext h :
  (app_ok app ext ->
   exists d h', _build_openapi_schema camelize lower app ext h = Ok (d, h'))
  /\ (forall d h',
        _build_openapi_schema camelize lower app ext h = Ok (d, h') ->
        forall r, In r (url_map app) ->
          exists func,
            dict_get (view_functions app) (KStr (endpoint r)) = Some func
            /\ (hidden func = false ->
                doc func <> Some []
                /\ forall m,
                     flask_schema_querystring func = Some m ->
                     In (skey "properties") (keys (snd (frag ext m)))))
  /\ (forall pre r post,
        url_map app = pre ++ r :: post ->
        app_ok {| url_map := pre; view_functions := view_functions app |}
          ext ->
        (dict_get (view_functions app) (KStr (endpoint r)) = None ->
         _build_openapi_schema camelize lower app ext h = Raise KeyError)
        /\ (forall func,
              dict_get (view_functions app) (KStr (endpoint r)) = Some func ->
              hidden func = false ->
              doc func = Some [] ->
              _build_openapi_schema camelize lower app ext h =
              Raise ValueError)).
Proof.
  split; [apply build_total|]. split.
  - intros d h' Hbuild.
    destruct (build_inv _ _ _ Hbuild) as (st & Hrun & _).
    clear Hbuild. revert Hrun.
    generalize ({| st_paths := []; st_schemas := []; st_heap := h |}).
    induction (url_map app) as [|r rules IH]; intros st0 Hrun; [intros r []|].
    simpl in Hrun. inv_bind Hrun. intros r' [<-|Hin]; [|eauto].
    apply process_rule_inv in Ha
      as [(Hhr & _ & ->)|(func & schemas & po & Hf & Hh & _ & _ & Hpo & ->)].
    + unfold hidden_rule in Hhr.
      destruct (dict_get (view_functions app) (KStr (endpoint r)))
        as [func|]; [|discriminate].
      exists func. split; [reflexivity|]. intros Hh; congruence.
    + exists func. split; [assumption|]. intros _.
      apply build_path_object_func_ok in Hpo as (Hdoc & _ & _ & Hqs).
      split; [assumption|]. intros m Hm.
      destruct (Hqs m Hm) as (_ & properties & Hprops).
      eapply dict_get_In; eassumption.
  - intros pre r post Hmap Hpre. unfold _build_openapi_schema.
    rewrite Hmap, process_rules_app.
    destruct (@process_rules_total app ext pre
                {| st_paths := []; st_schemas := []; st_heap := h |} Hpre)
      as [st0 ->].
    split.
    + intros Hnone. simpl. now rewrite (process_rule_missing _ _ _ _ Hnone).
    + intros func Hf Hh Hd. simpl.
      rewrite (process_rule_visible _ _ _ _ Hf Hh).
      now erewrite build_path_object_empty_doc by exact Hd.
Qed.

(** X13 (nothing to document, lines 242-245 and 327-337): when every rule
    of the application is hidden, and so for an empty route table, the
    assembler returns the document with empty [paths] and an empty
    component table, the remaining keys from the extension, and leaves
    the store as it was. *)
Theorem build_all_hidden app ext h :
  (forall r, In r (url_map app) -> hidden_rule app r = true) ->
  _build_openapi_schema camelize lower app ext h =
  Ok ({| openapi := str "3.0.3";
         info_title := title ext;
         info_version := version ext;
         components := [];
         paths := [];
         doc_tags := tags ext;
         doc_servers := servers ext |}, h).
Proof.
  intros Hall. unfold _build_openapi_schema.
  assert (Hrun : forall rules st,
             (forall r, In r rules -> hidden_rule app r = true) ->
             process_rules app ext rules st = Ok st).
  { induction rules as [|r rules IH]; intros st Hrules; [reflexivity|].
    simpl. pose proof (Hrules r (or_introl eq_refl)) as Hr.
    unfold hidden_rule in Hr.
    destruct (dict_get (view_functions app) (KStr (endpoint r)))
      as [func|] eqn:Hf; [|discriminate].
    rewrite (process_rule_hidden _ _ _ _ Hf Hr). simpl.
    apply IH. intros; apply Hrules; simpl; auto. }
  now rewrite Hrun.
Qed.

Lemma nth_error_fstore_put_same fs f attrs :
  f < length fs -> nth_error (fstore_put fs f attrs) f = Some attrs.
Proof.
  revert f; induction fs as [|x fs IH]; intros [|f] Hf; simpl in *;
    try lia; [reflexivity|].
  apply IH; lia.
Qed.

Lemma nth_error_fstore_put_other fs f g attrs :
  g <> f -> nth_error (fstore_put fs f attrs) g = nth_error fs g.
Proof.
  revert f g; induction fs as [|x fs IH]; intros [|f] [|g] Hne; simpl;
    try reflexivity; try congruence.
  apply IH; congruence.
Qed.

Lemma length_fstore_put fs f attrs :
  length (fstore_put fs f attrs) = length fs.
Proof.
  revert f; induction fs as [|x fs IH]; intros [|f]; simpl; auto.
Qed.

Lemma dict_get_views_of fs (views : dict callable) k :
  (forall k' c, In (k', c) views -> function_of c < length fs) ->
  dict_get (views_of fs views) k =
  match dict_get views k with
  | Some c => nth_error fs (function_of c)
  | None => None
  end.
Proof.
  induction views as [|[k' c] views IH]; intros Hwf; [reflexivity|].
  assert (Hc : function_of c < length fs) by (apply (Hwf k'); now left).
  unfold views_of. cbn [flat_map fst snd].
  destruct (nth_error fs (function_of c)) as [attrs|] eqn:Hn.
  - cbn [List.app dict_get].
    destruct (pykey_eqb k k'); [now rewrite Hn|].
    apply IH. intros k0 c0 Hin. apply (Hwf k0). now right.
  - apply nth_error_None in Hn. lia.
Qed.

Lemma process_rule_same_lookup app app' ext r st :
  dict_get (view_functions app) (KStr (endpoint r)) =
  dict_get (view_functions app') (KStr (endpoint r)) ->
  process_rule app ext r st = process_rule app' ext r st.
Proof. intros E. unfold process_rule. now rewrite E. Qed.

(** X14 ([hide_route] and the assembler, lines 71-78 and 243-245):
    [hide_route] applied to a function object returns that object and
    changes no other; afterwards the assembler gives the outcome it gives
    without the rules of every endpoint registered with that function
    object or with a method bound to it: all of them disappear, and only
    they.  Applied to a method object, [hide_route] raises
    [AttributeError]. *)
Theorem hide_route_hides_function fs rules views ext h :
  (forall k c, In (k, c) views -> function_of c < length fs) ->
  (forall f func fs',
      hide_route_object fs (FunctionObject f) = Ok (func, fs') ->
      func = FunctionObject f
      /\ (forall g, g <> f -> nth_error fs' g = nth_error fs g)
      /\ _build_openapi_schema camelize lower (app_of fs' rules views) ext h =
         _build_openapi_schema camelize lower
           (app_of fs (without_function rules views f) views) ext h)
  /\ (forall f, hide_route_object fs (MethodObject f) = Raise AttributeError).
Proof.
  intros Hwf. split; [|reflexivity].
  intros f func fs' Hhide. unfold hide_route_object in Hhide.
  destruct (nth_error fs f) as [attrs|] eqn:Hf; [|discriminate].
  injection Hhide as <- <-.
  assert (Hlen : f < length fs) by (apply nth_error_Some; congruence).
  split; [reflexivity|]. split.
  { intros g Hg. now apply nth_error_fstore_put_other. }
  assert (Hwf' : forall k c, In (k, c) views ->
                   function_of c
                   < length (fstore_put fs f (hide_route attrs)))
    by (intros k c Hin; rewrite length_fstore_put; eauto).
  unfold _build_openapi_schema. cbn [url_map app_of].
  generalize ({| st_paths := []; st_schemas := []; st_heap := h |}).
  assert (Hrun : forall rs st,
    process_rules
      (app_of (fstore_put fs f (hide_route attrs)) rules views) ext rs st =
    process_rules (app_of fs (without_function rules views f) views) ext
      (without_function rs views f) st).
  { induction rs as [|r rs IH]; intros st; [reflexivity|].
    unfold without_function at 2. cbn [filter].
    fold (without_function rs views f).
    unfold registered_with.
    destruct (dict_get views (KStr (endpoint r))) as [c|] eqn:Hc.
    - destruct (Nat.eqb_spec (function_of c) f) as [E|E]; cbn [negb].
      + assert (Hr : dict_get
                       (view_functions
                          (app_of (fstore_put fs f (hide_route attrs))
                             rules views))
                       (KStr (endpoint r)) = Some (hide_route attrs)).
        { cbn [view_functions app_of].
          rewrite (@dict_get_views_of _ _ _ Hwf'), Hc, E.
          now apply nth_error_fstore_put_same. }
        cbn [process_rules].
        rewrite (process_rule_hidden _ _ _ _ Hr eq_refl). simpl. apply IH.
      + cbn [process_rules].
        rewrite (@process_rule_same_lookup
                   (app_of (fstore_put fs f (hide_route attrs)) rules views)
                   (app_of fs (without_function rules views f) views)).
        * destruct (process_rule _ ext r st) as [st1|x];
            [exact (IH st1) | reflexivity].
        * cbn [view_functions app_of].
          rewrite (@dict_get_views_of _ _ _ Hwf'), (@dict_get_views_of _ _ _ Hwf).
          rewrite Hc. now apply nth_error_fstore_put_other.
    - cbn [negb process_rules].
      rewrite (@process_rule_same_lookup
                 (app_of (fstore_put fs f (hide_route attrs)) rules views)
                 (app_of fs (without_function rules views f) views)).
      + destruct (process_rule _ ext r st) as [st1|x];
          [exact (IH st1) | reflexivity].
      + cbn [view_functions app_of].
        rewrite (@dict_get_views_of _ _ _ Hwf'), (@dict_get_views_of _ _ _ Hwf).
        now rewrite Hc. }
  intros st. now rewrite Hrun.
Qed.

(* ---------------------------------------------------------------- *)
(** ** The component table as one merge *)

Lemma process_rules_merge app ext rules st st' :
  process_rules app ext rules st = Ok st' ->
  merge_all (st_schemas st) (definitions_of app ext rules) =
  Ok (st_schemas st').
Proof.
  revert st; induction rules as [|r rules IH]; intros st H; simpl in H.
  - now injection H as <-.
  - inv_bind H.
    change (definitions_of app ext (r :: rules))
      with (match dict_get (view_functions app) (KStr (endpoint r)) with
            | Some func =>
                if hidden func then []
                else map (fun m => fst (frag ext m)) (models_of func)
            | None => []
            end ++ definitions_of app ext rules).
    rewrite merge_all_app.
    apply process_rule_inv in Ha
      as [(Hhr & _ & ->)|(func & schemas & po & Hf & Hh & _ & _ & Hpo & ->)].
    + unfold hidden_rule in Hhr.
      destruct (dict_get (view_functions app) (KStr (endpoint r)));
        [|discriminate].
      rewrite Hhr. simpl. now apply IH.
    + rewrite Hf, Hh. apply build_path_object_defs in Hpo. rewrite Hpo.
      simpl. exact (IH _ H).
Qed.

Transparent fragment.
(* ---------------------------------------------------------------- *)
(** ** The references of a Path Item and of the component table *)

Lemma has_ref_stripped (s : pystr) ext m :
  has_ref s (PDict (snd (frag ext m))) = true ->
  has_ref s (PDict (generated ext m)) = true.
Proof.
  unfold fragment, _split_definitions. cbn [snd]. apply has_ref_dict_remove.
Qed.

Lemma has_ref_definitions (s : pystr) ext m d k v :
  fst (frag ext m) = PDict d -> In (k, v) d ->
  (k = skey "$ref" /\ v = PStr s) \/ has_ref s v = true ->
  has_ref s (PDict (generated ext m)) = true.
Proof.
  unfold fragment, _split_definitions. cbn [fst].
  destruct (dict_get (generated ext m) (skey "definitions")) as [x|] eqn:Hget.
  - intros -> Hin H. apply dict_get_entry in Hget.
    eapply has_ref_of_entry; [exact Hget|]. right.
    eapply has_ref_of_entry; eassumption.
  - intros [= <-] [].
Qed.

Opaque fragment.

Lemma responses_of_refs (s : pystr) ext items R :
  has_ref s (PDict (responses_of ext items R)) = true ->
  has_ref s (PDict R) = true
  \/ exists it, In it items
                /\ has_ref s (PDict (snd (frag ext (snd it)))) = true.
Proof.
  unfold responses_of. revert R; induction items as [|it items IH];
    intros R H; simpl in H; [auto|].
  apply IH in H as [H|(it' & Hin & H)]; [|right; exists it'; simpl; auto].
  apply has_ref_dict_set in H as [H|[H|[_ E]]];
    [auto| |unfold response_object in E; discriminate].
  right. exists it. split; [now left|].
  eapply has_ref_response_object; eassumption.
Qed.

Lemma add_request_refs (s : pystr) ext func schemas po schemas' po' :
  add_request ext func schemas po = Ok (schemas', po') ->
  has_ref s (PDict po') = true ->
  has_ref s (PDict po) = true
  \/ exists m source,
       flask_schema_request func = Some (m, source)
       /\ has_ref s (PDict (snd (frag ext m))) = true.
Proof.
  unfold add_request.
  destruct (flask_schema_request func) as [[m source]|];
    [|intros [= <- <-]; auto].
  destruct (frag ext m) as [defs schema] eqn:Hfr. intros H Href.
  inv_bind H. injection H as <- <-.
  apply has_ref_dict_set in Href as [H|[H|[E _]]];
    [auto| |vm_compute in E; discriminate].
  right. exists m, source. split; [reflexivity|]. rewrite Hfr. cbn [snd].
  apply has_ref_mk_dict in H as (k & v & [E|[]] & H). injection E as <- <-.
  destruct H as [[_ E]|H]; [discriminate|].
  apply has_ref_mk_dict in H as (k & v & [E|[]] & H). injection E as <- <-.
  destruct H as [[_ E]|H]; [discriminate|].
  apply has_ref_mk_dict in H as (k & v & [E|[]] & H). injection E as <- <-.
  destruct H as [[_ E]|H]; [discriminate|assumption].
Qed.

Lemma query_parameters_refs (s : pystr) ext func x :
  In x (query_parameters ext func) -> has_ref s x = true ->
  exists m, flask_schema_querystring func = Some m
            /\ has_ref s (PDict (snd (frag ext m))) = true.
Proof.
  unfold query_parameters.
  destruct (flask_schema_querystring func) as [m|]; [|contradiction].
  destruct (dict_get (snd (frag ext m)) (skey "properties")) as [p|] eqn:Hget;
    [destruct p; try contradiction|contradiction].
  intros Hin H. apply in_map_iff in Hin as ([k v] & <- & Hin).
  apply has_ref_query_parameter in H.
  exists m. split; [reflexivity|].
  apply dict_get_entry in Hget.
  eapply has_ref_of_entry; [exact Hget|]. right.
  eapply has_ref_of_entry; [exact Hin|]. now right.
Qed.

(** Every reference inside a Path Item is a reference inside the fragment
    generated for one of the models of its view function. *)
Lemma build_path_object_refs ext func r schemas schemas' po :
  build_path_object ext func r schemas = Ok (schemas', po) ->
  refs_from ext (models_of func) (PDict po).
Proof.
  intros H s Href. unfold build_path_object in H.
  set (items := match flask_schema_response func with
                | Some d => d
                | None => []
                end) in *.
  inv_bind H. rename a into po1. rename Ha into Hdoc.
  assert (Hr1 : dict_get po1 (skey "responses") = Some (PDict []))
    by (rewrite (add_doc_keeps _ _ Hdoc) by key_neq; reflexivity).
  assert (Hp1 : dict_get po1 (skey "parameters") = Some (PList []))
    by (rewrite (add_doc_keeps _ _ Hdoc) by key_neq; reflexivity).
  rewrite (add_responses_spec _ _ _ _ Hr1) in H.
  inv_bind H. destruct a as [s1 po2]. inv_bind Ha. rename a into s1'.
  injection Ha as <- <-. rename Ha0 into Hm1.
  inv_bind H. destruct a as [s2 po3]. rename Ha into Hreq.
  inv_bind H. destruct a as [s3 po4]. rename Ha into Hqs.
  inv_bind H. rename a into po5. rename Ha into Hpp. injection H as <- <-.
  assert (Hreq_refs :
            has_ref s (PDict po3) = true ->
            has_ref s
              (PDict (dict_set po1 (skey "responses")
                        (PDict (responses_of ext items [])))) = true
            \/ exists m source,
                 flask_schema_request func = Some (m, source)
                 /\ has_ref s (PDict (snd (frag ext m))) = true)
    by (eapply add_request_refs; exact Hreq).
  apply add_request_inv in Hreq as [Hm2 Hkeep].
  assert (Hp3 : dict_get po3 (skey "parameters") = Some (PList [])).
  { rewrite Hkeep by key_neq. now rewrite dict_get_set_other by key_neq. }
  apply (add_querystring_inv _ _ _ _ Hqs) in Hp3 as [Hm3 ->].
  unfold add_path_parameters in Hpp.
  rewrite (append_parameters_spec _ _ (dict_get_set_same _ _ _)) in Hpp.
  injection Hpp as <-. rewrite dict_set_set in Href.
  apply has_ref_dict_set in Href as [Href|[Href|[E _]]];
    [| |vm_compute in E; discriminate].
  - apply Hreq_refs in Href as [Href|(m & source & Hm & Href)].
    + apply has_ref_dict_set in Href as [Href|[Href|[E _]]];
        [| |vm_compute in E; discriminate].
      * apply (add_doc_refs _ _ _ Hdoc) in Href.
        apply has_ref_mk_dict in Href as (k & v & [E|[E|[]]] & Href);
          injection E as <- <-;
          (destruct Href as [[E _]|Href];
           [vm_compute in E; discriminate|discriminate]).
      * apply responses_of_refs in Href as [Href|(it & Hin & Href)];
          [discriminate|].
        exists (snd it). split; [|now apply has_ref_stripped].
        unfold models_of. apply in_or_app. left. now apply in_map.
    + exists m. split; [|now apply has_ref_stripped].
      unfold models_of. rewrite Hm. apply in_or_app. right.
      apply in_or_app. left. now left.
  - apply has_ref_item in Href as (x & Hin & Href).
    cbn [List.app] in Hin. apply in_app_or in Hin as [Hin|Hin].
    + destruct (query_parameters_refs _ _ _ _ Hin Href) as (m & Hm & H').
      exists m. split; [|now apply has_ref_stripped].
      unfold models_of. rewrite Hm. apply in_or_app. right.
      apply in_or_app. right. now left.
    + apply in_map_iff in Hin as (k & <- & _).
      now rewrite has_ref_path_parameter in Href.
Qed.

Lemma process_rules_cells_all app ext rules st st' (Q : pydict -> Prop) :
  process_rules app ext rules st = Ok st' ->
  (forall r func schemas schemas' po,
      In r rules ->
      dict_get (view_functions app) (KStr (endpoint r)) = Some func ->
      hidden func = false ->
      build_path_object ext func r schemas = Ok (schemas', po) ->
      Q po) ->
  exists objs, st_heap st' = st_heap st ++ objs /\ Forall Q objs.
Proof.
  revert st; induction rules as [|r rules IH]; intros st H HQ; simpl in H.
  - injection H as <-. exists []. now rewrite app_nil_r.
  - inv_bind H.
    edestruct IH as (objs & Hobjs & Hall);
      [exact H | intros; eapply HQ; eauto; now right |].
    apply process_rule_inv in Ha
      as [(_ & _ & ->)|(func & schemas & po & Hf & Hh & _ & _ & Hpo & ->)].
    + now exists objs.
    + exists (po :: objs). rewrite Hobjs. simpl. rewrite <- app_assoc.
      split; [reflexivity|]. constructor; [|assumption].
      eapply HQ; eauto. now left.
Qed.

Lemma merge_all_keeps schemas defs schemas' k :
  merge_all schemas defs = Ok schemas' ->
  (forall d, In (PDict d) defs -> ~ In k (keys d)) ->
  dict_get schemas' k = dict_get schemas k.
Proof.
  revert schemas; induction defs as [|d0 defs IH]; intros schemas H Hno;
    simpl in H.
  - now injection H as <-.
  - inv_bind H. apply update_schemas_inv in Ha as (defs0 & -> & ->).
    rewrite (IH _ H) by (intros d Hd; apply Hno; now right).
    apply dict_get_update_absent. apply Hno. now left.
Qed.

(** X18 (the component table, lines 256-300): the table of a built
    document is the result of merging, into an empty table and one after
    the other, the definitions of the response models, the request model
    and the query-string model of every visible route, routes in the order
    of the URL map; a dictionary of definitions whose name [k] no later
    one defines decides the entry of [k].  A name two models define keeps
    the schema of the later one only. *)
Theorem components_in_order app ext h doc h' :
  _build_openapi_schema camelize lower app ext h = Ok (doc, h') ->
  merge_all [] (definitions_of app ext (url_map app)) = Ok (components doc)
  /\ forall before d after k v,
       definitions_of app ext (url_map app) = before ++ PDict d :: after ->
       NoDup (keys d) ->
       dict_get d k = Some v ->
       (forall d', In (PDict d') after -> ~ In k (keys d')) ->
       dict_get (components doc) k = Some v.
Proof.
  intros Hbuild.
  destruct (build_inv _ _ _ Hbuild) as (st & Hrun & _ & -> & _).
  apply process_rules_merge in Hrun. cbn [st_schemas] in Hrun.
  split; [exact Hrun|].
  intros before d after k v Hsplit Hnd Hget Hlater.
  rewrite Hsplit, merge_all_app in Hrun. inv_bind Hrun.
  simpl in Hrun. erewrite merge_all_keeps; [|exact Hrun|exact Hlater].
  now apply dict_get_update_present.
Qed.

(** Every reference of a generated fragment resolving inside the
    definitions of that fragment, every reference of the document
    resolves inside the component table. *)
Lemma generated_references_resolve app ext h doc h' :
  _build_openapi_schema camelize lower app ext h = Ok (doc, h') ->
  (forall r func m,
      In r (url_map app) ->
      dict_get (view_functions app) (KStr (endpoint r)) = Some func ->
      hidden func = false ->
      In m (models_of func) ->
      refs_within
        match fst (frag ext m) with
        | PDict d => keys d
        | _ => []
        end
        (PDict (generated ext m))) ->
  (forall l po,
      length h <= l -> heap_get h' l = Some po ->
      refs_within (keys (components doc)) (PDict po))
  /\ refs_within (keys (components doc)) (PDict (components doc)).
Proof.
  intros Hbuild Hclosed.
  destruct (build_inv _ _ _ Hbuild) as (st & Hrun & _ & -> & ->).
  destruct (process_rules_schemas_grow _ _ _ _ Hrun) as [Hnd _].
  destruct (process_rules_components _ _ _ _ Hrun) as [Hkeys Hvals].
  cbn [st_schemas st_heap] in *.
  assert (Hres : forall r func m s,
             In r (url_map app) ->
             dict_get (view_functions app) (KStr (endpoint r)) = Some func ->
             hidden func = false ->
             In m (models_of func) ->
             has_ref s (PDict (generated ext m)) = true ->
             exists name, s = REF_PREFIX ++ name
                          /\ In (KStr name) (keys (st_schemas st))).
  { intros r func m s Hr Hf Hh Hm Href.
    pose proof (Hclosed r func m Hr Hf Hh Hm) as Hc.
    unfold refs_within in Hc.
    destruct (Hc s Href) as (name & -> & Hin).
    exists name. split; [reflexivity|]. apply Hkeys. right.
    destruct (fst (frag ext m)) as [ | | | | | |d| | | ] eqn:Hd;
      try contradiction.
    exists r, func, m, d. auto 10. }
  split.
  - intros l po Hl Hget.
    assert (Hcells :
              exists objs,
                st_heap st = h ++ objs
                /\ Forall (fun po => refs_within (keys (st_schemas st))
                                       (PDict po)) objs).
    { eapply (@process_rules_cells_all app ext (url_map app)
                {| st_paths := []; st_schemas := []; st_heap := h |} st);
        [exact Hrun|].
      intros r func schemas schemas' po0 Hr Hf Hh Hpo s Href.
      apply build_path_object_refs in Hpo.
      destruct (Hpo s Href) as (m & Hm & Hg). eapply Hres; eauto. }
    destruct Hcells as (objs & Hobjs & Hall).
    unfold heap_get in Hget.
    rewrite Hobjs, nth_error_app2 in Hget by lia.
    apply nth_error_In in Hget.
    exact (proj1 (Forall_forall _ _) Hall _ Hget).
  - intros s Href. apply has_ref_entry in Href as (k & v & Hin & H).
    apply entry_dict_get in Hin; [|apply Hnd; constructor].
    apply Hvals in Hin
      as [Hin|(r & func & m & d & Hr & Hf & Hh & Hm & Hd & Hin)];
      [discriminate|].
    eapply Hres; eauto. eapply has_ref_definitions; eauto.
Qed.

Transparent fragment.

(** X19 (references into the component table, lines 256-308, casing
    off): with [convert_casing] off, when the schema the generator
    returns for every model of every visible route refers to its own
    definitions only, every reference inside a Path Item made by the run,
    and every reference inside the component table itself, is the prefix
    [#/components/schemas/] followed by a name of the table: splitting
    the definitions off and merging them leaves no reference without its
    target. *)
Theorem references_resolve app ext h doc h' :
  convert_casing ext = false ->
  _build_openapi_schema camelize lower app ext h = Ok (doc, h') ->
  (forall r func m,
      In r (url_map app) ->
      dict_get (view_functions app) (KStr (endpoint r)) = Some func ->
      hidden func = false ->
      In m (models_of func) ->
      model_closed m) ->
  (forall l po,
      length h <= l -> heap_get h' l = Some po ->
      refs_within (keys (components doc)) (PDict po))
  /\ refs_within (keys (components doc)) (PDict (components doc)).
Proof.
  intros Hcase Hbuild Hclosed.
  eapply generated_references_resolve; [exact Hbuild|].
  intros r func m Hr Hf Hh Hm.
  pose proof (Hclosed r func m Hr Hf Hh Hm) as Hc.
  unfold model_closed in Hc.
  unfold fragment, _split_definitions, generated. rewrite Hcase.
  cbn [fst].
  destruct (dict_get (model_schema m REF_PREFIX) (skey "definitions"))
    as [[ | | | | | |d| | | ]|]; exact Hc.
Qed.


End AssemblerFacts.

(* ================================================================== *)
(** * The wrapped response constructor *)

(** Once coerced, a value is left as it is by a second coercion. *)
Lemma dict_or_value_stable (value v : pyval) :
  dict_or_value value = Ok v -> dict_or_value v = Ok v.
Proof.
  unfold dict_or_value.
  destruct value; simpl; intros H; try (injection H as <-; reflexivity).
  destruct is_dataclass_type; [discriminate|].
  injection H as <-; reflexivity.
Qed.

(** X1 ([convert_model_result], the result tuple): a result that is no
    tuple is forwarded as [(coerced, None, None)]; a tuple of at most three
    elements is forwarded with its first element coerced, the elements
    after the first as they are, whatever they are, and [None] in the
    positions it lacks, the empty tuple standing for the value [None]; a
    longer tuple raises [ValueError] and the wrapped constructor is not
    called.  A value that the coercion refuses raises before the call. *)
Theorem convert_model_result_forwards (R : Type) (func : pyval -> res R) :
  (forall result,
      (forall t, result <> PTuple t) ->
      convert_model_result func result =
      (v <- dict_or_value result ;; func (PTuple [v; PNone; PNone])))
  /\ convert_model_result func (PTuple []) = func (PTuple [PNone; PNone; PNone])
  /\ (forall value,
         convert_model_result func (PTuple [value]) =
         (v <- dict_or_value value ;; func (PTuple [v; PNone; PNone])))
  /\ (forall value status,
         convert_model_result func (PTuple [value; status]) =
         (v <- dict_or_value value ;; func (PTuple [v; status; PNone])))
  /\ (forall value status headers,
         convert_model_result func (PTuple [value; status; headers]) =
         (v <- dict_or_value value ;; func (PTuple [v; status; headers])))
  /\ (forall t, 3 < length t ->
         convert_model_result func (PTuple t) = Raise ValueError).
Proof.
  repeat split.
  - intros result Hnot. unfold convert_model_result.
    destruct result; try reflexivity.
    exfalso; eapply Hnot; reflexivity.
  - intros t Hlen. unfold convert_model_result.
    replace (3 - length t) with 0 by lia. simpl. rewrite app_nil_r.
    destruct t as [|a [|b [|c [|d t]]]]; simpl in Hlen; try lia.
    reflexivity.
Qed.

(** X2 ([convert_model_result], wrapping twice): a response constructor
    wrapped twice behaves as one wrapped once, on every result: the inner
    wrapper receives a three-element tuple whose first element is already
    coerced, and leaves it as it is. *)
Theorem convert_model_result_twice (R : Type) (func : pyval -> res R)
    (result : pyval) :
  convert_model_result (convert_model_result func) result =
  convert_model_result func result.
Proof.
  unfold convert_model_result at 1 3.
  destruct (match result with
            | PTuple t =>
                match t ++ repeat PNone (3 - length t) with
                | [a; b; c] => Ok (a, b, c)
                | _ => Raise ValueError
                end
            | _ => Ok (result, PNone, PNone)
            end) as [[[value status] headers]|e]; simpl; [|reflexivity].
  destruct (dict_or_value value) as [v|e] eqn:Hv; simpl; [|reflexivity].
  unfold convert_model_result. simpl.
  now rewrite (dict_or_value_stable _ Hv).
Qed.

(** X3 ([_split_definitions], what the two results keep): the stripped
    fragment splits again into an empty mapping and itself, and nothing is
    lost by a split: putting the definitions back under their key gives a
    mapping with the entries of the fragment that was split. *)
Theorem split_definitions_twice (schema : pydict) :
  _split_definitions (snd (_split_definitions schema)) =
  (PDict [], snd (_split_definitions schema))
  /\ (forall v k,
        dict_get schema (skey "definitions") = Some v ->
        dict_get
          (dict_set (snd (_split_definitions schema)) (skey "definitions")
             (fst (_split_definitions schema))) k =
        dict_get schema k).
Proof.
  split.
  - unfold _split_definitions at 1.
    assert (H : dict_get (snd (_split_definitions schema))
                  (skey "definitions") = None).
    { unfold _split_definitions; simpl. apply dict_get_remove_same. }
    rewrite H. f_equal. now apply dict_remove_absent.
  - intros v k Hv. unfold _split_definitions; simpl. rewrite Hv.
    destruct (pykey_eqb_spec (skey "definitions") k) as [<-|Hk].
    + now rewrite dict_get_set_same.
    + rewrite dict_get_set_other by assumption.
      apply dict_get_remove_other. congruence.
Qed.

(* ================================================================== *)
(** * [PATH_RE] on the patterns of the routing layer *)

Lemma rmatch_Star (r1 : regex) (s : pystr) (g : option pystr)
    (k : pystr -> option pystr -> option mstate) :
  rmatch (Star r1) s g k = star_loop r1 k (length s) s g.
Proof. reflexivity. Qed.

Lemma lacks_cons (c x : N) (s : pystr) :
  lacks c (x :: s) = true <-> x <> c /\ lacks c s = true.
Proof.
  unfold lacks; simpl. rewrite andb_true_iff, negb_true_iff, N.eqb_neq.
  tauto.
Qed.

Lemma lacks_app (c : N) (s t : pystr) :
  lacks c (s ++ t) = true <-> lacks c s = true /\ lacks c t = true.
Proof. unfold lacks; rewrite forallb_app, andb_true_iff; tauto. Qed.

Lemma lacks_skipn (c : N) (n : nat) (s : pystr) :
  lacks c s = true -> lacks c (skipn n s) = true.
Proof.
  revert s; induction n as [|n IH]; intros [|x s] H; simpl; auto.
  apply lacks_cons in H as [_ H]. auto.
Qed.

(** A greedy [[^c]*] runs to the first [c], or to the end, when the rest
    of the pattern matches from there. *)
Lemma star_notchr_stop (c : N) k (a rest : pystr) (g : option pystr)
    (m : mstate) :
  lacks c a = true ->
  match rest with [] => True | x :: _ => x = c end ->
  k rest g = Some m ->
  forall fuel, length (a ++ rest) <= fuel ->
               star_loop (NotChr c) k fuel (a ++ rest) g = Some m.
Proof.
  intros Ha Hrest Hk. induction a as [|x a IH]; intros fuel Hlen.
  - simpl. destruct fuel as [|fuel]; simpl; [assumption|].
    destruct rest as [|y rest]; [assumption|]. subst y.
    now rewrite N.eqb_refl.
  - apply lacks_cons in Ha as [Hx Ha].
    destruct fuel as [|fuel]; simpl in Hlen; [lia|].
    cbn [star_loop app rmatch].
    apply N.eqb_neq in Hx. rewrite Hx.
    assert (Hlt : (length (a ++ rest) <? length (x :: a ++ rest)) = true)
      by (apply Nat.ltb_lt; simpl; lia).
    rewrite Hlt.
    change ((fix star (fuel0 : nat) (s : pystr) (g0 : option pystr)
               {struct fuel0} : option mstate := _) fuel (a ++ rest) g)
      with (star_loop (NotChr c) k fuel (a ++ rest) g).
    rewrite IH by (assumption || lia). reflexivity.
Qed.

(** It gives up when the rest of the pattern matches at none of the
    positions it can stop at. *)
Lemma star_notchr_none (c : N) k (g : option pystr) :
  forall fuel s,
    (forall n, k (skipn n s) g = None) ->
    star_loop (NotChr c) k fuel s g = None.
Proof.
  induction fuel as [|fuel IH]; intros s Hk.
  - exact (Hk 0).
  - cbn [star_loop rmatch].
    destruct s as [|x s]; [exact (Hk 0)|].
    destruct (N.eqb x c); [exact (Hk 0)|].
    destruct (length s <? length (x :: s)).
    + change ((fix star (fuel0 : nat) (s0 : pystr) (g0 : option pystr)
                 {struct fuel0} : option mstate := _) fuel s g)
        with (star_loop (NotChr c) k fuel s g).
      rewrite IH; [exact (Hk 0)|]. intros n; exact (Hk (S n)).
    + exact (Hk 0).
Qed.

Lemma firstn_length_diff (name rest : pystr) :
  firstn (length (name ++ rest) - length rest) (name ++ rest) = name.
Proof.
  rewrite length_app, Nat.add_sub.
  rewrite firstn_app, Nat.sub_diag, firstn_all. simpl. apply app_nil_r.
Qed.

(** The name of a placeholder and its closing bracket. *)
Lemma rmatch_name (name rest : pystr) (g : option pystr) :
  name <> [] -> lacks (chr ">") name = true ->
  rmatch (Seq (Group (Plus (NotChr (chr ">")))) (Chr (chr ">")))
    (name ++ chr ">" :: rest) g (fun s' g' => Some (s', g')) =
  Some (rest, Some name).
Proof.
  intros Hne Hname. destruct name as [|x name]; [congruence|].
  apply lacks_cons in Hname as [Hx Hname].
  unfold Plus. cbn [rmatch app].
  apply N.eqb_neq in Hx. rewrite Hx.
  change ((fix star (fuel : nat) (s : pystr) (g0 : option pystr)
             {struct fuel} : option mstate := _)
            (length (name ++ chr ">" :: rest)) (name ++ chr ">" :: rest) g)
    with (star_loop (NotChr (chr ">"))
            (fun s' _ =>
               match s' with
               | y :: s'' =>
                   if N.eqb y (chr ">")
                   then Some (s'',
                              Some (firstn
                                      (length (x :: name ++ chr ">" :: rest)
                                       - length s')
                                      (x :: name ++ chr ">" :: rest)))
                   else None
               | [] => None
               end)
            (length (name ++ chr ">" :: rest)) (name ++ chr ">" :: rest) g).
  apply star_notchr_stop; [assumption | reflexivity | | lia].
  rewrite N.eqb_refl. do 3 f_equal.
  exact (firstn_length_diff (x :: name) (chr ">" :: rest)).
Qed.

(** A placeholder with a converter: the match ends at its bracket. *)
Lemma re_match_converter (converter name rest : pystr) :
  lacks (chr ":") converter = true ->
  name <> [] -> lacks (chr ">") name = true ->
  re_match PATH_RE
    (chr "<" :: converter ++ chr ":" :: name ++ chr ">" :: rest) =
  Some (rest, Some name).
Proof.
  intros Hconv Hne Hname. unfold re_match, PATH_RE.
  cbn [rmatch]. rewrite N.eqb_refl.
  change ((fix star (fuel : nat) (s : pystr) (g0 : option pystr)
             {struct fuel} : option mstate := _)
            (length (converter ++ chr ":" :: name ++ chr ">" :: rest))
            (converter ++ chr ":" :: name ++ chr ">" :: rest) None)
    with (star_loop (NotChr (chr ":"))
            (fun s' g' =>
               rmatch (Chr (chr ":")) s' g'
                 (fun s'' g'' =>
                    rmatch
                      (Seq (Group (Plus (NotChr (chr ">")))) (Chr (chr ">")))
                      s'' g'' (fun s3 g3 => Some (s3, g3))))
            (length (converter ++ chr ":" :: name ++ chr ">" :: rest))
            (converter ++ chr ":" :: name ++ chr ">" :: rest) None).
  erewrite star_notchr_stop; [reflexivity | assumption | reflexivity | | lia].
  cbn [rmatch]. rewrite N.eqb_refl. now apply rmatch_name.
Qed.

(** A placeholder without converter, when no colon follows: the optional
    part is given up and the match ends at the bracket. *)
Lemma re_match_plain (name rest : pystr) :
  name <> [] -> lacks (chr ">") name = true ->
  lacks (chr ":") (name ++ chr ">" :: rest) = true ->
  re_match PATH_RE (chr "<" :: name ++ chr ">" :: rest) =
  Some (rest, Some name).
Proof.
  intros Hne Hname Hcolon. unfold re_match, PATH_RE.
  cbn [rmatch]. rewrite N.eqb_refl.
  change ((fix star (fuel : nat) (s : pystr) (g0 : option pystr)
             {struct fuel} : option mstate := _)
            (length (name ++ chr ">" :: rest))
            (name ++ chr ">" :: rest) None)
    with (star_loop (NotChr (chr ":"))
            (fun s' g' =>
               rmatch (Chr (chr ":")) s' g'
                 (fun s'' g'' =>
                    rmatch
                      (Seq (Group (Plus (NotChr (chr ">")))) (Chr (chr ">")))
                      s'' g'' (fun s3 g3 => Some (s3, g3))))
            (length (name ++ chr ">" :: rest))
            (name ++ chr ">" :: rest) None).
  rewrite star_notchr_none.
  - now apply rmatch_name.
  - intros n. cbn [rmatch].
    pose proof (@lacks_skipn _ n _ Hcolon) as Hn.
    destruct (skipn n (name ++ chr ">" :: rest)) as [|y s']; [reflexivity|].
    apply lacks_cons in Hn as [Hy _]. apply N.eqb_neq in Hy. now rewrite Hy.
Qed.

Lemma re_match_no_bracket (c : N) (s : pystr) :
  c <> chr "<" -> re_match PATH_RE (c :: s) = None.
Proof.
  intros Hc. unfold re_match, PATH_RE. cbn [rmatch].
  apply N.eqb_neq in Hc. now rewrite Hc.
Qed.

Lemma re_sub_from_static (s t : pystr) :
  lacks (chr "<") s = true ->
  re_sub_from PATH_RE path_template (s ++ t) 0 =
  s ++ re_sub_from PATH_RE path_template t 0.
Proof.
  induction s as [|c s IH]; intros Hs; [reflexivity|].
  apply lacks_cons in Hs as [Hc Hs].
  cbn [app re_sub_from]. rewrite (re_match_no_bracket _ Hc).
  now rewrite IH.
Qed.

Lemma re_sub_from_skip (r : regex) repl (a t : pystr) :
  re_sub_from r repl (a ++ t) (length a) = re_sub_from r repl t 0.
Proof.
  induction a as [|x a IH]; [reflexivity|].
  cbn [app length re_sub_from]. exact IH.
Qed.

Lemma re_sub_from_match (r : regex) repl (c : N) (a rest : pystr) g :
  re_match r (c :: a ++ rest) = Some (rest, g) ->
  re_sub_from r repl (c :: a ++ rest) 0 =
  repl g ++ re_sub_from r repl rest 0.
Proof.
  intros Hm. cbn [re_sub_from]. rewrite Hm.
  replace (length (c :: a ++ rest) - length rest) with (S (length a))
    by (change (length (c :: a ++ rest)) with (S (length (a ++ rest)));
        rewrite length_app; lia).
  now rewrite re_sub_from_skip.
Qed.

Lemma template_of_cons (sg : segment) (segs : list segment) :
  template_of (sg :: segs) = template_text sg ++ template_of segs.
Proof. reflexivity. Qed.

Lemma pattern_of_cons (sg : segment) (segs : list segment) :
  pattern_of (sg :: segs) = pattern_text sg ++ pattern_of segs.
Proof. reflexivity. Qed.

(** X4 (the path template, line 318): on a pattern in which no colon comes
    after a variable part written without converter, [re.sub(PATH_RE,
    r"{\1}", pattern)] is the OpenAPI template of the pattern: static text
    is kept, and each [<name>] or [<converter:name>] becomes [{name}]. *)
Theorem path_template_of_pattern (segs : list segment) :
  forallb segment_ok segs = true ->
  colon_safe segs = true ->
  re_sub PATH_RE path_template (pattern_of segs) = template_of segs.
Proof.
  unfold re_sub. induction segs as [|sg segs IH]; intros Hok Hsafe;
    [reflexivity|].
  simpl in Hok. apply andb_true_iff in Hok as [Hsg Hok].
  rewrite pattern_of_cons, template_of_cons.
  destruct sg as [text|[converter|] name]; simpl in Hsg, Hsafe.
  - simpl. rewrite re_sub_from_static by assumption. now rewrite IH.
  - apply andb_true_iff in Hsg as [Hsg Hconv].
    apply andb_true_iff in Hsg as [Hsg Hcolon].
    apply andb_true_iff in Hsg as [Hne Hname].
    assert (Hne' : name <> []) by (destruct name; [discriminate|congruence]).
    cbn [pattern_text template_text].
    change (str "<") with [chr "<"]. change (str ":") with [chr ":"].
    change (str ">") with [chr ">"].
    replace (([chr "<"] ++ converter ++ [chr ":"] ++ name ++ [chr ">"])
             ++ pattern_of segs)
      with (chr "<" :: (converter ++ chr ":" :: name ++ [chr ">"])
                    ++ pattern_of segs)
      by (simpl; now rewrite <- !app_assoc).
    rewrite (@re_sub_from_match PATH_RE path_template (chr "<")
               (converter ++ chr ":" :: name ++ [chr ">"]) (pattern_of segs)
               (Some name)).
    + rewrite IH by assumption. unfold path_template.
      now rewrite <- !app_assoc.
    + replace ((converter ++ chr ":" :: name ++ [chr ">"]) ++ pattern_of segs)
        with (converter ++ chr ":" :: name ++ chr ">" :: pattern_of segs)
        by (rewrite <- !app_assoc; simpl; now rewrite <- !app_assoc).
      now apply re_match_converter.
  - apply andb_true_iff in Hsg as [Hsg _].
    apply andb_true_iff in Hsg as [Hsg Hcolon].
    apply andb_true_iff in Hsg as [Hne Hname].
    apply andb_true_iff in Hsafe as [Hrest Hsafe].
    assert (Hne' : name <> []) by (destruct name; [discriminate|congruence]).
    cbn [pattern_text template_text].
    change (str "<") with [chr "<"]. change (str ">") with [chr ">"].
    replace (([chr "<"] ++ name ++ [chr ">"]) ++ pattern_of segs)
      with (chr "<" :: (name ++ [chr ">"]) ++ pattern_of segs)
      by (simpl; now rewrite <- !app_assoc).
    rewrite (@re_sub_from_match PATH_RE path_template (chr "<")
               (name ++ [chr ">"]) (pattern_of segs) (Some name)).
    + rewrite IH by assumption. unfold path_template.
      now rewrite <- !app_assoc.
    + replace ((name ++ [chr ">"]) ++ pattern_of segs)
        with (name ++ chr ">" :: pattern_of segs)
        by (now rewrite <- app_assoc).
      apply re_match_plain; try assumption.
      apply lacks_app; split; [assumption|].
      apply lacks_cons; split; [|assumption].
      intros E; vm_compute in E; discriminate.
Qed.

(** X16 (a placeholder without converter before one with a converter):
    when a variable part [<name>] is followed, after text without colon,
    by a variable part [<converter:other>], the optional converter part of
    [PATH_RE] takes everything up to that colon, and [re.sub] replaces the
    whole stretch, both placeholders and what lies between them, by the
    single [{other}]. *)
Theorem path_template_merges (before name between converter other rest
    : pystr) :
  lacks (chr "<") before = true ->
  lacks (chr ":") (name ++ chr ">" :: between ++ chr "<" :: converter) = true ->
  other <> [] -> lacks (chr ">") other = true ->
  re_sub PATH_RE path_template
    (before ++ chr "<" :: name ++ chr ">" :: between
            ++ chr "<" :: converter ++ chr ":" :: other ++ chr ">" :: rest) =
  before ++ str "{" ++ other ++ str "}"
         ++ re_sub PATH_RE path_template rest.
Proof.
  intros Hbefore Hcolon Hne Hother. unfold re_sub.
  rewrite re_sub_from_static by assumption. f_equal.
  replace (chr "<" :: name ++ chr ">" :: between
             ++ chr "<" :: converter ++ chr ":" :: other ++ chr ">" :: rest)
    with (chr "<" ::
          ((name ++ chr ">" :: between ++ chr "<" :: converter)
           ++ chr ":" :: other ++ [chr ">"]) ++ rest).
  2:{ rewrite <- !app_assoc. simpl. rewrite <- ?app_assoc. simpl.
      reflexivity. }
  rewrite (@re_sub_from_match PATH_RE path_template (chr "<") _ rest
             (Some other)).
  - unfold path_template. now rewrite <- !app_assoc.
  - replace (((name ++ chr ">" :: between ++ chr "<" :: converter)
              ++ chr ":" :: other ++ [chr ">"]) ++ rest)
      with ((name ++ chr ">" :: between ++ chr "<" :: converter)
            ++ chr ":" :: other ++ chr ">" :: rest)
      by (rewrite <- !app_assoc; simpl; now rewrite <- !app_assoc).
    now apply re_match_converter.
Qed.

(* ================================================================== *)
(** * What the coercion returns *)

Lemma asdict_inner_plain (v : pyval) : dataclass_free (asdict_inner v) = true.
Proof.
  induction v as [ | | | |l IH|l IH|d IH|c fs IH| | ] using pyval_nested_ind;
    simpl; try reflexivity.
  - induction IH as [|x l Hx _ IHl]; simpl; [reflexivity|].
    now rewrite Hx, IHl.
  - induction IH as [|x l Hx _ IHl]; simpl; [reflexivity|].
    now rewrite Hx, IHl.
  - induction IH as [|[k x] l Hx _ IHl]; simpl in *; [reflexivity|].
    now rewrite Hx, IHl.
  - induction IH as [|[k x] l Hx _ IHl]; simpl in *; [reflexivity|].
    now rewrite Hx, IHl.
Qed.

(** X17 (the coerced value of a dataclass instance or a model, lines
    228-233): when the coercion returns for a value that is a dataclass
    instance or a validation model, what it returns is a mapping; for a
    dataclass instance the keys are the declared fields, in order, and no
    dataclass instance is left in it, however deep in lists, tuples and
    mappings; a dataclass class is refused with [TypeError]. *)
Theorem coerced_is_plain :
  (forall cls fields,
      exists d,
        dict_or_value (PDataclass cls fields) = Ok (PDict d)
        /\ keys d = map (fun kv => KStr (fst kv)) fields
        /\ dataclass_free (PDict d) = true)
  /\ (forall value v,
         dict_or_value value = Ok v ->
         is_dataclass value = true \/ (exists cls d, value = PModel cls d) ->
         exists d, v = PDict d)
  /\ (forall name, dict_or_value (PType name true) = Raise TypeError).
Proof.
  split; [|split].
  - intros cls fields. eexists. split; [reflexivity|]. split.
    + unfold keys. rewrite map_map. reflexivity.
    + exact (asdict_inner_plain (PDataclass cls fields)).
  - intros value v Hv [Hdc|(cls & d & ->)].
    + destruct value; try discriminate.
      * injection Hv as <-. eauto.
      * simpl in Hdc. subst. discriminate.
    + injection Hv as <-. eauto.
  - reflexivity.
Qed.

(* ================================================================== *)
(** * The sample application *)

Import Sample.

(** The builtins on some inputs, as Python computes them. *)
Example splitlines_samples :
  splitlines (str "") = []
  /\ splitlines newline = [str ""]
  /\ splitlines (str "a" ++ newline) = [str "a"]
  /\ splitlines (str "a" ++ [13; 10]%N ++ str "b" ++ newline ++ newline
                 ++ str "c") = [str "a"; str "b"; str ""; str "c"]
  /\ splitlines (str "a" ++ [8232]%N ++ str "b" ++ [133]%N) =
     [str "a"; str "b"].
Proof. repeat split. Qed.

Example re_sub_samples :
  re_sub PATH_RE path_template (str "/items/<int:item_id>") =
    str "/items/{item_id}"
  /\ re_sub PATH_RE path_template (str "/a/<x>/b") = str "/a/{x}/b"
  /\ re_sub PATH_RE path_template (str "/<int:a>/<b>") = str "/{a}/{b}"
  /\ re_sub PATH_RE path_template (str "/x/<any(a,b):k>/<q>") =
     str "/x/{k}/{q}"
  /\ re_sub PATH_RE path_template (str "<>") = str "<>"
  /\ re_sub PATH_RE path_template (str "<:>") = str "{:}"
  /\ re_sub PATH_RE path_template (str "/<a>:<b>") = str "/{<b}".
Proof. repeat split. Qed.

Example convert_model_result_samples :
  convert_model_result Ok (PTuple [order; PInt 201]) =
    Ok (PTuple [PDict [(skey "id", PInt 7);
                       (skey "customer",
                        PDict [(skey "name", PStr (str "ann"))])];
                PInt 201; PNone])
  /\ convert_model_result Ok (PStr (str "ok")) =
     Ok (PTuple [PStr (str "ok"); PNone; PNone])
  /\ convert_model_result Ok (PModel (str "Item") [(skey "id", PInt 1)]) =
     Ok (PTuple [PDict [(skey "id", PInt 1)]; PNone; PNone])
  /\ convert_model_result Ok (PTuple [PNone; PNone; PNone; PNone]) =
     Raise ValueError.
Proof. repeat split. Qed.

(** The coercion of a dataclass instance goes into its fields: it is not
    the one-level mapping of the specification. *)
Lemma coerce_is_not_shallow :
  dict_or_value order =
  Ok (PDict [(skey "id", PInt 7);
             (skey "customer", PDict [(skey "name", PStr (str "ann"))])])
  /\ dict_or_value order <> Ok (spec_coerce order).
Proof.
  split; [reflexivity|].
  intros H; vm_compute in H; discriminate.
Qed.

(** A dataclass class is refused by [asdict]. *)
Remark coerce_dataclass_class (name : pystr) :
  dict_or_value (PType name true) = Raise TypeError.
Proof. reflexivity. Qed.

Lemma split_definitions_keeps_argument_witness :
  heap_get [fragment_cell] 0 = Some fragment_cell
  /\ exists definitions new_schema h',
       _split_definitions_ref 0 [fragment_cell] =
       Ok ((definitions, new_schema), h')
       /\ heap_get h' 0 = Some fragment_cell
       /\ new_schema <> 0
       /\ definitions = PDict [(skey "Error", error_a)].
Proof.
  split; [reflexivity|].
  destruct (@split_definitions_keeps_argument [fragment_cell] 0 fragment_cell
              eq_refl)
    as (definitions & new_schema & h' & Hcall & Hsame & _ & _ & Hnew & _ & Hd).
  exists definitions, new_schema, h'. repeat split; assumption.
Defined.

(** C7 (docstring-to-summary mapping), at a view function whose
    documentation string is the empty string: the string has no line,
    [summary, *description = func.__doc__.splitlines()] does not unpack,
    and the assembler raises [ValueError] instead of returning a document
    with a summary.  The empty string is the only documentation string on
    which lines 251-254 raise. *)
Theorem empty_docstring_raises (camelize : pydict -> pydict)
    (lower : pystr -> pystr) (h : heap) :
  dict_get (view_functions empty_doc_app) (KStr (endpoint r_empty_doc)) =
    Some (plain (Some (str "")))
  /\ splitlines (str "") = []
  /\ _build_openapi_schema camelize lower empty_doc_app ext0 h =
     Raise ValueError
  /\ (forall func path_object,
        (exists e, add_doc func path_object = Raise e) <->
        doc func = Some (str "")).
Proof.
  split; [reflexivity|]. split; [reflexivity|]. split; [reflexivity|].
  intros func path_object. exact (add_doc_raises func path_object).
Qed.

(** The sample applications without the empty documentation string keep to
    what the assembler relies on. *)
Lemma items_app_ok : app_ok unused_camelize items_app ext0.
Proof.
  assert (HA : model_ok unused_camelize ext0 ModelA) by (eexists; reflexivity).
  assert (HB : model_ok unused_camelize ext0 ModelB) by (eexists; reflexivity).
  assert (HP : model_ok unused_camelize ext0 Paging) by (eexists; reflexivity).
  intros r [<-|[<-|[<-|[]]]]; eexists; (split; [reflexivity|]); intros Hh;
    try discriminate.
  - repeat split; try discriminate.
  - split; [discriminate|]. split; [|split].
    + intros items H; injection H as <-. repeat constructor; assumption.
    + discriminate.
    + intros m H; injection H as <-. split; [assumption|].
      eexists; reflexivity.
Qed.

(** C1 (component-table merging), at a route with the response models
    [{200: ModelA, 404: ModelB}] that both define the sub-schema "Error"
    and refer to it, with [convert_casing] on: the casing step rewrites
    the keys of the generated schema, the name "Error" under
    "definitions" among them, and leaves the values of the "$ref" entries
    as they are.  The component table of the document holds the one entry
    "error" and no entry "Error", while both response fragments refer to
    [#/components/schemas/Error] and to nothing else: the two references
    have no target.  With [convert_casing] off the same application gives
    the table with the one entry "Error", that of the later model, and
    both fragments refer to it. *)
Theorem casing_breaks_shared_reference :
  camel (str "Error") = str "error"
  /\ match _build_openapi_schema toCamel_schema ascii_lower lookup_app
            ext_casing []
     with
     | Ok (doc, h') =>
         keys (components doc) = [skey "error"]
         /\ dict_get (components doc) (skey "Error") = None
         /\ match observe_through doc (str "/lookup") (str "get") h' with
            | Some path_object =>
                match response_schema path_object (KInt 200),
                      response_schema path_object (KInt 404) with
                | Some a, Some b =>
                    refs_in a = [str "#/components/schemas/Error"]
                    /\ refs_in b = [str "#/components/schemas/Error"]
                    /\ has_ref (str "#/components/schemas/Error") a = true
                    /\ has_ref (str "#/components/schemas/Error") b = true
                | _, _ => False
                end
            | None => False
            end
     | Raise _ => False
     end
  /\ match _build_openapi_schema toCamel_schema ascii_lower lookup_app
            ext0 []
     with
     | Ok (doc, h') =>
         keys (components doc) = [skey "Error"]
         /\ dict_get (components doc) (skey "Error") = Some error_b
         /\ match observe_through doc (str "/lookup") (str "get") h' with
            | Some path_object =>
                match response_schema path_object (KInt 200),
                      response_schema path_object (KInt 404) with
                | Some a, Some b =>
                    refs_in a = [str "#/components/schemas/Error"]
                    /\ refs_in b = [str "#/components/schemas/Error"]
                | _, _ => False
                end
            | None => False
            end
     | Raise _ => False
     end.
Proof.
  split; [reflexivity|]. split; vm_compute; repeat split.
Qed.

(** C4 (path-template rewriting), at the pattern
    [/users/<name>/items/<int:item_id>]: the optional converter part of
    [PATH_RE] runs from the first placeholder to the colon of the second,
    so the two placeholders and the text between them are replaced by the
    single [{item_id}]; the path key is [/users/{item_id}], while the Path
    Item has its two path parameters, [name] and [item_id], without schema.
    The pattern [/items/<int:item_id>] is rewritten as expected. *)
Theorem path_template_joins_placeholders :
  openapi_path r_user_items = str "/users/{item_id}"
  /\ openapi_path r_user_items <> str "/users/{name}/items/{item_id}"
  /\ match _build_openapi_schema unused_camelize ascii_lower users_app ext0 []
     with
     | Ok (doc, h') =>
         keys (paths doc) = [skey "/users/{item_id}"]
         /\ match observe_through doc (str "/users/{item_id}") (str "get") h'
            with
            | Some path_object =>
                dict_get path_object (skey "parameters") =
                Some (PList [path_parameter (skey "name");
                             path_parameter (skey "item_id")])
            | None => False
            end
     | Raise _ => False
     end
  /\ path_parameter (skey "name") =
     PDict [(skey "name", PStr (str "name")); (skey "in", PStr (str "path"))]
  /\ openapi_path r_items = str "/items/{item_id}"
  /\ path_parameters r_items = [path_parameter (skey "item_id")].
Proof.
  split; [reflexivity|]. split; [intros H; vm_compute in H; discriminate|].
  split; [vm_compute; split; reflexivity|].
  repeat split.
Qed.

Lemma verb_emission_filter_witness :
  match _build_openapi_schema unused_camelize ascii_lower items_app ext0 []
  with
  | Ok (doc, _) =>
      (forall verb,
          In verb (verbs_at doc (str "/ping")) <-> verb = skey "get")
      /\ NoDup (verbs_at doc (str "/items/{item_id}"))
  | Raise _ => False
  end.
Proof.
  destruct (_build_openapi_schema unused_camelize ascii_lower items_app ext0 [])
    as [[doc h']|e] eqn:Hbuild; [|vm_compute in Hbuild; discriminate].
  destruct (@verb_emission_filter unused_camelize ascii_lower items_app ext0
              [] doc h' Hbuild) as (_ & Hnodup & Hget).
  split; [|apply Hnodup].
  apply (Hget r_ping).
  - simpl; auto.
  - reflexivity.
  - intros m; simpl; intuition.
  - reflexivity.
  - intros r' [<-|[<-|[<-|[]]]] Hv Hp.
    + vm_compute in Hv; discriminate.
    + reflexivity.
    + vm_compute in Hp; discriminate.
Defined.

Lemma path_item_shared_witness :
  match _build_openapi_schema unused_camelize ascii_lower items_app ext0 []
  with
  | Ok (doc, h') =>
      exists l path_object,
        heap_get h' l = Some path_object
        /\ verb_ref doc (str "/items/{item_id}") (str "get") = Some l
        /\ verb_ref doc (str "/items/{item_id}") (str "post") = Some l
        /\ forall f,
             observe_through doc (str "/items/{item_id}") (str "post")
               (mutate_through doc (str "/items/{item_id}") (str "get") f h')
             = Some (f path_object)
  | Raise _ => False
  end.
Proof.
  destruct (_build_openapi_schema unused_camelize ascii_lower items_app ext0 [])
    as [[doc h']|e] eqn:Hbuild; [|vm_compute in Hbuild; discriminate].
  destruct (@path_item_shared unused_camelize ascii_lower items_app ext0 []
              [r_static; r_ping] r_items [] get_item doc h'
              eq_refl eq_refl eq_refl Hbuild)
    as (l & po & st1 & _ & _ & Hcell & _ & _ & _ & Hboth).
  destruct Hboth as (Hget & Hpost & Hshared).
  - simpl; auto.
  - simpl; auto.
  - intros r' verb [].
  - exists l, po. auto.
Defined.

(* ================================================================== *)
(** * Casing *)

Lemma fragment_casing_off (c1 c2 : pydict -> pydict) ext m :
  convert_casing ext = false -> fragment c1 ext m = fragment c2 ext m.
Proof. intros H. unfold fragment, generated. now rewrite H. Qed.

Lemma add_responses_casing_off (c1 c2 : pydict -> pydict) ext items :
  convert_casing ext = false ->
  forall schemas po,
    add_responses c1 ext items schemas po =
    add_responses c2 ext items schemas po.
Proof.
  intros H. induction items as [|[status m] items IH]; intros schemas po;
    [reflexivity|].
  cbn [add_responses]. rewrite (@fragment_casing_off c1 c2 ext m H).
  destruct (fragment c2 ext m) as [definitions schema].
  destruct (update_schemas schemas definitions); [|reflexivity].
  cbn [bind]. destruct (setitem_in _ _ _ _); [|reflexivity].
  cbn [bind]. apply IH.
Qed.

Lemma build_path_object_casing_off (c1 c2 : pydict -> pydict) ext func r
    schemas :
  convert_casing ext = false ->
  build_path_object c1 ext func r schemas =
  build_path_object c2 ext func r schemas.
Proof.
  intros H. unfold build_path_object.
  destruct (add_doc func _) as [po1|]; [|reflexivity]. cbn [bind].
  rewrite (@add_responses_casing_off c1 c2 ext _ H).
  destruct (add_responses c2 ext _ schemas po1) as [[s1 po2]|];
    [|reflexivity].
  cbn [bind].
  assert (Hreq : add_request c1 ext func s1 po2 = add_request c2 ext func s1 po2).
  { unfold add_request. destruct (flask_schema_request func) as [[m source]|];
      [|reflexivity].
    now rewrite (@fragment_casing_off c1 c2 ext m H). }
  rewrite Hreq.
  destruct (add_request c2 ext func s1 po2) as [[s2 po3]|]; [|reflexivity].
  cbn [bind].
  assert (Hqs : add_querystring c1 ext func s2 po3 =
                add_querystring c2 ext func s2 po3).
  { unfold add_querystring. destruct (flask_schema_querystring func) as [m|];
      [|reflexivity].
    now rewrite (@fragment_casing_off c1 c2 ext m H). }
  now rewrite Hqs.
Qed.

(** X15 (casing off, lines 259-260, 275-276 and 297-298): with
    [convert_casing] off the assembler never calls [camelize]: its outcome
    is the same whatever that function does. *)
Theorem casing_off_ignores_camelize (c1 c2 : pydict -> pydict)
    (lower : pystr -> pystr) app ext h :
  convert_casing ext = false ->
  _build_openapi_schema c1 lower app ext h =
  _build_openapi_schema c2 lower app ext h.
Proof.
  intros H. unfold _build_openapi_schema.
  assert (Hrun : forall rules st,
             process_rules c1 lower app ext rules st =
             process_rules c2 lower app ext rules st).
  { induction rules as [|r rules IH]; intros st; [reflexivity|].
    cbn [process_rules].
    assert (E : process_rule c1 lower app ext r st =
                process_rule c2 lower app ext r st).
    { unfold process_rule.
      destruct (dict_get (view_functions app) (KStr (endpoint r)));
        [|reflexivity].
      cbn [bind]. destruct (hidden v); [reflexivity|].
      now rewrite (@build_path_object_casing_off c1 c2 ext v r (st_schemas st) H). }
    rewrite E. destruct (process_rule c2 lower app ext r st); [|reflexivity].
    cbn [bind]. apply IH. }
  now rewrite Hrun.
Qed.

(* ================================================================== *)
(** * The sample application, again *)

Lemma path_template_of_pattern_witness :
  pattern_of [Static (str "/shops/"); Placeholder (Some (str "int")) (str "shop");
              Static (str "/items/"); Placeholder None (str "name")] =
    str "/shops/<int:shop>/items/<name>"
  /\ re_sub PATH_RE path_template (str "/shops/<int:shop>/items/<name>") =
     str "/shops/{shop}/items/{name}".
Proof.
  split; [reflexivity|].
  exact (@path_template_of_pattern
           [Static (str "/shops/"); Placeholder (Some (str "int")) (str "shop");
            Static (str "/items/"); Placeholder None (str "name")]
           eq_refl eq_refl).
Defined.

Lemma path_item_parameters_witness :
  match build_path_object unused_camelize ext0 get_item r_items [] with
  | Ok (_, po) =>
      dict_get po (skey "parameters") =
      Some (PList
              [PDict [(skey "name", PStr (str "limit"));
                      (skey "in", PStr (str "query"));
                      (skey "schema", integer_type)];
               PDict [(skey "name", PStr (str "offset"));
                      (skey "in", PStr (str "query"));
                      (skey "schema", integer_type)];
               PDict [(skey "name", PStr (str "item_id"));
                      (skey "in", PStr (str "path"))]])
  | Raise _ => False
  end.
Proof.
  destruct (build_path_object unused_camelize ext0 get_item r_items [])
    as [[s po]|e] eqn:H; [|vm_compute in H; discriminate].
  destruct (@path_item_parameters unused_camelize ext0 get_item r_items
              [] s po H) as (query & Hp & properties & Hprops & ->).
  rewrite Hp. vm_compute in Hprops. injection Hprops as <-. reflexivity.
Defined.

Lemma path_item_request_body_witness :
  match build_path_object unused_camelize ext0
          {| flask_schema_hidden := None;
             doc := None;
             flask_schema_response := None;
             flask_schema_request := Some (Paging, FORM);
             flask_schema_querystring := None |} r_ping [] with
  | Ok (_, po) =>
      lookup_path (PDict po)
        [skey "requestBody"; skey "content";
         skey "application/x-www-form-urlencoded"; skey "schema"] =
      Some (PDict (snd (fragment unused_camelize ext0 Paging)))
  | Raise _ => False
  end.
Proof.
  destruct (build_path_object unused_camelize ext0 _ r_ping [])
    as [[s po]|e] eqn:H; [|vm_compute in H; discriminate].
  pose proof (@path_item_request_body unused_camelize ext0 _ r_ping [] s po H)
    as Hb.
  cbn [flask_schema_request] in Hb. cbn [lookup_path]. rewrite Hb.
  reflexivity.
Defined.

Lemma path_item_summary_witness :
  match build_path_object unused_camelize ext0 get_item r_items [] with
  | Ok (_, po) =>
      dict_get po (skey "summary") = Some (PStr (str "Fetch an item."))
      /\ dict_get po (skey "description") =
         Some (PStr (newline ++ str "By its number."))
  | Raise _ => False
  end.
Proof.
  destruct (build_path_object unused_camelize ext0 get_item r_items [])
    as [[s po]|e] eqn:H; [|vm_compute in H; discriminate].
  pose proof (@path_item_summary unused_camelize ext0 get_item r_items [] s
                po H) as Hs.
  cbn [doc get_item] in Hs.
  destruct Hs as (summary & description & Hlines & Hsum & Hdesc & _).
  vm_compute in Hlines. injection Hlines as <- <-.
  split; assumption.
Defined.

Lemma path_item_responses_witness :
  match build_path_object unused_camelize ext0 get_item r_items [] with
  | Ok (_, po) =>
      exists responses,
        dict_get po (skey "responses") = Some (PDict responses)
        /\ keys responses = [KInt 200; KInt 404]
  | Raise _ => False
  end.
Proof.
  destruct (build_path_object unused_camelize ext0 get_item r_items [])
    as [[s po]|e] eqn:H; [|vm_compute in H; discriminate].
  destruct (@path_item_responses unused_camelize ext0 get_item r_items [] s
              po H) as (responses & Hr & _ & _ & Hmap).
  exists responses. split; [assumption|].
  rewrite Hmap; [reflexivity|].
  repeat constructor; simpl; intuition discriminate.
Defined.

Lemma components_origin_witness :
  match _build_openapi_schema unused_camelize ascii_lower items_app ext0 []
  with
  | Ok (doc, _) =>
      NoDup (keys (components doc))
      /\ forall k, In k (keys (components doc)) -> k = skey "Error"
  | Raise _ => False
  end.
Proof.
  destruct (_build_openapi_schema unused_camelize ascii_lower items_app ext0 [])
    as [[doc h']|e] eqn:Hbuild; [|vm_compute in Hbuild; discriminate].
  destruct (@components_origin unused_camelize ascii_lower items_app ext0 []
              doc h' Hbuild) as (Hnd & Hkeys & _).
  split; [assumption|].
  intros k Hk. apply Hkeys in Hk
    as (r & func & m & d & Hr & Hf & Hh & Hm & Hd & Hin).
  destruct Hr as [<-|[<-|[<-|[]]]]; vm_compute in Hf; injection Hf as <-;
    try discriminate; simpl in Hm.
  - contradiction.
  - destruct Hm as [<-|[<-|[<-|[]]]]; vm_compute in Hd; injection Hd as <-;
      simpl in Hin; intuition.
Defined.

Lemma paths_keys_witness :
  match _build_openapi_schema unused_camelize ascii_lower items_app ext0 []
  with
  | Ok (doc, _) =>
      forall p, In p (keys (paths doc)) <->
                p = skey "/ping" \/ p = skey "/items/{item_id}"
  | Raise _ => False
  end.
Proof.
  destruct (_build_openapi_schema unused_camelize ascii_lower items_app ext0 [])
    as [[doc h']|e] eqn:Hbuild; [|vm_compute in Hbuild; discriminate].
  destruct (@paths_keys unused_camelize ascii_lower items_app ext0 [] doc h'
              Hbuild) as (_ & Hkeys & _).
  intros p. rewrite Hkeys. split.
  - intros (r & [<-|[<-|[<-|[]]]] & Hv & ->).
    + vm_compute in Hv; discriminate.
    + now left.
    + now right.
  - intros [->| ->]; [exists r_ping | exists r_items]; simpl; auto.
Defined.

Lemma build_cells_witness :
  match _build_openapi_schema unused_camelize ascii_lower items_app ext0
          [fragment_cell]
  with
  | Ok (doc, h') =>
      length h' = 3
      /\ heap_get h' 0 = Some fragment_cell
      /\ verb_ref doc (str "/ping") (str "get") = Some 1
      /\ verb_ref doc (str "/items/{item_id}") (str "post") = Some 2
  | Raise _ => False
  end.
Proof.
  destruct (_build_openapi_schema unused_camelize ascii_lower items_app ext0
              [fragment_cell])
    as [[doc h']|e] eqn:Hbuild; [|vm_compute in Hbuild; discriminate].
  destruct (@build_cells unused_camelize ascii_lower items_app ext0
              [fragment_cell] doc h' Hbuild)
    as ((objs & -> & Hlen) & Hold & _ & Hitem).
  split; [rewrite length_app, Hlen; reflexivity|].
  split; [apply (Hold 0); simpl; lia|]. split.
  - destruct (Hitem [r_static] r_ping [r_items] (plain None) eq_refl eq_refl
                eq_refl) as (_ & _ & _ & _ & _ & Hverbs).
    apply (Hverbs (skey "get")).
    + simpl; auto.
    + intros r' [<-|[]] (_ & Hp & _). vm_compute in Hp; discriminate.
  - destruct (Hitem [r_static; r_ping] r_items [] get_item eq_refl eq_refl
                eq_refl) as (_ & _ & _ & _ & _ & Hverbs).
    apply (Hverbs (skey "post")).
    + simpl; auto.
    + intros r' [].
Defined.

Lemma build_all_hidden_witness :
  _build_openapi_schema unused_camelize ascii_lower
    {| url_map := [r_static]; view_functions := functions |} ext0 [] =
  Ok ({| openapi := str "3.0.3";
         info_title := Some (str "api");
         info_version := str "0.1.0";
         components := [];
         paths := [];
         doc_tags := [];
         doc_servers := Some [] |}, []).
Proof.
  apply (@build_all_hidden unused_camelize ascii_lower
           {| url_map := [r_static]; view_functions := functions |} ext0 []).
  intros r [<-|[]]. reflexivity.
Defined.

Lemma hide_route_hides_function_witness :
  hide_route_object shared_store (FunctionObject 1) =
  Ok (FunctionObject 1, [plain (Some (str "Serve a file.")); hide_route get_item])
  /\ _build_openapi_schema unused_camelize ascii_lower
       (app_of [plain (Some (str "Serve a file.")); hide_route get_item]
          [r_static; r_items; r_lookup] shared_views) ext0 [] =
     _build_openapi_schema unused_camelize ascii_lower
       (app_of shared_store [r_static] shared_views) ext0 [].
Proof.
  split; [reflexivity|].
  assert (Hwf : forall k c, In (k, c) shared_views ->
                  function_of c < length shared_store).
  { intros k c [E|[E|[E|[]]]]; injection E as <- <-; simpl; lia. }
  destruct (@hide_route_hides_function unused_camelize ascii_lower
              shared_store [r_static; r_items; r_lookup] shared_views ext0 []
              Hwf) as [Hhide _].
  exact (proj2 (proj2 (Hhide 1 _ _ eq_refl))).
Defined.

Lemma casing_off_ignores_camelize_witness :
  _build_openapi_schema (fun _ => []) ascii_lower items_app ext0 [] =
  _build_openapi_schema unused_camelize ascii_lower items_app ext0 [].
Proof.
  exact (@casing_off_ignores_camelize (fun _ => []) unused_camelize
           ascii_lower items_app ext0 [] eq_refl).
Defined.

Lemma path_template_merges_witness :
  re_sub PATH_RE path_template (str "/users/<name>/items/<int:item_id>/x") =
  str "/users/{item_id}/x".
Proof.
  assert (Hother : str "item_id" <> []) by discriminate.
  exact (@path_template_merges (str "/users/") (str "name") (str "/items/")
           (str "int") (str "item_id") (str "/x")
           eq_refl eq_refl Hother eq_refl).
Defined.

Lemma components_in_order_witness :
  match _build_openapi_schema unused_camelize ascii_lower items_app ext0 []
  with
  | Ok (doc, _) => dict_get (components doc) (skey "Error") = Some error_b
  | Raise _ => False
  end.
Proof.
  destruct (_build_openapi_schema unused_camelize ascii_lower items_app ext0 [])
    as [[doc h']|e] eqn:Hbuild; [|vm_compute in Hbuild; discriminate].
  destruct (@components_in_order unused_camelize ascii_lower items_app ext0 []
              doc h' Hbuild) as [_ Hlast].
  apply (Hlast [PDict (mk_dict [(skey "Error", error_a)])]
               (mk_dict [(skey "Error", error_b)]) [PDict []]).
  - reflexivity.
  - constructor; [intros []|constructor].
  - reflexivity.
  - intros d' [E|[]]. injection E as <-. intros [].
Defined.

Lemma references_resolve_witness :
  match _build_openapi_schema unused_camelize ascii_lower items_app ext0 []
  with
  | Ok (doc, h') =>
      (forall l po,
          0 <= l -> heap_get h' l = Some po ->
          refs_within (keys (components doc)) (PDict po))
      /\ refs_within (keys (components doc)) (PDict (components doc))
  | Raise _ => False
  end.
Proof.
  destruct (_build_openapi_schema unused_camelize ascii_lower items_app ext0 [])
    as [[doc h']|e] eqn:Hbuild; [|vm_compute in Hbuild; discriminate].
  apply (@references_resolve unused_camelize ascii_lower items_app ext0 []
           doc h' eq_refl Hbuild).
  intros r func m Hr Hf Hh Hm.
  destruct Hr as [<-|[<-|[<-|[]]]]; vm_compute in Hf; injection Hf as <-;
    try discriminate; simpl in Hm; [contradiction|].
  destruct Hm as [<-|[<-|[<-|[]]]]; intros s Href;
    apply has_ref_refs_in in Href; vm_compute in Href;
    repeat (destruct Href as [<-|Href];
            [exists (str "Error"); split; [reflexivity|left; reflexivity]|]);
    destruct Href.
Defined.
